(** * RLHive registry: configuration-driven object construction

    A shallow embedding of [hive/utils/registry.py]: the capability marker
    [Registrable], the callable wrapper [CallableType], the [Registry] with
    its per-family getters, the recursive construction engine
    [construct_objects] and the command-line override derivation
    [get_callable_parsed_args] / [get_parsed_args].

    Python dictionaries are mutable objects: they live in a store and a
    value only refers to them, so that the in-place updates of the source
    ([kwargs.update], [config[argument] = ...]) are visible to every holder
    of the dictionary.  A resolution is a computation in a monad of state
    and exceptions; the state also records every invocation of a plain
    constructor.  The getter of a family calls the getters of other
    families through the engine, so it takes a bound [fuel] on the depth of
    nesting.  What lies outside the module is a parameter of the
    development: the builtins [int] and [float], [yaml.safe_load], the
    behaviour of the constructors when they are finally invoked, the
    command line and the registry that the importing modules filled. *)

From Stdlib Require Import ZArith.
From Stdlib Require QArith.
From Stdlib Require Import Ascii String.
From stdpp Require Import gmap strings list fin_maps.

Set Warnings "-register-all".

Local Open Scope Z_scope.
Local Open Scope stdpp_scope.

(** ** Insertion-ordered dictionaries (Python [dict] contents) *)

Module Dict.
Section ops.
Context {V : Type}.

Fixpoint get (k : string) (d : list (string * V)) : option V :=
  match d with
  | [] => None
  | (k', v) :: d' => if decide (k' = k) then Some v else get k d'
  end.

(** [d[k] = v]: an existing key keeps its position, a new one goes last. *)
Fixpoint set (k : string) (v : V) (d : list (string * V)) : list (string * V) :=
  match d with
  | [] => [(k, v)]
  | (k', v') :: d' =>
      if decide (k' = k) then (k, v) :: d' else (k', v') :: set k v d'
  end.

Definition mem (k : string) (d : list (string * V)) : bool :=
  match get k d with Some _ => true | None => false end.

(** [d.update(patch)] *)
Definition update (d patch : list (string * V)) : list (string * V) :=
  fold_left (fun acc kv => set kv.1 kv.2 acc) patch d.

Definition keys (d : list (string * V)) : list string := d.*1.
End ops.
End Dict.

(** ** Classes, annotations and signatures *)

(** A class, reduced to what the registry observes of it: its name, the
    names of the classes of its method resolution order (itself included)
    and the result of the class method [type_name()].  [None] stands for the
    inherited [Registrable.type_name], which raises [ValueError]. *)
Record pyclass := PyClass {
  cls_name : string;
  cls_mro : list string;
  cls_type_name : option string
}.

Definition issubclass (c d : pyclass) : bool :=
  bool_decide (cls_name d ∈ cls_mro c).

(** [issubclass(c, Registrable)] *)
Definition is_registrable (c : pyclass) : bool :=
  bool_decide ("Registrable" ∈ cls_mro c).

Definition Registrable : pyclass :=
  {| cls_name := "Registrable"; cls_mro := ["Registrable"; "object"];
     cls_type_name := None |}.

Definition CallableType : pyclass :=
  {| cls_name := "CallableType";
     cls_mro := ["CallableType"; "Registrable"; "object"];
     cls_type_name := Some "callable" |}.

(** The annotation of a parameter as [inspect] reports it. *)
Inductive annotation :=
  | Ann_empty                     (* inspect.Parameter.empty *)
  | Ann_int
  | Ann_bool
  | Ann_str
  | Ann_float
  | Ann_class (c : pyclass)       (* any other class *)
  | Ann_other (repr : string).    (* not a class: typing forms, strings *)

Record param := Param { p_name : string; p_annotation : annotation }.

(** A plain constructible (class or function) with its signature. *)
Record pyfunc := PyFunc { fn_name : string; fn_params : list param }.

(** ** Values *)

Definition loc := nat.

Inductive value :=
  | VNone
  | VBool (b : bool)
  | VInt (n : Z)
  | VFloat (q : QArith_base.Q)
  | VStr (s : string)
  | VList (vs : list value)
  | VDict (l : loc)                       (* reference to a dict object *)
  | VInstance (cls : pyclass) (oid : nat) (* an already constructed object *)
  | VCallable (c : callable)
with callable :=
  | Fn (f : pyfunc)
  | Wrapper (cls : pyclass) (fn : callable)
      (* [cls(fn)] for [cls] = CallableType or a subclass of it *)
  | Partial (fn : callable) (args : list value) (kw : list (string * value)).
      (* functools.partial(fn, *args, **kw) *)

Abbreviation dict := (list (string * value)).

(** [inspect.signature(c).parameters], in declaration order.
    [update_wrapper] gives the wrapper a [__wrapped__] attribute, which
    [inspect.signature] follows; a partial object loses the parameters it
    binds positionally. *)
Fixpoint signature (c : callable) : list param :=
  match c with
  | Fn f => fn_params f
  | Wrapper _ fn => signature fn
  | Partial fn args _ => drop (length args) (signature fn)
  end.

(** [isinstance(v, t)] for a class [t] of the registry's world: only
    constructed objects and wrapper objects are instances of such classes. *)
Definition isinstance (v : value) (t : pyclass) : bool :=
  match v with
  | VInstance c _ => issubclass c t
  | VCallable (Wrapper c _) => issubclass c t
  | _ => false
  end.

(** Plain data, as [yaml.safe_load] returns it before it becomes objects. *)
Inductive data :=
  | DNone
  | DBool (b : bool)
  | DInt (n : Z)
  | DFloat (q : QArith_base.Q)
  | DStr (s : string)
  | DList (ds : list data)
  | DDict (kvs : list (string * data)).

(** ** Exceptions, store and the resolution monad *)

Inductive exn :=
  | ClassNotFound (name : value)  (* ValueError(f"{name} class not found") *)
  | ValueError (msg : string)
  | KeyError (key : string)
  | TypeError (msg : string)
  | AttributeError (attr : string)
  | ArgumentError (option_string : string)
  | SystemExit (code : Z)
  | YAMLError
  | ConstructorError (msg : string).

(** The text of the exception, where the model determines it. *)
Definition exn_message (e : exn) : option string :=
  match e with
  | ClassNotFound (VStr name) => Some (name +:+ " class not found")
  | ValueError msg | TypeError msg | ConstructorError msg => Some msg
  | _ => None
  end.

Inductive result (A : Type) :=
  | Ok (a : A)
  | Raise (e : exn)
  | OutOfFuel.
Arguments Ok {A} a.
Arguments Raise {A} e.
Arguments OutOfFuel {A}.

(** One entry per invocation of a plain constructible. *)
Record invocation := Invocation {
  inv_fn : pyfunc;
  inv_args : list value;
  inv_kwargs : dict
}.

Record state := State {
  heap : gmap loc dict;        (* the dict objects *)
  next_loc : loc;              (* next unused location *)
  calls : list invocation      (* constructors invoked so far, oldest first *)
}.

Definition M (A : Type) : Type := state -> result A * state.

Definition ret {A} (a : A) : M A := fun st => (Ok a, st).
Definition raise {A} (e : exn) : M A := fun st => (Raise e, st).
Definition out_of_fuel {A} : M A := fun st => (OutOfFuel, st).

Definition bind {A B} (m : M A) (k : A -> M B) : M B :=
  fun st =>
    match m st with
    | (Ok a, st') => k a st'
    | (Raise e, st') => (Raise e, st')
    | (OutOfFuel, st') => (OutOfFuel, st')
    end.

Notation "'let*' x ':=' m 'in' k" := (bind m (fun x => k))
  (at level 10, x name, m at level 100, k at level 200).
Notation "'do' m 'then' k" := (bind m (fun _ => k))
  (at level 10, m at level 100, k at level 200).

Definition set_heap (h : gmap loc dict) (st : state) : state :=
  {| heap := h; next_loc := next_loc st; calls := calls st |}.

(** A new dict object. *)
Definition alloc (d : dict) : M value :=
  fun st =>
    (Ok (VDict (next_loc st)),
     {| heap := <[next_loc st := d]> (heap st);
        next_loc := S (next_loc st);
        calls := calls st |}).

Definition read_dict (l : loc) : M dict :=
  fun st =>
    match heap st !! l with
    | Some d => (Ok d, st)
    | None => (Raise (TypeError "dangling reference"), st)
    end.

Definition write_dict (l : loc) (d : dict) : M unit :=
  fun st => (Ok tt, set_heap (<[l := d]> (heap st)) st).

(** [obj[key]] for a string key. *)
Definition getitem (obj : value) (key : string) : M value :=
  match obj with
  | VDict l =>
      let* d := read_dict l in
      match Dict.get key d with
      | Some v => ret v
      | None => raise (KeyError key)
      end
  | _ => raise (TypeError "object is not subscriptable by a string")
  end.

(** [key in s] for two strings: [key] occurs in [s]. *)
Fixpoint is_substring (key s : string) : bool :=
  String.prefix key s
  || match s with
     | EmptyString => false
     | String _ s' => is_substring key s'
     end.

(** [key in obj] for a string [key]: a key of a dict, an element of a
    list, a part of a string; the other values are not iterable. *)
Definition contains (obj : value) (key : string) : M bool :=
  match obj with
  | VDict l => let* d := read_dict l in ret (Dict.mem key d)
  | VList vs =>
      ret (existsb (fun v => match v with
                             | VStr s => bool_decide (s = key)
                             | _ => false
                             end) vs)
  | VStr s => ret (is_substring key s)
  | _ => raise (TypeError "argument is not iterable")
  end.

(** [obj[key] = v] *)
Definition setitem (obj : value) (key : string) (v : value) : M unit :=
  match obj with
  | VDict l => let* d := read_dict l in write_dict l (Dict.set key v d)
  | _ => raise (TypeError "object does not support item assignment")
  end.

(** [obj.update(patch)] *)
Definition dict_update (obj : value) (patch : dict) : M unit :=
  match obj with
  | VDict l => let* d := read_dict l in write_dict l (Dict.update d patch)
  | _ => raise (AttributeError "update")
  end.

(** [c.type_name()] for a [Registrable] class. *)
Definition type_name (c : pyclass) : M string :=
  match cls_type_name c with
  | Some tn => ret tn
  | None => raise (ValueError "")
  end.

(** ** String helpers of the flag schema *)

(** [s.lstrip('-')] *)
Fixpoint lstrip_dash (s : string) : string :=
  match s with
  | String "-" s' => lstrip_dash s'
  | _ => s
  end.

(** [s.replace('-', '_')] *)
Fixpoint replace_dash (s : string) : string :=
  match s with
  | EmptyString => EmptyString
  | String c s' =>
      String (if Ascii.eqb c "-" then "_"%char else c) (replace_dash s')
  end.

(** [key[len(prefix):] if key.startswith(prefix) else key] *)
Definition strip_prefix (prefix key : string) : string :=
  if String.prefix prefix key
  then String.substring (String.length prefix)
         (String.length key - String.length prefix) key
  else key.

(** [prefix = "" if prefix is None else f"{prefix}."] *)
Definition prefix_dot (prefix : option string) : string :=
  match prefix with
  | None => ""
  | Some p => p +:+ "."
  end.

(** ** The argparse parser of [get_parsed_args]

    The process-wide override set ([sys.argv[1:]]) is taken as already
    split into [(flag, value)] pairs, [--flag value].  Of [argparse] the
    model keeps what [get_parsed_args] relies on: a fresh parser knows
    [-h] and [--help]; [add_argument("--name")] registers an optional
    string-valued option whose destination is the name with leading dashes
    stripped and inner dashes turned into underscores, and refuses an
    option string that is already taken; [parse_known_args] resolves a
    typed flag exactly or, failing that, as an unambiguous abbreviation of
    one declared long option, stores the value of the last occurrence,
    skips flags it does not know, and exits on help or on an ambiguous
    abbreviation.  The spellings [--name=value] and [-hX], the separator
    [--] and values that begin with a dash are not part of the model. *)

Inductive action :=
  | StoreAction (dest : string)
  | HelpAction.

Abbreviation argument_parser := (list (string * action)).

(** [argparse.ArgumentParser()] *)
Definition ArgumentParser : argument_parser :=
  [("-h", HelpAction); ("--help", HelpAction)].

(** [parser.add_argument(flag)] *)
Definition add_argument (flag : string) (parser : argument_parser)
  : result argument_parser :=
  let dest := replace_dash (lstrip_dash flag) in
  if decide (dest = "") then Raise (ValueError "dest= is required")
  else if Dict.mem flag parser then Raise (ArgumentError flag)
  else Ok (parser ++ [(flag, StoreAction dest)]).

Inductive resolution :=
  | Resolved (a : action)
  | Ambiguous
  | Unknown.

(** How the parser reads one typed flag. *)
Definition resolve_flag (parser : argument_parser) (typed : string) : resolution :=
  match Dict.get typed parser with
  | Some a => Resolved a
  | None =>
      if String.prefix "--" typed then
        match filter (fun oa => Is_true (String.prefix typed oa.1)) parser with
        | [] => Unknown
        | [oa] => Resolved oa.2
        | _ => Ambiguous
        end
      else Unknown
  end.

(** The namespace before parsing: every destination defaults to [None]. *)
Definition default_namespace (parser : argument_parser)
  : list (string * option string) :=
  fold_left
    (fun ns oa =>
       match oa.2 with
       | StoreAction dest => if Dict.mem dest ns then ns else ns ++ [(dest, None)]
       | HelpAction => ns
       end) parser [].

Fixpoint parse_args (parser : argument_parser) (argv : list (string * string))
    (ns : list (string * option string))
  : result (list (string * option string)) :=
  match argv with
  | [] => Ok ns
  | (typed, text) :: rest =>
      match resolve_flag parser typed with
      | Resolved (StoreAction dest) =>
          parse_args parser rest (Dict.set dest (Some text) ns)
      | Resolved HelpAction => Raise (SystemExit 0)
      | Ambiguous => Raise (SystemExit 2)
      | Unknown => parse_args parser rest ns
      end
  end.

(** [vars(parser.parse_known_args()[0])] *)
Definition parse_known_args (parser : argument_parser)
    (argv : list (string * string)) : result (list (string * option string)) :=
  parse_args parser argv (default_namespace parser).

(** ** The registry *)

(** What the closure [getter] captures when [register] defines it: the
    [type] and the [constructor] arguments of that call to [register]. *)
Record getter_closure := GetterClosure {
  g_type : pyclass;
  g_constructor : callable
}.

(** [_registry] is the table of the instance; [getters] holds the
    attributes [get_<type name>] that [register] sets on the class. *)
Record Registry := MkRegistry {
  _registry : gmap string (gmap string callable);
  getters : gmap string getter_closure
}.

(** [Registry()] *)
Definition Registry_init : Registry :=
  {| _registry := ∅; getters := ∅ |}.

Definition lift {A} (r : result A) : M A := fun st => (r, st).

(** [Registry.register] *)
Definition register (name : string) (constructor : callable) (type : pyclass)
    (self : Registry) : result Registry :=
  if negb (is_registrable type) then Raise (ValueError "is not Registrable")
  else
    match cls_type_name type with
    | None => Raise (ValueError "")
    | Some tn =>
        let self1 :=
          match _registry self !! tn with
          | Some _ => self
          | None =>
              {| _registry := <[tn := ∅]> (_registry self);
                 getters :=
                   <["get_" +:+ tn :=
                       {| g_type := type; g_constructor := constructor |}]>
                     (getters self) |}
          end in
        Ok {| _registry :=
                <[tn := <[name := constructor]>
                          (default ∅ (_registry self1 !! tn))]>
                  (_registry self1);
              getters := getters self1 |}
    end.

(** [Registry.register_all] *)
Fixpoint register_all (base_class : pyclass)
    (class_dict : list (string * callable)) (self : Registry)
  : result Registry :=
  match class_dict with
  | [] => Ok self
  | (cls, constructor) :: rest =>
      match register cls constructor base_class self with
      | Ok self' => register_all base_class rest self'
      | Raise e => Raise e
      | OutOfFuel => OutOfFuel
      end
  end.

(** ** Resolution *)

(** What a key of the [arguments] mapping of [get_parsed_args] is bound to:
    a type (callers that pass a hand-written mapping) or the
    [inspect.Parameter] object that [get_callable_parsed_args] puts there. *)
Inductive expected :=
  | TypeObject (a : annotation)
  | ParameterObject (p : param).

(** [expected_type in [int, bool, str, float]]: a [Parameter] object equals
    none of the four types. *)
Definition in_primitives (e : expected) : bool :=
  match e with
  | TypeObject Ann_int | TypeObject Ann_bool
  | TypeObject Ann_str | TypeObject Ann_float => true
  | _ => false
  end.

(** The annotation is a class that derives from [Registrable]:
    [isinstance(expected_type, type) and issubclass(expected_type, Registrable)] *)
Definition registrable_annotation (a : annotation) : option pyclass :=
  match a with
  | Ann_class c => if is_registrable c then Some c else None
  | _ => None
  end.

(** The dict comprehension of [get_callable_parsed_args]: every
    parameter except [self], bound to its [inspect.Parameter]. *)
Definition parameter_arguments (signature : list param)
  : list (string * expected) :=
  fold_left
    (fun acc p =>
       if decide (p_name p = "self") then acc
       else Dict.set (p_name p) (ParameterObject p) acc)
    signature [].

Section Resolution.

(** The builtins and libraries that the registry calls, and the process
    it runs in. *)
Variable py_int : string -> option Z.              (* int(text) *)
Variable py_float : string -> option QArith_base.Q. (* float(text) *)
Variable yaml_safe_load : string -> option data.   (* yaml.safe_load(text) *)
Variable invoke : pyfunc -> list value -> dict -> gmap loc dict -> result value.
Variable argv : list (string * string).            (* sys.argv[1:] *)
Variable registry : Registry.                      (* the module-level registry *)

(** Turning loaded data into objects: every mapping becomes a new dict. *)
Fixpoint alloc_data (d : data) : M value :=
  match d with
  | DNone => ret VNone
  | DBool b => ret (VBool b)
  | DInt n => ret (VInt n)
  | DFloat q => ret (VFloat q)
  | DStr s => ret (VStr s)
  | DList ds =>
      let* vs :=
        (fix go (ds : list data) : M (list value) :=
           match ds with
           | [] => ret []
           | x :: xs =>
               let* v := alloc_data x in
               let* vs := go xs in
               ret (v :: vs)
           end) ds in
      ret (VList vs)
  | DDict kvs =>
      let* d :=
        (fix go (kvs : list (string * data)) (acc : dict) : M dict :=
           match kvs with
           | [] => ret acc
           | (k, x) :: rest =>
               let* v := alloc_data x in
               go rest (Dict.set k v acc)
           end) kvs [] in
      alloc d
  end.

(** Calling a callable object with positional and keyword arguments.
    [CallableType.__call__] returns [partial(self._fn, *args, **kwargs)];
    a partial object calls its function with the captured arguments
    first and the captured keywords updated by the new ones. *)
Fixpoint call (c : callable) (args : list value) (kwargs : dict) : M value :=
  match c with
  | Fn f =>
      fun st =>
        (invoke f args kwargs (heap st),
         {| heap := heap st; next_loc := next_loc st;
            calls := calls st ++ [Invocation f args kwargs] |})
  | Wrapper _ fn => ret (VCallable (Partial fn args kwargs))
  | Partial fn args0 kwargs0 =>
      call fn (args0 ++ args) (Dict.update kwargs0 kwargs)
  end.

(** [expected_type(text)] for one of the four primitive types, and
    [yaml.safe_load(text)] otherwise. *)
Definition coerce (expected_type : expected) (text : string) : M value :=
  if in_primitives expected_type then
    match expected_type with
    | TypeObject Ann_int =>
        match py_int text with
        | Some n => ret (VInt n)
        | None => raise (ValueError "invalid literal for int()")
        end
    | TypeObject Ann_bool => ret (VBool (negb (bool_decide (text = ""))))
    | TypeObject Ann_str => ret (VStr text)
    | TypeObject Ann_float =>
        match py_float text with
        | Some q => ret (VFloat q)
        | None => raise (ValueError "could not convert string to float")
        end
    | _ => raise (TypeError "unreachable")
    end
  else
    match yaml_safe_load text with
    | Some d => alloc_data d
    | None => raise YAMLError
    end.

Fixpoint add_arguments (prefix : string) (names : list string)
    (parser : argument_parser) : result argument_parser :=
  match names with
  | [] => Ok parser
  | argument :: rest =>
      match add_argument ("--" +:+ prefix +:+ argument) parser with
      | Ok parser' => add_arguments prefix rest parser'
      | Raise e => Raise e
      | OutOfFuel => OutOfFuel
      end
  end.

(** The dict comprehension of [get_parsed_args]: strip the prefix from
    the keys and drop the entries that are [None]. *)
Definition strip_and_filter (prefix : string)
    (ns : list (string * option string)) : list (string * string) :=
  fold_left
    (fun acc kv =>
       match kv.2 with
       | Some text => Dict.set (strip_prefix prefix kv.1) text acc
       | None => acc
       end) ns [].

(** The last loop of [get_parsed_args]: each value is replaced in place. *)
Fixpoint coerce_all (arguments : list (string * expected))
    (parsed_args : list (string * string)) : M dict :=
  match parsed_args with
  | [] => ret []
  | (argument, text) :: rest =>
      match Dict.get argument arguments with
      | None => raise (KeyError argument)
      | Some expected_type =>
          let* v := coerce expected_type text in
          let* rest' := coerce_all arguments rest in
          ret ((argument, v) :: rest')
      end
  end.

Definition get_parsed_args (arguments : list (string * expected))
    (prefix : option string) : M dict :=
  let prefix := prefix_dot prefix in
  let* parser := lift (add_arguments prefix (Dict.keys arguments) ArgumentParser) in
  let* parsed_args := lift (parse_known_args parser argv) in
  let parsed_args := strip_and_filter prefix parsed_args in
  coerce_all arguments parsed_args.

Definition get_callable_parsed_args (callable : callable)
    (prefix : option string) : M dict :=
  let signature := signature callable in
  let arguments := parameter_arguments signature in
  get_parsed_args arguments prefix.

(** [registry.__getattribute__(attr)], given how a getter behaves. *)
Definition getattribute (run : getter_closure -> value -> option string -> M value)
    (attr : string) : M (value -> option string -> M value) :=
  match getters registry !! attr with
  | Some g => ret (run g)
  | None => raise (AttributeError attr)
  end.

Fixpoint construct_loop
    (run : getter_closure -> value -> option string -> M value)
    (parameters : list param) (config : value) (prefix : string) : M unit :=
  match parameters with
  | [] => ret tt
  | p :: rest =>
      let argument := p_name p in
      let* present := contains config argument in
      if negb present then construct_loop run rest config prefix
      else
        match registrable_annotation (p_annotation p) with
        | Some expected_type =>
            let* tn := type_name expected_type in
            let* get := getattribute run ("get_" +:+ tn) in
            let* current := getitem config argument in
            let* object := get current (Some (prefix +:+ argument)) in
            do setitem config argument object then
            construct_loop run rest config prefix
        | None => construct_loop run rest config prefix
        end
  end.

Definition construct_objects
    (run : getter_closure -> value -> option string -> M value)
    (object_constructor : callable) (config : value) (prefix : option string)
  : M value :=
  let signature := signature object_constructor in
  let prefix := prefix_dot prefix in
  do construct_loop run signature config prefix then
  ret config.

(** [name in table], the table having string keys. *)
Definition name_in (name : value) (table : gmap string callable)
  : M (option callable) :=
  match name with
  | VStr s => ret (table !! s)
  | VList _ | VDict _ => raise (TypeError "unhashable type")
  | _ => ret None
  end.

(** The final call: [object_class] applied to the entries of [kwargs] as
    keyword arguments. *)
Definition call_with_kwargs (object_class : callable) (kwargs : value)
  : M value :=
  match kwargs with
  | VDict l => let* d := read_dict l in call object_class [] d
  | _ => raise (TypeError "argument after ** must be a mapping")
  end.

(** The closure [getter] that [register] installs as [get_<type name>];
    [fuel] bounds the depth of nested resolutions. *)
Fixpoint getter (fuel : nat) (g : getter_closure) (object_or_config : value)
    (prefix : option string) : M value :=
  match fuel with
  | O => out_of_fuel
  | S fuel' =>
      let type := g_type g in
      let constructor := g_constructor g in
      match object_or_config with
      | VNone => ret VNone
      | _ =>
          if isinstance object_or_config type then ret object_or_config
          else
            let* name := getitem object_or_config "name" in
            let* kwargs := getitem object_or_config "kwargs" in
            let* tn := type_name type in
            let* table :=
              match _registry registry !! tn with
              | Some table => ret table
              | None => raise (KeyError tn)
              end in
            let* found := name_in name table in
            match found with
            | Some object_class =>
                let* parsed_args :=
                  get_callable_parsed_args object_class prefix in
                do dict_update kwargs parsed_args then
                let* kwargs :=
                  construct_objects (getter fuel') constructor kwargs prefix in
                call_with_kwargs object_class kwargs
            | None => raise (ClassNotFound name)
            end
      end
  end.

(** [getattr(registry, "get_" + tn)(object_or_config, prefix)] *)
Definition get (fuel : nat) (tn : string) (object_or_config : value)
    (prefix : option string) : M value :=
  let* getter_ := getattribute (getter fuel) ("get_" +:+ tn) in
  getter_ object_or_config prefix.

End Resolution.

(** ** Registries that registration can produce *)

Inductive populated : Registry -> Prop :=
  | populated_init : populated Registry_init
  | populated_register name constructor type self self' :
      populated self ->
      register name constructor type self = Ok self' ->
      populated self'.

(** Every family of the table has its getter, installed for a class with
    that type name. *)
Definition getters_installed (self : Registry) : Prop :=
  forall tn table,
    _registry self !! tn = Some table ->
    exists g, getters self !! ("get_" +:+ tn) = Some g
              /\ cls_type_name (g_type g) = Some tn.

(** ** A small world for the examples

    Two families, [optimizer] and [agent]; the agent [DQNAgent] takes an
    optimizer.  The library functions are given on the literals that the
    examples use. *)

Module Sample.

Definition Optimizer : pyclass :=
  {| cls_name := "Optimizer";
     cls_mro := ["Optimizer"; "Registrable"; "object"];
     cls_type_name := Some "optimizer" |}.

Definition Agent : pyclass :=
  {| cls_name := "Agent";
     cls_mro := ["Agent"; "Registrable"; "object"];
     cls_type_name := Some "agent" |}.

Definition SGD : pyfunc :=
  PyFunc "SGD" [Param "lr" Ann_float; Param "tag" Ann_str].
Definition Adam : pyfunc := PyFunc "Adam" [Param "lr" Ann_float].
Definition RandomAgent : pyfunc := PyFunc "RandomAgent" [Param "seed" Ann_int].
Definition DQNAgent : pyfunc :=
  PyFunc "DQNAgent"
    [Param "optimizer" (Ann_class Optimizer); Param "gamma" Ann_float].

(** The registry after
    [register_all(Optimizer, {"SGD": SGD, "Adam": Adam})] and
    [register_all(Agent, {"RandomAgent": RandomAgent, "DQNAgent": DQNAgent})]. *)
Definition registry : Registry :=
  match register_all Optimizer [("SGD", Fn SGD); ("Adam", Fn Adam)]
          Registry_init with
  | Ok r =>
      match register_all Agent
              [("RandomAgent", Fn RandomAgent); ("DQNAgent", Fn DQNAgent)] r with
      | Ok r' => r'
      | _ => r
      end
  | _ => Registry_init
  end.

(** The same families, the agents registered in the other order. *)
Definition dqn_registry : Registry :=
  match register_all Optimizer [("SGD", Fn SGD); ("Adam", Fn Adam)]
          Registry_init with
  | Ok r =>
      match register_all Agent
              [("DQNAgent", Fn DQNAgent); ("RandomAgent", Fn RandomAgent)] r with
      | Ok r' => r'
      | _ => r
      end
  | _ => Registry_init
  end.

(** Modelled from the spec: the class [FunctionApproximator] of
    [hive/agents/qnets/base.py], a [CallableType] whose type name the
    specification gives as "function_approximator". *)
Definition FunctionApproximator : pyclass :=
  {| cls_name := "FunctionApproximator";
     cls_mro := ["FunctionApproximator"; "CallableType"; "Registrable"; "object"];
     cls_type_name := Some "function_approximator" |}.

(** [ConvRNNNetwork.__init__] of [hive/agents/qnets/rnn.py]: no parameter
    is annotated. *)
Definition ConvRNNNetwork : pyfunc :=
  PyFunc "ConvRNNNetwork"
    (map (fun name => Param name Ann_empty)
       ["in_dim"; "channels"; "mlp_layers"; "kernel_sizes"; "strides";
        "paddings"; "normalization_factor"; "rnn_type"; "rnn_hidden_size";
        "num_rnn_layers"; "noisy"; "std_init"]).

(** [hive/agents/qnets/__init__.py], for the network whose source is at
    hand: [register_all(FunctionApproximator, {"ConvRNNNetwork":
    FunctionApproximator(ConvRNNNetwork)})]. *)
Definition qnet_registry : Registry :=
  match register_all FunctionApproximator
          [("ConvRNNNetwork", Wrapper FunctionApproximator (Fn ConvRNNNetwork))]
          Registry_init with
  | Ok r => r
  | _ => Registry_init
  end.

(** The fragment [{name: ConvRNNNetwork, kwargs: {rnn_type: gru}}] at
    location 0. *)
Definition qnet_state : state :=
  {| heap := <[0%nat := [("name", VStr "ConvRNNNetwork"); ("kwargs", VDict 1%nat)]]>
             (<[1%nat := [("rnn_type", VStr "gru")]]> ∅);
     next_loc := 2%nat; calls := [] |}.

(** [int(text)] on the literals of the examples. *)
Definition py_int (text : string) : option Z :=
  if decide (text = "2") then Some 2
  else if decide (text = "12") then Some 12
  else None.

(** [float(text)] on the literals of the examples. *)
Definition py_float (text : string) : option QArith_base.Q :=
  if decide (text = "3.5") then Some (QArith_base.Qmake 7 2)
  else if decide (text = "2") then Some (QArith_base.Qmake 2 1)
  else if decide (text = "12") then Some (QArith_base.Qmake 12 1)
  else None.

(** [yaml.safe_load(text)] on the literals of the examples. *)
Definition yaml_safe_load (text : string) : option data :=
  if decide (text = "2") then Some (DInt 2)
  else if decide (text = "12") then Some (DInt 12)
  else if decide (text = "3.5") then Some (DFloat (QArith_base.Qmake 7 2))
  else if decide (text = "null") then Some DNone
  else if decide (text = "{name: Adam, kwargs: {}}")
  then Some (DDict [("name", DStr "Adam"); ("kwargs", DDict [])])
  else None.

(** A constructor that accepts whatever it is given and returns a new
    object of its own class. *)
Definition invoke (f : pyfunc) (args : list value) (kwargs : dict)
    (h : gmap loc dict) : result value :=
  Ok (VInstance (PyClass (fn_name f) [fn_name f; "object"] None)
        (length args + length kwargs)).

(** The fragment [{name: DQNAgent, kwargs: {optimizer: {name: SGD,
    kwargs: {lr: 1}}, gamma: 1}}] at location 0. *)
Definition config_heap : gmap loc dict :=
  <[0%nat := [("name", VStr "DQNAgent"); ("kwargs", VDict 1%nat)]]>
  (<[1%nat := [("optimizer", VDict 2%nat); ("gamma", VInt 1)]]>
  (<[2%nat := [("name", VStr "SGD"); ("kwargs", VDict 3%nat)]]>
  (<[3%nat := [("lr", VInt 1)]]> ∅))).

Definition config_state : state :=
  {| heap := config_heap; next_loc := 4%nat; calls := [] |}.

(** The fragment [{name: SGD, kwargs: {lr: 2}}] at location 0. *)
Definition sgd_state : state :=
  {| heap := <[0%nat := [("name", VStr "SGD"); ("kwargs", VDict 1%nat)]]>
             (<[1%nat := [("lr", VInt 2)]]> ∅);
     next_loc := 2%nat; calls := [] |}.

(** The fragment [{name: does_not_exist, kwargs: {}}] at location 0. *)
Definition unknown_state : state :=
  {| heap := <[0%nat := [("name", VStr "does_not_exist"); ("kwargs", VDict 1%nat)]]>
             (<[1%nat := []]> ∅);
     next_loc := 2%nat; calls := [] |}.

End Sample.

(** ** Notions used to state the properties *)

(** The string holds no dash. *)
Fixpoint no_dash (s : string) : bool :=
  match s with
  | EmptyString => true
  | String c s' => negb (Ascii.eqb c "-") && no_dash s'
  end.

(** The parser stores to the destination [dest]: it reads some pair of the
    override set as the option that stores to [dest].  This is what the
    parser does with the pairs; what the pairs themselves say is
    [named_in], below, and the two agree on an override set that parses
    ([supplied_named_in]). *)
Definition supplied (parser : argument_parser) (argv : list (string * string))
    (dest : string) : Prop :=
  exists typed text,
    (typed, text) ∈ argv
    /\ resolve_flag parser typed = Resolved (StoreAction dest).

(** The text of the last pair of the override set that the parser stores
    to [dest]. *)
Fixpoint last_supplied (parser : argument_parser)
    (argv : list (string * string)) (dest : string) : option string :=
  match argv with
  | [] => None
  | (typed, text) :: rest =>
      match last_supplied parser rest dest with
      | Some t => Some t
      | None =>
          match resolve_flag parser typed with
          | Resolved (StoreAction d) =>
              if decide (d = dest) then Some text else None
          | _ => None
          end
      end
  end.

(** The dict objects that a value refers to directly. *)
Fixpoint vrefs (v : value) : list loc :=
  match v with
  | VDict l => [l]
  | VList vs =>
      (fix go (vs : list value) : list loc :=
         match vs with
         | [] => []
         | x :: xs => vrefs x ++ go xs
         end) vs
  | VCallable c => crefs c
  | _ => []
  end
with crefs (c : callable) : list loc :=
  match c with
  | Fn _ => []
  | Wrapper _ fn => crefs fn
  | Partial fn args kw =>
      crefs fn
      ++ (fix go (vs : list value) : list loc :=
            match vs with
            | [] => []
            | x :: xs => vrefs x ++ go xs
            end) args
      ++ (fix go (kvs : list (string * value)) : list loc :=
            match kvs with
            | [] => []
            | kv :: rest => vrefs kv.2 ++ go rest
            end) kw
  end.

Definition lrefs (vs : list value) : list loc := flat_map vrefs vs.
Definition drefs (d : dict) : list loc := flat_map (fun kv => vrefs kv.2) d.

(** Nothing is stored at or above the next unused location. *)
Definition wf (st : state) : Prop :=
  forall l : loc, (next_loc st <= l)%nat -> heap st !! l = None.

(** The dicts of the region [R] refer to dicts of [R] only. *)
Definition closed (R : loc -> Prop) (h : gmap loc dict) : Prop :=
  forall l d, R l -> h !! l = Some d -> forall l', l' ∈ drefs d -> R l'.

(** A region that a resolution may work in: closed, and holding every
    location that is still unused. *)
Definition region (R : loc -> Prop) (st : state) : Prop :=
  wf st /\ closed R (heap st) /\ forall l, (next_loc st <= l)%nat -> R l.

(** The registered constructors hold no dict of their own (a partial
    object with captured dicts would). *)
Definition constructors_hold_no_dict (self : Registry) : Prop :=
  map_Forall
    (fun _ (table : gmap string callable) =>
       map_Forall (fun _ c => crefs c = []) table)
    (_registry self).

(** What a constructor returns refers to no dict but those of its
    arguments. *)
Definition returns_its_arguments
    (invoke : pyfunc -> list value -> dict -> gmap loc dict -> result value)
  : Prop :=
  forall f args kwargs h v,
    invoke f args kwargs h = Ok v ->
    forall l, l ∈ vrefs v -> l ∈ lrefs args ++ drefs kwargs.

(** The parameter is one that the engine resolves through a getter. *)
Definition resolved_by_engine (signature : list param) (a : string) : Prop :=
  exists p, p ∈ signature /\ p_name p = a
            /\ is_Some (registrable_annotation (p_annotation p)).

(** A stretch of a resolution that works inside the region [R]: the region
    is kept, locations are only added, dicts outside [R] are untouched. *)
Definition within (R : loc -> Prop) (st st' : state) : Prop :=
  region R st'
  /\ (next_loc st <= next_loc st')%nat
  /\ forall l, ~ R l -> heap st' !! l = heap st !! l.

(** What a getter must satisfy for the engine to stay in the region. *)
Definition stays_within (R : loc -> Prop)
    (run : getter_closure -> value -> option string -> M value) : Prop :=
  forall g v prefix st r st',
    region R st -> (forall l, l ∈ vrefs v -> R l) ->
    run g v prefix st = (Ok r, st') ->
    within R st st' /\ forall l, l ∈ vrefs r -> R l.

(** The table of families and the installed getters agree: a family has
    a getter and only families have one; a getter is stored under
    [get_<type name>] for a class that derives from [Registrable] and has
    that type name. *)
Definition registry_consistent (self : Registry) : Prop :=
  (forall tn, is_Some (_registry self !! tn)
              <-> is_Some (getters self !! ("get_" +:+ tn)))
  /\ (forall attr g,
        getters self !! attr = Some g ->
        exists tn, attr = "get_" +:+ tn
                   /\ cls_type_name (g_type g) = Some tn
                   /\ is_registrable (g_type g) = true).

(** A value that is neither a dict nor an object: [None], a number, a
    string or a list. *)
Definition is_plain (v : value) : bool :=
  match v with
  | VNone | VBool _ | VInt _ | VFloat _ | VStr _ | VList _ => true
  | _ => false
  end.

(** The string holds no dot. *)
Fixpoint no_dot (s : string) : bool :=
  match s with
  | EmptyString => true
  | String c s' => negb (Ascii.eqb c ".") && no_dot s'
  end.

(** The plain constructible that calling [c] ends up invoking, if any: a
    wrapper invokes nothing when it is called. *)
Fixpoint base_fn (c : callable) : option pyfunc :=
  match c with
  | Fn f => Some f
  | Wrapper _ _ => None
  | Partial fn _ _ => base_fn fn
  end.

(** [f] is what some registered constructor invokes. *)
Definition registered_fn (self : Registry) (f : pyfunc) : Prop :=
  exists tn table name c,
    _registry self !! tn = Some table /\ table !! name = Some c
    /\ base_fn c = Some f.

(** From [st] to [st'] the log of invocations was only appended to, with
    invocations of constructibles that satisfy [P]; no dict object
    disappeared and no location was given back. *)
Definition extends (P : pyfunc -> Prop) (st st' : state) : Prop :=
  (exists new, calls st' = calls st ++ new
               /\ Forall (fun i => P (inv_fn i)) new)
  /\ (next_loc st <= next_loc st')%nat
  /\ (forall l : loc, is_Some (heap st !! l) -> is_Some (heap st' !! l)).

(** Every run of [m], whatever its outcome, only extends the state. *)
Definition only_extends {A} (P : pyfunc -> Prop) (m : M A) : Prop :=
  forall st r st', m st = (r, st') -> extends P st st'.

(** ** The registrations of [hive/agents/qnets/__init__.py]

    The class [FunctionApproximator] and three of the four networks are
    defined in files that are not at hand; they are arguments here. *)

(** [registry.register_all(FunctionApproximator, {...})] *)
Definition qnets_register_all (FunctionApproximator : pyclass)
    (MLPNetwork ConvNetwork ConvRNNNetwork NatureAtariDQNModel : pyfunc)
    (registry : Registry) : result Registry :=
  register_all FunctionApproximator
    [("MLPNetwork", Wrapper FunctionApproximator (Fn MLPNetwork));
     ("ConvNetwork", Wrapper FunctionApproximator (Fn ConvNetwork));
     ("ConvRNNNetwork", Wrapper FunctionApproximator (Fn ConvRNNNetwork));
     ("NatureAtariDQNModel",
      Wrapper FunctionApproximator (Fn NatureAtariDQNModel))]
    registry.

(** [get_qnet = getattr(registry, f"get_{FunctionApproximator.type_name()}")],
    reduced to the closure that the attribute holds. *)
Definition get_qnet (FunctionApproximator : pyclass) (registry : Registry)
  : result getter_closure :=
  match cls_type_name FunctionApproximator with
  | None => Raise (ValueError "")
  | Some tn =>
      match getters registry !! ("get_" +:+ tn) with
      | Some g => Ok g
      | None => Raise (AttributeError ("get_" +:+ tn))
      end
  end.

(** ** [ConvRNNNetwork] of [hive/agents/qnets/rnn.py]

    The torch modules are represented by the constructor calls that build
    them; what torch itself checks of their arguments is not modelled. *)

Module Rnn.

(** An argument documented as [list | int]. *)
Inductive int_or_list :=
  | IntArg (n : Z)
  | ListArg (xs : list Z).

Inductive layer :=
  | Conv2d (in_channels out_channels kernel_size stride padding : Z)
  | ReLU.

Inductive module :=
  | Sequential (layers : list layer)
  | Identity
  | LSTM (input_size hidden_size num_layers : Z)
  | GRU (input_size hidden_size num_layers : Z)
  | MLPNetwork (in_dim : Z) (hidden_units : list Z) (noisy : bool)
      (std_init : QArith_base.Q).

Inductive error :=
  | ValueError (msg : string)
  | IndexError
  | UnboundLocalError
  | RuntimeError.

Record ConvRNNNetwork := {
  _rnn_type : string;
  _rnn_hidden_size : Z;
  _num_rnn_layers : Z;
  _normalization_factor : Z;
  conv : module;
  rnn : module;
  mlp : module
}.

(** [x = [x] * len(channels)] when [x] is an [int]. *)
Definition broadcast (x : int_or_list) (n : nat) : list Z :=
  match x with
  | IntArg k => replicate n k
  | ListArg xs => xs
  end.

(** The loop [for i in range(0, len(channels) - 1)], over its indices;
    [None] stands for an index out of range. *)
Fixpoint conv_seq (channels kernel_sizes strides paddings : list Z)
    (indices : list nat) : option (list layer) :=
  match indices with
  | [] => Some []
  | i :: rest =>
      match channels !! i, channels !! S i,
            kernel_sizes !! i, strides !! i, paddings !! i with
      | Some cin, Some cout, Some k, Some s, Some p =>
          match conv_seq channels kernel_sizes strides paddings rest with
          | Some layers => Some (Conv2d cin cout k s p :: ReLU :: layers)
          | None => None
          end
      | _, _, _, _, _ => None
      end
  end.

(** [np.prod] of a shape *)
Definition prod (shape : list Z) : Z := foldr Z.mul 1 shape.

Section init.

(** [hive.agents.qnets.utils.calculate_output_dim] *)
Variable calculate_output_dim : module -> list Z -> list Z.

(** From [# RNN Layers] to the end of [__init__]. *)
Definition init_rnn_mlp (in_dim : list Z) (mlp_layers : option (list Z))
    (normalization_factor : Z) (rnn_type : string)
    (rnn_hidden_size num_rnn_layers : Z) (noisy : bool)
    (std_init : QArith_base.Q) (conv : module) : error + ConvRNNNetwork :=
  let conv_output_size := calculate_output_dim conv in_dim in
  let finish rnn :=
    inr {| _rnn_type := rnn_type;
           _rnn_hidden_size := rnn_hidden_size;
           _num_rnn_layers := num_rnn_layers;
           _normalization_factor := normalization_factor;
           conv := conv;
           rnn := rnn;
           mlp := match mlp_layers with
                  | Some layers =>
                      MLPNetwork rnn_hidden_size layers noisy std_init
                  | None => Identity
                  end |} in
  if decide (rnn_type = "lstm") then
    finish (LSTM (prod conv_output_size) rnn_hidden_size num_rnn_layers)
  else if decide (rnn_type = "gru") then
    finish (GRU (prod conv_output_size) rnn_hidden_size num_rnn_layers)
  else inl (ValueError ("Invalid rnn type: " +:+ rnn_type)).

(** [ConvRNNNetwork.__init__]: the outcome, and the list object that the
    caller passed as [channels] as it is afterwards. *)
Definition init (in_dim : list Z) (channels : option (list Z))
    (mlp_layers : option (list Z)) (kernel_sizes strides paddings : int_or_list)
    (normalization_factor : Z) (rnn_type : string)
    (rnn_hidden_size num_rnn_layers : Z) (noisy : bool)
    (std_init : QArith_base.Q)
  : (error + ConvRNNNetwork) * option (list Z) :=
  match channels with
  | Some cs =>
      let kernel_sizes := broadcast kernel_sizes (length cs) in
      let strides := broadcast strides (length cs) in
      let paddings := broadcast paddings (length cs) in
      if negb (forallb (fun x => Nat.eqb (length x) (length cs))
                 [kernel_sizes; strides; paddings])
      then (inl (ValueError
                   "The lengths of the parameter lists must be the same"),
            Some cs)
      else
        match in_dim !! 0%nat with
        | None => (inl IndexError, Some cs)
        | Some c0 =>
            let cs := c0 :: cs in
            match conv_seq cs kernel_sizes strides paddings
                    (seq 0 (length cs - 1)) with
            | None => (inl IndexError, Some cs)
            | Some conv_seq =>
                (init_rnn_mlp in_dim mlp_layers normalization_factor rnn_type
                   rnn_hidden_size num_rnn_layers noisy std_init
                   (Sequential conv_seq),
                 Some cs)
            end
        end
  | None =>
      (init_rnn_mlp in_dim mlp_layers normalization_factor rnn_type
         rnn_hidden_size num_rnn_layers noisy std_init Identity,
       None)
  end.

End init.

(** A hidden state of zeros, by the shapes of its tensors. *)
Inductive hidden_state :=
  | LSTMState (h c : list Z)
  | GRUState (h : list Z).

(** [torch.zeros(shape, ...)], by its shape: a negative dimension is
    refused with [RuntimeError]. *)
Definition zeros (shape : list Z) : error + list Z :=
  if forallb (fun d => 0 <=? d) shape then inr shape else inl RuntimeError.

(** [ConvRNNNetwork.init_hidden] *)
Definition init_hidden (self : ConvRNNNetwork) (batch_size : Z)
  : error + hidden_state :=
  let shape := [_num_rnn_layers self; batch_size; _rnn_hidden_size self] in
  if decide (_rnn_type self = "lstm") then
    match zeros shape with
    | inr h =>
        match zeros shape with
        | inr c => inr (LSTMState h c)
        | inl e => inl e
        end
    | inl e => inl e
    end
  else if decide (_rnn_type self = "gru") then
    match zeros shape with
    | inr h => inr (GRUState h)
    | inl e => inl e
    end
  else inl UnboundLocalError.

(** The size arguments that are lists all have the length of [channels]. *)
Definition lengths_agree (kernel_sizes strides paddings : int_or_list)
    (n : nat) : Prop :=
  forall xs,
    kernel_sizes = ListArg xs \/ strides = ListArg xs \/ paddings = ListArg xs ->
    length xs = n.

End Rnn.

(** ** [GymEnv] of [hive/envs/gym_env.py]

    The wrapped gym environment is a state of type [Env] with its own
    [reset] and [step] (of the four-value interface); [None] stands for an
    exception raised by it.  The fields [_turn] and [_num_players] are set
    by the base class. *)

Module Gym.

Inductive outcome (A : Type) :=
  | Returns (a : A)
  | EnvRaises
  | ZeroDivisionError.
Arguments Returns {A} a.
Arguments EnvRaises {A}.
Arguments ZeroDivisionError {A}.

Record GymEnv (Env : Type) := {
  _env : Env;
  _turn : Z;
  _num_players : Z
}.
Arguments _env {Env} g.
Arguments _turn {Env} g.
Arguments _num_players {Env} g.

Section env.

Context {Env Obs Act Reward Info : Type}.
Variable env_reset : Env -> option Obs * Env.
Variable env_step : Env -> Act -> option (Obs * Reward * bool * Info) * Env.

(** [GymEnv.reset] *)
Definition reset (self : GymEnv Env) : outcome (Obs * Z) * GymEnv Env :=
  let (r, env') := env_reset (_env self) in
  let self' := {| _env := env'; _turn := _turn self;
                  _num_players := _num_players self |} in
  match r with
  | Some observation => (Returns (observation, _turn self), self')
  | None => (EnvRaises, self')
  end.

(** [GymEnv.step] *)
Definition step (self : GymEnv Env) (action : Act)
  : outcome (Obs * Reward * bool * Z * Info) * GymEnv Env :=
  let (r, env') := env_step (_env self) action in
  let self' := {| _env := env'; _turn := _turn self;
                  _num_players := _num_players self |} in
  match r with
  | Some (observation, reward, done, info) =>
      if decide (_num_players self = 0) then (ZeroDivisionError, self')
      else
        let turn := (_turn self + 1) `mod` _num_players self in
        (Returns (observation, reward, done, turn, info),
         {| _env := env'; _turn := turn;
            _num_players := _num_players self |})
  | None => (EnvRaises, self')
  end.

(** A sequence of [step] calls, one per action, stopped by the first
    exception: the turns that the calls returned. *)
Fixpoint play (self : GymEnv Env) (actions : list Act)
  : outcome (list Z) * GymEnv Env :=
  match actions with
  | [] => (Returns [], self)
  | action :: rest =>
      match step self action with
      | (Returns (_, _, _, turn, _), self') =>
          match play self' rest with
          | (Returns turns, self'') => (Returns (turn :: turns), self'')
          | (EnvRaises, self'') => (EnvRaises, self'')
          | (ZeroDivisionError, self'') => (ZeroDivisionError, self'')
          end
      | (EnvRaises, self') => (EnvRaises, self')
      | (ZeroDivisionError, self') => (ZeroDivisionError, self')
      end
  end.

End env.

End Gym.

(** ** Flags of the override set that name a parameter *)

(** [f"--{prefix}{argument}"], the flag that [get_parsed_args] declares
    for [argument]; [prefix] comes with its dot. *)
Definition flag_of (prefix argument : string) : string :=
  "--" +:+ prefix +:+ argument.

(** The flag [typed] of a pair of the override set names the parameter
    [a] among the parameters [names]: it is the flag of [a], or a
    beginning of that flag, the two dashes included, that is not itself
    the flag of a parameter. *)
Definition names_parameter (prefix : string) (names : list string)
    (typed a : string) : Prop :=
  typed = flag_of prefix a
  \/ (String.prefix "--" typed = true
      /\ String.prefix typed (flag_of prefix a) = true
      /\ forall b, b ∈ names -> typed <> flag_of prefix b).


(** [text] is the value of the last pair of the override set that names
    [a]. *)
Definition last_named (argv : list (string * string)) (prefix : string)
    (names : list string) (a text : string) : Prop :=
  exists before typed after,
    argv = before ++ (typed, text) :: after
    /\ names_parameter prefix names typed a
    /\ forall t v, (t, v) ∈ after -> ~ names_parameter prefix names t a.

(** * Properties *)

Lemma get_prefix_inj (a b : string) : "get_" +:+ a = "get_" +:+ b -> a = b.
Proof. intros H. simpl in H. by inversion H. Qed.

Lemma register_getters_installed name constructor type self self' :
  getters_installed self ->
  register name constructor type self = Ok self' ->
  getters_installed self'.
Proof.
  unfold register, getters_installed. intros Hinv Hreg tn table Hl.
  destruct (is_registrable type); simpl in Hreg; [|done].
  destruct (cls_type_name type) as [tn0|] eqn:Htn; [|done].
  destruct (_registry self !! tn0) as [t0|] eqn:Hold;
    inversion Hreg; subst; clear Hreg; simpl in *.
  - destruct (decide (tn0 = tn)) as [->|Hne].
    + eauto.
    + rewrite lookup_insert_ne in Hl by done. eauto.
  - destruct (decide (tn0 = tn)) as [->|Hne].
    + exists {| g_type := type; g_constructor := constructor |}.
      by rewrite lookup_insert_eq.
    + rewrite lookup_insert_ne in Hl by done.
      rewrite lookup_insert_ne in Hl by done.
      destruct (Hinv _ _ Hl) as (g & Hg & Hgt).
      exists g. split; [|done].
      rewrite lookup_insert_ne; [done|].
      intros Heq. by apply get_prefix_inj in Heq.
Qed.

Lemma populated_getters_installed self :
  populated self -> getters_installed self.
Proof.
  induction 1 as [|name constructor type self self' _ IH Hreg].
  - intros tn table Hl. simpl in Hl. by rewrite lookup_empty in Hl.
  - by eapply register_getters_installed.
Qed.

Lemma register_all_populated base_class class_dict self self' :
  populated self ->
  register_all base_class class_dict self = Ok self' ->
  populated self'.
Proof.
  revert self. induction class_dict as [|[cls constructor] rest IH];
    intros self Hpop Hall; simpl in Hall.
  - by inversion Hall; subst.
  - destruct (register cls constructor base_class self) as [r| |] eqn:Hreg;
      try done.
    eapply IH; [|done]. by eapply populated_register.
Qed.

Lemma sample_registry_populated : populated Sample.registry.
Proof.
  assert (exists r,
    register_all Sample.Optimizer
      [("SGD", Fn Sample.SGD); ("Adam", Fn Sample.Adam)] Registry_init = Ok r
    /\ register_all Sample.Agent
         [("RandomAgent", Fn Sample.RandomAgent);
          ("DQNAgent", Fn Sample.DQNAgent)] r = Ok Sample.registry)
    as (r & H1 & H2).
  { eexists. split; [vm_compute; reflexivity|]. vm_compute. reflexivity. }
  eapply register_all_populated; [|exact H2].
  eapply register_all_populated; [|exact H1].
  constructor.
Qed.

(** ** Running the monad *)

Lemma bind_ok {A B} (m : M A) (k : A -> M B) st a st' :
  m st = (Ok a, st') -> bind m k st = k a st'.
Proof. intros H. unfold bind. by rewrite H. Qed.

Lemma bind_raise {A B} (m : M A) (k : A -> M B) st e st' :
  m st = (Raise e, st') -> bind m k st = (Raise e, st').
Proof. intros H. unfold bind. by rewrite H. Qed.

Lemma bind_out_of_fuel {A B} (m : M A) (k : A -> M B) st st' :
  m st = (OutOfFuel, st') -> bind m k st = (OutOfFuel, st').
Proof. intros H. unfold bind. by rewrite H. Qed.

Lemma bind_Ok_inv {A B} (m : M A) (k : A -> M B) st b st' :
  bind m k st = (Ok b, st') ->
  exists a st1, m st = (Ok a, st1) /\ k a st1 = (Ok b, st').
Proof.
  unfold bind. destruct (m st) as [[a| |] st1]; try done. eauto.
Qed.

Lemma bind_ret {A B} (a : A) (k : A -> M B) st : bind (ret a) k st = k a st.
Proof. done. Qed.

Lemma read_dict_ok l d st :
  heap st !! l = Some d -> read_dict l st = (Ok d, st).
Proof. intros H. unfold read_dict. by rewrite H. Qed.

Lemma getitem_ok l d key v st :
  heap st !! l = Some d -> Dict.get key d = Some v ->
  getitem (VDict l) key st = (Ok v, st).
Proof.
  intros Hl Hk. unfold getitem.
  rewrite (bind_ok _ _ _ _ _ (read_dict_ok _ _ _ Hl)). by rewrite Hk.
Qed.

Lemma contains_ok l d key st :
  heap st !! l = Some d ->
  contains (VDict l) key st = (Ok (Dict.mem key d), st).
Proof.
  intros Hl. unfold contains.
  by rewrite (bind_ok _ _ _ _ _ (read_dict_ok _ _ _ Hl)).
Qed.

Lemma type_name_ok c tn st :
  cls_type_name c = Some tn -> type_name c st = (Ok tn, st).
Proof. intros H. unfold type_name. by rewrite H. Qed.

Section Getter.

Variable py_int : string -> option Z.
Variable py_float : string -> option QArith_base.Q.
Variable yaml_safe_load : string -> option data.
Variable invoke : pyfunc -> list value -> dict -> gmap loc dict -> result value.
Variable argv : list (string * string).
Variable registry : Registry.

Local Abbreviation get_ := (get py_int py_float yaml_safe_load invoke argv registry).
Local Abbreviation getter_ :=
  (getter py_int py_float yaml_safe_load invoke argv registry).
Local Abbreviation call_ := (call invoke).

(** Looking up the getter of a registered family succeeds. *)
Lemma get_unfold fuel tn g object_or_config prefix st :
  getters registry !! ("get_" +:+ tn) = Some g ->
  get_ fuel tn object_or_config prefix st
  = getter_ fuel g object_or_config prefix st.
Proof.
  intros Hg. unfold get, getattribute, bind. by rewrite Hg.
Qed.

(** C7: for every registered family and every prefix, the getter applied
    to [None] returns [None]; nothing is constructed, nothing is raised
    and the store is left as it was. *)
Theorem get_None_is_None fuel tn prefix st :
  populated registry ->
  is_Some (_registry registry !! tn) ->
  get_ (S fuel) tn VNone prefix st = (Ok VNone, st).
Proof.
  intros Hpop [table Htable].
  destruct (populated_getters_installed _ Hpop _ _ Htable) as (g & Hg & _).
  by rewrite (get_unfold _ _ _ _ _ _ Hg).
Qed.

(** The getter hands back an instance of its own class. *)
Lemma getter_instance fuel g x prefix st :
  isinstance x (g_type g) = true ->
  getter_ (S fuel) g x prefix st = (Ok x, st).
Proof.
  intros Hx. simpl. rewrite Hx. by destruct x.
Qed.

(** C6: for every registered family [tn], whose getter was installed for
    the class [g_type g], and every value [x] that is an instance of that
    class, the getter returns [x] itself, whatever the prefix, and leaves
    the store as it was; hence applying the getter to its own result
    gives the same result. *)
Theorem get_instance_identity fuel tn g x prefix prefix' st :
  populated registry ->
  is_Some (_registry registry !! tn) ->
  getters registry !! ("get_" +:+ tn) = Some g ->
  isinstance x (g_type g) = true ->
  get_ (S fuel) tn x prefix st = (Ok x, st)
  /\ (let* y := get_ (S fuel) tn x prefix in get_ (S fuel) tn y prefix') st
     = get_ (S fuel) tn x prefix st.
Proof.
  intros _ _ Hg Hx.
  assert (forall p, get_ (S fuel) tn x p st = (Ok x, st)) as Hid.
  { intros p. rewrite (get_unfold _ _ _ _ _ _ Hg). by apply getter_instance. }
  split; [apply Hid|].
  unfold bind at 1. rewrite (Hid prefix). cbv beta iota. apply Hid.
Qed.

(** C1: for every registered family, a fragment whose [name] is a string
    that is not a key of the family's table makes the getter raise
    [ValueError(f"{name} class not found")], whose text names the variant;
    the store and the list of constructor invocations are unchanged and no
    value is returned. *)
Theorem get_unknown_variant fuel tn table l fragment name kwargs prefix st :
  populated registry ->
  _registry registry !! tn = Some table ->
  heap st !! l = Some fragment ->
  Dict.get "name" fragment = Some (VStr name) ->
  Dict.get "kwargs" fragment = Some kwargs ->
  table !! name = None ->
  get_ (S fuel) tn (VDict l) prefix st = (Raise (ClassNotFound (VStr name)), st)
  /\ exn_message (ClassNotFound (VStr name)) = Some (name +:+ " class not found").
Proof.
  intros Hpop Htable Hl Hname Hkwargs Hmiss.
  destruct (populated_getters_installed _ Hpop _ _ Htable) as (g & Hg & Htn).
  split; [|done].
  rewrite (get_unfold _ _ _ _ _ _ Hg). simpl.
  rewrite (bind_ok _ _ _ _ _ (getitem_ok _ _ _ _ _ Hl Hname)).
  rewrite (bind_ok _ _ _ _ _ (getitem_ok _ _ _ _ _ Hl Hkwargs)).
  rewrite (bind_ok _ _ _ _ _ (type_name_ok _ _ _ Htn)).
  rewrite Htable, bind_ret. simpl. rewrite bind_ret. by rewrite Hmiss.
Qed.

(** C5, amended: the wrapper reports the type name "callable" and the
    signature of what it wraps, but it is not called as the wrapped thing
    is.  Every call of the wrapper, with some or with all of the arguments,
    invokes nothing and returns the invocable that holds these arguments.
    The wrapped constructible runs only when that invocable is called in
    its turn: then it is invoked once, on the held positional arguments
    followed by the new ones and the held keywords updated by the new
    ones, and what it returns is the result.  So the call of the wrapper
    never equals the call of the wrapped constructible on the same
    arguments. *)
Theorem CallableType_partial_application cls fn f args kwargs args' kwargs' st :
  cls_type_name CallableType = Some "callable"
  /\ signature (Wrapper cls fn) = signature fn
  /\ call invoke (Wrapper cls fn) args kwargs st
     = (Ok (VCallable (Partial fn args kwargs)), st)
  /\ (let run := call invoke (Partial (Fn f) args kwargs) args' kwargs' st in
      run.1 = invoke f (args ++ args') (Dict.update kwargs kwargs') (heap st)
      /\ calls run.2
         = calls st
           ++ [Invocation f (args ++ args') (Dict.update kwargs kwargs')]
      /\ heap run.2 = heap st)
  /\ (let* p := call invoke (Wrapper cls (Fn f)) args kwargs in
      match p with
      | VCallable further => call invoke further args' kwargs'
      | _ => raise (TypeError "object is not callable")
      end) st
     = call invoke (Partial (Fn f) args kwargs) args' kwargs' st
  /\ call invoke (Wrapper cls (Fn f)) args kwargs st
     <> call invoke (Fn f) args kwargs st.
Proof.
  do 5 (split; [done|]).
  intros Heq. simpl in Heq. injection Heq as _ Hst.
  apply (f_equal (fun s => length (calls s))) in Hst. simpl in Hst.
  rewrite length_app in Hst. simpl in Hst. lia.
Qed.

End Getter.

(** [get_qnet] on a fragment for [ConvRNNNetwork] with the override
    [--qnet.rnn_hidden_size 12]: the result is the network constructor with
    the merged keywords held, waiting for [in_dim]; no constructor ran. *)
Example get_qnet_returns_partial :
  get Sample.py_int Sample.py_float Sample.yaml_safe_load Sample.invoke
    [("--qnet.rnn_hidden_size", "12")] Sample.qnet_registry 1
    "function_approximator" (VDict 0%nat) (Some "qnet") Sample.qnet_state
  = (Ok (VCallable
           (Partial (Fn Sample.ConvRNNNetwork) []
              [("rnn_type", VStr "gru"); ("rnn_hidden_size", VInt 12)])),
     {| heap := <[1%nat := [("rnn_type", VStr "gru");
                            ("rnn_hidden_size", VInt 12)]]>
                  (heap Sample.qnet_state);
        next_loc := 2%nat; calls := [] |}).
Proof. vm_compute. reflexivity. Qed.

Lemma get_None_is_None_witness :
  get Sample.py_int Sample.py_float Sample.yaml_safe_load Sample.invoke
    [("--agent.gamma", "3.5")] Sample.registry 1 "agent" VNone (Some "agent")
    Sample.config_state
  = (Ok VNone, Sample.config_state).
Proof.
  apply get_None_is_None.
  - exact sample_registry_populated.
  - vm_compute. eauto.
Defined.

Lemma get_instance_identity_witness :
  let x := VInstance (PyClass "SGD" ["SGD"; "Optimizer"; "Registrable"; "object"]
                        (Some "optimizer")) 7 in
  let get_optimizer :=
    get Sample.py_int Sample.py_float Sample.yaml_safe_load Sample.invoke
      [("--opt.lr", "2")] Sample.registry 1 "optimizer" in
  get_optimizer x (Some "opt") Sample.config_state = (Ok x, Sample.config_state)
  /\ (let* y := get_optimizer x (Some "opt") in get_optimizer y None)
       Sample.config_state
     = get_optimizer x (Some "opt") Sample.config_state.
Proof.
  intros x get_optimizer.
  apply (get_instance_identity Sample.py_int Sample.py_float
           Sample.yaml_safe_load Sample.invoke [("--opt.lr", "2")]
           Sample.registry 0 "optimizer"
           {| g_type := Sample.Optimizer; g_constructor := Fn Sample.SGD |}).
  - exact sample_registry_populated.
  - vm_compute. eauto.
  - vm_compute. reflexivity.
  - vm_compute. reflexivity.
Defined.

Lemma get_unknown_variant_witness :
  get Sample.py_int Sample.py_float Sample.yaml_safe_load Sample.invoke
    [] Sample.registry 1 "agent" (VDict 0%nat) None Sample.unknown_state
  = (Raise (ClassNotFound (VStr "does_not_exist")), Sample.unknown_state)
  /\ exn_message (ClassNotFound (VStr "does_not_exist"))
     = Some "does_not_exist class not found".
Proof.
  eapply (get_unknown_variant Sample.py_int Sample.py_float
            Sample.yaml_safe_load Sample.invoke [] Sample.registry 0 "agent"
            _ 0%nat _ "does_not_exist" (VDict 1%nat)).
  - exact sample_registry_populated.
  - vm_compute. reflexivity.
  - vm_compute. reflexivity.
  - vm_compute. reflexivity.
  - vm_compute. reflexivity.
  - vm_compute. reflexivity.
Defined.

(** ** Coercion of override values *)

Lemma dict_get_set_eq {V} k (v : V) d : Dict.get k (Dict.set k v d) = Some v.
Proof.
  induction d as [|[k' v'] d IH]; simpl.
  - by rewrite decide_True.
  - destruct (decide (k' = k)) as [->|Hne]; simpl.
    + by rewrite decide_True.
    + by rewrite decide_False.
Qed.

Lemma dict_get_set_ne {V} k k' (v : V) d :
  k <> k' -> Dict.get k' (Dict.set k v d) = Dict.get k' d.
Proof.
  intros Hne. induction d as [|[k0 v0] d IH]; simpl.
  - by rewrite decide_False.
  - destruct (decide (k0 = k)) as [->|Hne0]; simpl.
    + by rewrite !decide_False.
    + destruct (decide (k0 = k')); [done|apply IH].
Qed.

(** Every entry that [get_callable_parsed_args] hands to [get_parsed_args]
    is an [inspect.Parameter], so the membership test of the primitive
    types fails for all of them. *)
Lemma parameter_arguments_not_primitive signature argument expected_type :
  Dict.get argument (parameter_arguments signature) = Some expected_type ->
  in_primitives expected_type = false.
Proof.
  unfold parameter_arguments.
  assert (forall acc : list (string * expected),
    (forall a e, Dict.get a acc = Some e -> in_primitives e = false) ->
    forall a e,
      Dict.get a
        (fold_left
           (fun acc p =>
              if decide (p_name p = "self") then acc
              else Dict.set (p_name p) (ParameterObject p) acc)
           signature acc) = Some e ->
      in_primitives e = false) as Hgen.
  { induction signature as [|p rest IH]; intros acc Hacc a e; simpl.
    - apply Hacc.
    - apply IH. intros a' e'. destruct (decide (p_name p = "self")).
      + apply Hacc.
      + destruct (decide (p_name p = a')) as [<-|Hne].
        * rewrite dict_get_set_eq. by intros [= <-].
        * rewrite dict_get_set_ne by done. apply Hacc. }
  apply Hgen. intros a e. by simpl.
Qed.

(** C4 (the code departs from the claim): [tag] is declared [str] by the
    constructor [SGD]; with the flag [--optimizer.tag 12] supplied, the
    override derived for the constructor is the integer 12, which is what
    the structured-literal parser returns, while the same flag read through
    a mapping from names to types gives the string "12".  For [lr],
    declared [float], the flag value "3.5" gives the number 3.5 on both
    paths. *)
Theorem get_callable_parsed_args_ignores_primitive_types :
  let argv := [("--optimizer.tag", "12"); ("--optimizer.lr", "3.5")] in
  get_callable_parsed_args Sample.py_int Sample.py_float Sample.yaml_safe_load
    argv (Fn Sample.SGD) (Some "optimizer") Sample.config_state
  = (Ok [("lr", VFloat (QArith_base.Qmake 7 2)); ("tag", VInt 12)],
     Sample.config_state)
  /\ get_parsed_args Sample.py_int Sample.py_float Sample.yaml_safe_load
       argv [("lr", TypeObject Ann_float); ("tag", TypeObject Ann_str)]
       (Some "optimizer") Sample.config_state
     = (Ok [("lr", VFloat (QArith_base.Qmake 7 2)); ("tag", VStr "12")],
        Sample.config_state).
Proof. split; vm_compute; reflexivity. Qed.

(** C2 (the code departs from the claim): in the family [agent] the
    variant [RandomAgent] was registered first and [DQNAgent], whose
    parameter [optimizer] is declared of the family [optimizer], second.
    Resolving a [DQNAgent] fragment whose [optimizer] is a nested fragment
    invokes [DQNAgent] with that nested fragment as it stands: the engine
    walked the parameters of [RandomAgent], no optimizer was constructed.
    With the two variants registered in the other order the same fragment
    has its optimizer constructed first. *)
Theorem getter_walks_first_registered_signature :
  let run registry :=
    get Sample.py_int Sample.py_float Sample.yaml_safe_load Sample.invoke []
      registry 3 "agent" (VDict 0%nat) (Some "agent") Sample.config_state in
  getters Sample.registry !! "get_agent"
  = Some {| g_type := Sample.Agent; g_constructor := Fn Sample.RandomAgent |}
  /\ (exists object, (run Sample.registry).1 = Ok object)
  /\ calls (run Sample.registry).2
     = [Invocation Sample.DQNAgent []
          [("optimizer", VDict 2%nat); ("gamma", VInt 1)]]
  /\ heap (run Sample.registry).2 = Sample.config_heap
  /\ exists optimizer,
       calls (run Sample.dqn_registry).2
       = [Invocation Sample.SGD [] [("lr", VInt 1)];
          Invocation Sample.DQNAgent []
            [("optimizer", optimizer); ("gamma", VInt 1)]]
       /\ isinstance optimizer (PyClass "SGD" ["SGD"; "object"] None) = true.
Proof. vm_compute. repeat split; eauto. Qed.

(** ** Scoping of override flags *)

Lemma prefix_refl (s : string) : String.prefix s s = true.
Proof.
  induction s as [|c s IH]; simpl; [done|].
  by destruct (ascii_dec c c).
Qed.

Lemma add_arguments_entries prefix names parser parser' :
  add_arguments prefix names parser = Ok parser' ->
  parser' = parser ++
    map (fun argument =>
           ("--" +:+ prefix +:+ argument,
            StoreAction (replace_dash (lstrip_dash ("--" +:+ prefix +:+ argument)))))
        names.
Proof.
  revert parser. induction names as [|argument rest IH]; intros parser; simpl.
  - intros [= <-]. by rewrite app_nil_r.
  - unfold add_argument.
    destruct (decide _); [done|].
    destruct (Dict.mem _ parser); [done|].
    intros Hrest. apply IH in Hrest. rewrite Hrest.
    by rewrite <- app_assoc.
Qed.

Lemma dict_get_None_not_key {V} k (d : list (string * V)) :
  (forall k' v, (k', v) ∈ d -> k' <> k) -> Dict.get k d = None.
Proof.
  induction d as [|[k0 v0] d IH]; intros Hd; simpl; [done|].
  rewrite decide_False.
  - apply IH. intros k' v Hin. apply (Hd k' v). by right.
  - apply (Hd k0 v0). by left.
Qed.

Lemma filter_none {A} (P : A -> Prop) `{forall x, Decision (P x)} (l : list A) :
  (forall x, x ∈ l -> ~ P x) -> filter P l = [].
Proof.
  induction l as [|x l IH]; intros Hl; [done|].
  rewrite filter_cons_False.
  - apply IH. intros y Hy. apply Hl. by right.
  - apply Hl. by left.
Qed.

(** A typed flag that is a prefix of no option string of the parser is
    not recognised. *)
Lemma resolve_flag_unknown parser typed :
  (forall o act, (o, act) ∈ parser -> String.prefix typed o = false) ->
  resolve_flag parser typed = Unknown.
Proof.
  intros Hno. unfold resolve_flag.
  rewrite dict_get_None_not_key.
  - destruct (String.prefix "--" typed); [|done].
    rewrite filter_none; [done|].
    intros [o act] Hin. simpl. rewrite (Hno o act Hin). by intros [].
  - intros o act Hin ->. specialize (Hno _ _ Hin).
    by rewrite prefix_refl in Hno.
Qed.

Lemma parse_args_skip parser argv1 typed text argv2 ns :
  resolve_flag parser typed = Unknown ->
  parse_args parser (argv1 ++ (typed, text) :: argv2) ns
  = parse_args parser (argv1 ++ argv2) ns.
Proof.
  intros Hunk. revert ns.
  induction argv1 as [|[t v] rest IH]; intros ns; simpl.
  - by rewrite Hunk.
  - destruct (resolve_flag parser t) as [[dest|]| |]; auto.
Qed.

Lemma prefix_b_inv q :
  String.prefix "b" q = true -> exists q', q = String "b" q'.
Proof.
  destruct q as [|c q]; [done|].
  destruct c as [[] [] [] [] [] [] [] []]; try done. eauto.
Qed.

(** A parser built for a prefix that begins with "b" does not recognise a
    flag scoped by "a.sub". *)
Lemma b_parser_ignores_a_sub q names parser x :
  String.prefix "b" q = true ->
  add_arguments (q +:+ ".") names ArgumentParser = Ok parser ->
  resolve_flag parser ("--a.sub." +:+ x) = Unknown.
Proof.
  intros Hq Hp. apply add_arguments_entries in Hp. subst parser.
  apply prefix_b_inv in Hq as [q' ->].
  apply resolve_flag_unknown. intros o act Hin.
  apply elem_of_app in Hin as [Hin|Hin].
  - unfold ArgumentParser in Hin.
    apply elem_of_cons in Hin as [[= -> ->]|Hin]; [done|].
    apply elem_of_cons in Hin as [[= -> ->]|Hin]; [done|].
    by apply elem_of_nil in Hin.
  - apply list_elem_of_fmap in Hin as (argument & [= -> ->] & _). done.
Qed.

Lemma bind_ext {A B} (m1 m2 : M A) (k1 k2 : A -> M B) st :
  m1 st = m2 st -> (forall a st', k1 a st' = k2 a st') ->
  bind m1 k1 st = bind m2 k2 st.
Proof.
  intros Hm Hk. unfold bind. rewrite Hm.
  destruct (m2 st) as [[a| |] st']; [apply Hk|done|done].
Qed.

Lemma prefix_b_nested q argument :
  String.prefix "b" q = true ->
  String.prefix "b" (prefix_dot (Some q) +:+ argument) = true.
Proof.
  intros [q' ->]%prefix_b_inv.
  change (prefix_dot (Some (String "b" q')) +:+ argument)
    with (String "b" ((q' +:+ ".") +:+ argument)).
  by destruct ((q' +:+ ".") +:+ argument).
Qed.

(** The engine only asks the getters for prefixes below its own. *)
Lemma construct_loop_ext registry run1 run2 parameters config prefix st :
  (forall g v argument st',
     run1 g v (Some (prefix +:+ argument)) st'
     = run2 g v (Some (prefix +:+ argument)) st') ->
  construct_loop registry run1 parameters config prefix st
  = construct_loop registry run2 parameters config prefix st.
Proof.
  intros Hrun. revert st.
  induction parameters as [|p rest IH]; intros st; simpl; [done|].
  apply bind_ext; [done|]. intros present st1.
  destruct present; simpl; [|apply IH].
  destruct (registrable_annotation (p_annotation p)) as [c|]; [|apply IH].
  apply bind_ext; [done|]. intros tn st2. unfold getattribute.
  destruct (getters registry !! ("get_" +:+ tn)) as [g|]; [|done].
  rewrite !bind_ret.
  apply bind_ext; [done|]. intros current st3.
  apply bind_ext; [apply Hrun|]. intros object st4.
  apply bind_ext; [done|]. intros _ st5. apply IH.
Qed.

Section Scoping.

Variable py_int : string -> option Z.
Variable py_float : string -> option QArith_base.Q.
Variable yaml_safe_load : string -> option data.
Variable argv1 argv2 : list (string * string).
Variable x text : string.

Lemma get_parsed_args_skips_a_sub q arguments st :
  String.prefix "b" q = true ->
  get_parsed_args py_int py_float yaml_safe_load
    (argv1 ++ ("--a.sub." +:+ x, text) :: argv2) arguments (Some q) st
  = get_parsed_args py_int py_float yaml_safe_load
      (argv1 ++ argv2) arguments (Some q) st.
Proof.
  intros Hq. unfold get_parsed_args.
  change (prefix_dot (Some q)) with (q +:+ "."). unfold bind, lift.
  destruct (add_arguments (q +:+ ".") (Dict.keys arguments) ArgumentParser)
    as [parser| |] eqn:Hparser; [|done..].
  unfold parse_known_args.
  by rewrite (parse_args_skip _ _ _ _ _ _
                (b_parser_ignores_a_sub _ _ _ x Hq Hparser)).
Qed.

Lemma getter_skips_a_sub invoke registry fuel :
  forall g v q st,
    String.prefix "b" q = true ->
    getter py_int py_float yaml_safe_load invoke
      (argv1 ++ ("--a.sub." +:+ x, text) :: argv2) registry fuel g v (Some q) st
    = getter py_int py_float yaml_safe_load invoke
        (argv1 ++ argv2) registry fuel g v (Some q) st.
Proof.
  induction fuel as [|fuel IH]; intros g v q st Hq; [done|]. simpl.
  destruct v; try done;
    (destruct (isinstance _ (g_type g)); [done|]);
    repeat (apply bind_ext; [done|]; intros ? ?).
  match goal with |- context [match ?found with Some _ => _ | None => _ end] =>
    destruct found as [object_class|]; [|done] end.
  apply bind_ext.
  { unfold get_callable_parsed_args. by apply get_parsed_args_skips_a_sub. }
  intros parsed_args sa. apply bind_ext; [done|]. intros _ sb.
  apply bind_ext; [|done]. unfold construct_objects.
  apply bind_ext; [|done]. apply construct_loop_ext.
  intros g' v' argument sc. apply IH. by apply prefix_b_nested.
Qed.

(** C9: whether or not a flag [--a.sub.x] occurs in the process-wide
    override set, for every parameter name [x], every flag value and every
    position of the flag among the others: the overrides derived for the
    prefix "b.sub" are the same, for every mapping of arguments and every
    constructor (also one that declares [x]); and so is the whole
    resolution performed by a getter with the prefix "b.sub", its result
    and its effect on the store. *)
Theorem sibling_prefix_noninterference :
  let with_flag := argv1 ++ ("--a.sub." +:+ x, text) :: argv2 in
  let without := argv1 ++ argv2 in
  (forall arguments st,
     get_parsed_args py_int py_float yaml_safe_load with_flag
       arguments (Some "b.sub") st
     = get_parsed_args py_int py_float yaml_safe_load without
         arguments (Some "b.sub") st)
  /\ (forall callable st,
        get_callable_parsed_args py_int py_float yaml_safe_load with_flag
          callable (Some "b.sub") st
        = get_callable_parsed_args py_int py_float yaml_safe_load without
            callable (Some "b.sub") st)
  /\ (forall invoke registry fuel g object_or_config st,
        getter py_int py_float yaml_safe_load invoke with_flag registry
          fuel g object_or_config (Some "b.sub") st
        = getter py_int py_float yaml_safe_load invoke without registry
            fuel g object_or_config (Some "b.sub") st).
Proof.
  intros with_flag without. split; [|split].
  - intros arguments st. by apply get_parsed_args_skips_a_sub.
  - intros callable st. unfold get_callable_parsed_args.
    by apply get_parsed_args_skips_a_sub.
  - intros invoke registry fuel g v st. by apply getter_skips_a_sub.
Qed.

End Scoping.

(** ** The mapping of overrides holds the supplied parameters only *)

Lemma dict_set_elem {V} k (v : V) d k' v' :
  (k', v') ∈ Dict.set k v d -> (k', v') = (k, v) \/ (k', v') ∈ d.
Proof.
  induction d as [|[k0 v0] d IH]; simpl.
  - intros Hin. apply list_elem_of_singleton in Hin. by left.
  - destruct (decide (k0 = k)) as [->|Hne]; intros Hin.
    + apply elem_of_cons in Hin as [->|Hin]; [by left|].
      right. by right.
    + apply elem_of_cons in Hin as [->|Hin]; [right; by left|].
      destruct (IH Hin) as [?|?]; [by left|right; by right].
Qed.

Lemma dict_get_elem {V} k (v : V) d : Dict.get k d = Some v -> (k, v) ∈ d.
Proof.
  induction d as [|[k0 v0] d IH]; simpl; [done|].
  destruct (decide (k0 = k)) as [->|Hne].
  - intros [= ->]. by left.
  - intros H. right. by apply IH.
Qed.

Lemma dict_keys_get {V} k (d : list (string * V)) :
  k ∈ Dict.keys d <-> is_Some (Dict.get k d).
Proof.
  unfold Dict.keys. induction d as [|[k0 v0] d IH]; simpl.
  - split; [by intros ?%elem_of_nil|by intros [? ?]].
  - destruct (decide (k0 = k)) as [->|Hne].
    + split; [eauto|intros _; by left].
    + rewrite elem_of_cons, IH. split; [|by right].
      intros [Heq|H]; [by subst|done].
Qed.

Lemma dict_keys_set {V} k (v : V) d k' :
  k' ∈ Dict.keys (Dict.set k v d) <-> k' = k \/ k' ∈ Dict.keys d.
Proof.
  rewrite !dict_keys_get. destruct (decide (k = k')) as [->|Hne].
  - rewrite dict_get_set_eq. split; [by left|eauto].
  - rewrite dict_get_set_ne by done. split; [by right|].
    intros [Heq|H]; [by subst|done].
Qed.

Lemma no_dash_app s1 s2 :
  no_dash (s1 +:+ s2) = no_dash s1 && no_dash s2.
Proof.
  induction s1 as [|c s1 IH]; simpl; [done|].
  rewrite IH. by rewrite andb_assoc.
Qed.

Lemma lstrip_dash_no_dash s : no_dash s = true -> lstrip_dash s = s.
Proof.
  destruct s as [|c s]; [done|]. simpl.
  intros [Hc _]%andb_true_iff. apply negb_true_iff in Hc.
  destruct c as [[] [] [] [] [] [] [] []]; try done.
Qed.

Lemma replace_dash_no_dash s : no_dash s = true -> replace_dash s = s.
Proof.
  induction s as [|c s IH]; [done|]. simpl.
  intros [Hc Hs]%andb_true_iff. apply negb_true_iff in Hc.
  by rewrite Hc, IH.
Qed.

Lemma strip_prefix_app prefix argument :
  strip_prefix prefix (prefix +:+ argument) = argument.
Proof.
  unfold strip_prefix.
  assert (String.prefix prefix (prefix +:+ argument) = true) as ->.
  { induction prefix as [|c p IH]; simpl.
    - by destruct argument.
    - by destruct (ascii_dec c c). }
  induction prefix as [|c p IH]; simpl.
  - rewrite Nat.sub_0_r. clear.
    induction argument as [|c a IH]; simpl; [done|].
    destruct a; simpl in *; by rewrite ?IH.
  - apply IH.
Qed.

Lemma resolve_flag_in_parser parser typed act :
  resolve_flag parser typed = Resolved act -> exists o, (o, act) ∈ parser.
Proof.
  unfold resolve_flag.
  destruct (Dict.get typed parser) as [a|] eqn:Hget.
  - intros [= ->]. exists typed. by apply dict_get_elem.
  - destruct (String.prefix "--" typed); [|done].
    destruct (filter _ parser) as [|[o a] [|? ?]] eqn:Hf; try done.
    intros [= <-]. exists o.
    assert ((o, a) ∈ filter (fun oa : string * action =>
                               Is_true (String.prefix typed oa.1)) parser)
      as Hin by (rewrite Hf; by left).
    by apply list_elem_of_filter in Hin as [_ Hin].
Qed.

Lemma default_namespace_all_None parser dest v :
  (dest, v) ∈ default_namespace parser -> v = None.
Proof.
  unfold default_namespace.
  assert (forall acc : list (string * option string),
    (forall d w, (d, w) ∈ acc -> w = None) ->
    forall d w,
      (d, w) ∈ fold_left
        (fun ns (oa : string * action) =>
           match oa.2 with
           | StoreAction dest =>
               if Dict.mem dest ns then ns else ns ++ [(dest, None)]
           | HelpAction => ns
           end) parser acc -> w = None) as Hgen.
  { induction parser as [|[o act] rest IH]; intros acc Hacc d w; simpl.
    - apply Hacc.
    - apply IH. destruct act as [dest'|]; [|done].
      destruct (Dict.mem dest' acc); [done|].
      intros d' w' [Hin|Hin]%elem_of_app; [by eapply Hacc|].
      apply list_elem_of_singleton in Hin. by inversion Hin. }
  apply Hgen. by intros d w ?%elem_of_nil.
Qed.

(** What the parser stores came from a pair of the override set. *)
Lemma parse_args_entries parser argv ns ns' dest text :
  parse_args parser argv ns = Ok ns' ->
  (dest, Some text) ∈ ns' ->
  (dest, Some text) ∈ ns
  \/ exists typed, (typed, text) ∈ argv
       /\ resolve_flag parser typed = Resolved (StoreAction dest).
Proof.
  revert ns. induction argv as [|[typed t] rest IH]; intros ns; simpl.
  - intros [= ->]. by left.
  - destruct (resolve_flag parser typed) as [[d|]| |] eqn:Hres; try done.
    + intros Hp Hin. destruct (IH _ Hp Hin) as [Hset|(ty & Hty & Hr)].
      * apply dict_set_elem in Hset as [[= -> ->]|Hold]; [|by left].
        right. exists typed. split; [by left|done].
      * right. exists ty. split; [by right|done].
    + intros Hp Hin. destruct (IH _ Hp Hin) as [?|(ty & Hty & Hr)]; [by left|].
      right. exists ty. split; [by right|done].
Qed.

(** The namespace after parsing, destination by destination. *)
Lemma parse_args_get parser argv ns ns' dest :
  parse_args parser argv ns = Ok ns' ->
  Dict.get dest ns'
  = match last_supplied parser argv dest with
    | Some t => Some (Some t)
    | None => Dict.get dest ns
    end.
Proof.
  revert ns. induction argv as [|[typed t] rest IH]; intros ns; simpl.
  - by intros [= ->].
  - destruct (resolve_flag parser typed) as [[d|]| |] eqn:Hres; try done.
    + intros Hp. rewrite (IH _ Hp).
      destruct (last_supplied parser rest dest); [done|].
      destruct (decide (d = dest)) as [->|Hne].
      * by rewrite dict_get_set_eq.
      * by rewrite dict_get_set_ne.
    + intros Hp. rewrite (IH _ Hp).
      by destruct (last_supplied parser rest dest).
Qed.

Lemma supplied_last_supplied parser argv dest :
  supplied parser argv dest <-> is_Some (last_supplied parser argv dest).
Proof.
  unfold supplied. induction argv as [|[typed t] rest IH]; simpl.
  - split; [intros (? & ? & ?%elem_of_nil & _); done|by intros [? ?]].
  - split.
    + intros (ty & tx & Hin & Hres).
      destruct (last_supplied parser rest dest) as [t'|] eqn:Hlast; [eauto|].
      apply elem_of_cons in Hin as [[= -> ->]|Hin].
      * rewrite Hres. rewrite decide_True by done. eauto.
      * assert (is_Some (@None string)) as [? ?]; [|done].
        apply IH. eauto.
    + destruct (last_supplied parser rest dest) as [t'|] eqn:Hlast.
      * intros _. destruct IH as [_ IH].
        destruct (IH (ltac:(eauto))) as (ty & tx & Hin & Hres).
        exists ty, tx. split; [by right|done].
      * destruct (resolve_flag parser typed) as [[d|]| |] eqn:Hres;
          try (by intros [? ?]).
        destruct (decide (d = dest)) as [->|Hne]; [|by intros [? ?]].
        intros _. exists typed, t. split; [by left|done].
Qed.

(** The entries that the comprehension keeps. *)
Lemma strip_and_filter_entries prefix ns a text :
  (a, text) ∈ strip_and_filter prefix ns ->
  exists dest, (dest, Some text) ∈ ns /\ strip_prefix prefix dest = a.
Proof.
  unfold strip_and_filter.
  assert (forall acc : list (string * string),
    (a, text) ∈ fold_left
      (fun acc (kv : string * option string) =>
         match kv.2 with
         | Some text => Dict.set (strip_prefix prefix kv.1) text acc
         | None => acc
         end) ns acc ->
    (a, text) ∈ acc
    \/ exists dest, (dest, Some text) ∈ ns /\ strip_prefix prefix dest = a)
    as Hgen.
  { induction ns as [|[d [t|]] rest IH]; intros acc; simpl.
    - by left.
    - intros Hin. destruct (IH _ Hin) as [Hset|(dest & Hd & Hs)].
      + apply dict_set_elem in Hset as [[= -> ->]|Hold]; [|by left].
        right. exists d. split; [by left|done].
      + right. exists dest. split; [by right|done].
    - intros Hin. destruct (IH _ Hin) as [?|(dest & Hd & Hs)]; [by left|].
      right. exists dest. split; [by right|done]. }
  intros Hin. destruct (Hgen _ Hin) as [?%elem_of_nil|?]; done.
Qed.

Lemma strip_and_filter_keys prefix ns dest text :
  (dest, Some text) ∈ ns ->
  strip_prefix prefix dest ∈ Dict.keys (strip_and_filter prefix ns).
Proof.
  unfold strip_and_filter.
  assert (forall acc : list (string * string),
    (strip_prefix prefix dest ∈ Dict.keys acc \/ (dest, Some text) ∈ ns) ->
    strip_prefix prefix dest ∈ Dict.keys (fold_left
      (fun acc (kv : string * option string) =>
         match kv.2 with
         | Some text => Dict.set (strip_prefix prefix kv.1) text acc
         | None => acc
         end) ns acc)) as Hgen.
  { induction ns as [|[d [t|]] rest IH]; intros acc; simpl.
    - intros [?|?%elem_of_nil]; done.
    - intros [Hacc|Hin]; apply IH.
      + left. apply dict_keys_set. by right.
      + apply elem_of_cons in Hin as [[= -> ->]|Hin]; [|by right].
        left. apply dict_keys_set. by left.
    - intros [Hacc|Hin]; apply IH; [by left|].
      apply elem_of_cons in Hin as [[=]|Hin]. by right. }
  intros Hin. apply Hgen. by right.
Qed.

(** Induction over loaded data, with the nested lists. *)
Lemma data_nested_ind (P : data -> Prop) :
  P DNone ->
  (forall b, P (DBool b)) ->
  (forall n, P (DInt n)) ->
  (forall q, P (DFloat q)) ->
  (forall s, P (DStr s)) ->
  (forall ds, Forall P ds -> P (DList ds)) ->
  (forall kvs, Forall (fun kv => P kv.2) kvs -> P (DDict kvs)) ->
  forall d, P d.
Proof.
  intros HNone HBool HInt HFloat HStr HList HDict.
  fix IH 1. intros [ |b|n|q|s|ds|kvs].
  - exact HNone.
  - apply HBool.
  - apply HInt.
  - apply HFloat.
  - apply HStr.
  - apply HList.
    exact ((fix go (ds : list data) : Forall P ds :=
              match ds with
              | [] => Forall_nil_2 P
              | x :: xs => Forall_cons_2 P x xs (IH x) (go xs)
              end) ds).
  - apply HDict.
    exact ((fix go (kvs : list (string * data))
              : Forall (fun kv => P kv.2) kvs :=
              match kvs with
              | [] => Forall_nil_2 _
              | kv :: rest => Forall_cons_2 _ kv rest (IH kv.2) (go rest)
              end) kvs).
Qed.

Section Loading.

Variable py_int : string -> option Z.
Variable py_float : string -> option QArith_base.Q.
Variable yaml_safe_load : string -> option data.

Local Abbreviation coerce_ := (coerce py_int py_float yaml_safe_load).
Local Abbreviation coerce_all_ := (coerce_all py_int py_float yaml_safe_load).



Lemma coerce_all_keys arguments parsed_args st result st' :
  coerce_all_ arguments parsed_args st = (Ok result, st') ->
  Dict.keys result = Dict.keys parsed_args.
Proof.
  revert st result st'.
  induction parsed_args as [|[a text] rest IH]; intros st result st'; simpl.
  - by intros [= <- _].
  - destruct (Dict.get a arguments) as [e|]; [|done].
    unfold bind at 1.
    destruct (coerce_ e text st) as [[v| |] st1]; try done.
    unfold bind at 1.
    destruct (coerce_all_ arguments rest st1) as [[r| |] st2] eqn:Hrest;
      try done.
    intros [= <- _]. apply IH in Hrest.
    change (a :: Dict.keys r = a :: Dict.keys rest). by rewrite Hrest.
Qed.



End Loading.

Lemma parameter_arguments_keys signature a :
  a ∈ Dict.keys (parameter_arguments signature)
  <-> a <> "self" /\ a ∈ p_name <$> signature.
Proof.
  unfold parameter_arguments.
  assert (forall acc : list (string * expected),
    a ∈ Dict.keys (fold_left
      (fun acc p =>
         if decide (p_name p = "self") then acc
         else Dict.set (p_name p) (ParameterObject p) acc) signature acc)
    <-> a ∈ Dict.keys acc \/ (a <> "self" /\ a ∈ p_name <$> signature))
    as Hgen.
  { induction signature as [|p rest IH]; intros acc; simpl.
    - split; [by left|]. intros [?|[_ ?%elem_of_nil]]; done.
    - rewrite IH. rewrite elem_of_cons.
      destruct (decide (p_name p = "self")) as [Hself|Hself].
      + split; [intros [?|[? ?]]; eauto|].
        intros [?|[Hne [->|?]]]; eauto. done.
      + rewrite dict_keys_set. split.
        * intros [[->|?]|[? ?]]; eauto.
        * intros [?|[Hne [->|?]]]; eauto. }
  rewrite Hgen. split; [|eauto].
  intros [?%elem_of_nil|?]; done.
Qed.

Lemma dest_of_flag prefix argument :
  no_dash prefix = true -> no_dash argument = true ->
  replace_dash (lstrip_dash ("--" +:+ prefix +:+ argument))
  = prefix +:+ argument.
Proof.
  intros Hp Ha.
  assert (no_dash (prefix +:+ argument) = true) as Hpa
    by (rewrite no_dash_app, Hp, Ha; done).
  change (lstrip_dash ("--" +:+ prefix +:+ argument))
    with (lstrip_dash (prefix +:+ argument)).
  by rewrite lstrip_dash_no_dash, replace_dash_no_dash.
Qed.

Lemma dict_set_NoDup {V} k (v : V) d :
  NoDup (Dict.keys d) -> NoDup (Dict.keys (Dict.set k v d)).
Proof.
  induction d as [|[k0 v0] d IH]; simpl.
  - intros _. apply NoDup_singleton.
  - intros [Hk0 Hd]%NoDup_cons.
    destruct (decide (k0 = k)) as [->|Hne].
    + by apply NoDup_cons.
    + change (NoDup (k0 :: Dict.keys (Dict.set k v d))).
      apply NoDup_cons. split; [|by apply IH].
      intros [->|Hin]%dict_keys_set; done.
Qed.

Lemma strip_and_filter_NoDup prefix ns :
  NoDup (Dict.keys (strip_and_filter prefix ns)).
Proof.
  unfold strip_and_filter.
  assert (forall acc : list (string * string),
    NoDup (Dict.keys acc) ->
    NoDup (Dict.keys (fold_left
      (fun acc (kv : string * option string) =>
         match kv.2 with
         | Some text => Dict.set (strip_prefix prefix kv.1) text acc
         | None => acc
         end) ns acc))) as Hgen.
  { induction ns as [|[d [t|]] rest IH]; intros acc Hacc; simpl; [done| |].
    - apply IH. by apply dict_set_NoDup.
    - by apply IH. }
  apply Hgen. apply NoDup_nil_2.
Qed.

(** The merge [d.update(patch)], key by key: the patch wins. *)
Lemma dict_update_get {V} (d patch : list (string * V)) x :
  NoDup (Dict.keys patch) ->
  Dict.get x (Dict.update d patch)
  = match Dict.get x patch with
    | Some v => Some v
    | None => Dict.get x d
    end.
Proof.
  unfold Dict.update. revert d.
  induction patch as [|[k v] rest IH]; intros d; simpl; [done|].
  intros [Hk Hrest]%NoDup_cons. rewrite (IH _ Hrest).
  destruct (decide (k = x)) as [->|Hne].
  - assert (Dict.get x rest = None) as ->.
    { destruct (Dict.get x rest) eqn:Hget; [|done].
      exfalso. apply Hk. apply dict_keys_get. eauto. }
    apply dict_get_set_eq.
  - destruct (Dict.get x rest); [done|]. by apply dict_get_set_ne.
Qed.

Lemma get_callable_parsed_args_NoDup py_int py_float yaml_safe_load argv
    callable prefix st parsed_args st' :
  get_callable_parsed_args py_int py_float yaml_safe_load argv callable prefix st
  = (Ok parsed_args, st') ->
  NoDup (Dict.keys parsed_args).
Proof.
  unfold get_callable_parsed_args, get_parsed_args.
  intros (parser & st1 & Hp & Hrun)%bind_Ok_inv.
  apply bind_Ok_inv in Hrun as (ns & st2 & Hns & Hrun).
  rewrite (coerce_all_keys _ _ _ _ _ _ _ _ Hrun).
  apply strip_and_filter_NoDup.
Qed.

Section Overrides.

Variable py_int : string -> option Z.
Variable py_float : string -> option QArith_base.Q.
Variable yaml_safe_load : string -> option data.
Variable argv : list (string * string).

Local Abbreviation get_callable_parsed_args_ :=
  (get_callable_parsed_args py_int py_float yaml_safe_load argv).


End Overrides.

(** ** The store during a resolution *)

Lemma vrefs_VList vs : vrefs (VList vs) = lrefs vs.
Proof.
  unfold lrefs. simpl. induction vs as [|x xs IH]; simpl; [done|].
  by rewrite IH.
Qed.

Lemma crefs_Partial fn args kw :
  crefs (Partial fn args kw) = crefs fn ++ lrefs args ++ drefs kw.
Proof.
  reflexivity.
Qed.

Lemma elem_of_flat_map {A B} (f : A -> list B) (xs : list A) (y : B) :
  y ∈ flat_map f xs <-> exists x, x ∈ xs /\ y ∈ f x.
Proof.
  induction xs as [|x xs IH]; simpl.
  - split; [by intros ?%elem_of_nil|by intros (? & ?%elem_of_nil & _)].
  - rewrite elem_of_app, IH. split.
    + intros [Hy|(x' & Hx' & Hy)]; [exists x|exists x']; split; try done.
      * by left.
      * by right.
    + intros (x' & [->|Hx']%elem_of_cons & Hy); [by left|right; eauto].
Qed.

Lemma drefs_get k d v l :
  Dict.get k d = Some v -> l ∈ vrefs v -> l ∈ drefs d.
Proof.
  intros Hget%dict_get_elem Hl. apply elem_of_flat_map. by exists (k, v).
Qed.

Lemma drefs_set k v d l :
  l ∈ drefs (Dict.set k v d) -> l ∈ vrefs v \/ l ∈ drefs d.
Proof.
  intros ([k' v'] & Hkv & Hl)%elem_of_flat_map.
  apply dict_set_elem in Hkv as [[= -> ->]|Hold]; [by left|].
  right. apply elem_of_flat_map. by exists (k', v').
Qed.

Lemma drefs_update d patch l :
  l ∈ drefs (Dict.update d patch) -> l ∈ drefs d \/ l ∈ drefs patch.
Proof.
  unfold Dict.update. revert d.
  induction patch as [|[k v] rest IH]; intros d; simpl; [by left|].
  intros Hin. destruct (IH _ Hin) as [Hset|Hrest].
  - apply drefs_set in Hset as [Hv|Hd]; [|by left].
    right. unfold drefs. simpl. apply elem_of_app. by left.
  - right. unfold drefs. simpl. apply elem_of_app. by right.
Qed.

(** Reading the successful runs of the store operations backwards. *)
Lemma read_dict_Ok_inv l st d st' :
  read_dict l st = (Ok d, st') -> heap st !! l = Some d /\ st' = st.
Proof.
  unfold read_dict. destruct (heap st !! l); [|done]. by intros [= <- <-].
Qed.

Lemma getitem_Ok_inv obj key st v st' :
  getitem obj key st = (Ok v, st') ->
  exists l d, obj = VDict l /\ heap st !! l = Some d
              /\ Dict.get key d = Some v /\ st' = st.
Proof.
  destruct obj; try done. simpl.
  intros (d & st1 & [Hd ->]%read_dict_Ok_inv & Hget)%bind_Ok_inv.
  destruct (Dict.get key d) as [v'|] eqn:Hk; [|done].
  inversion Hget; subst. eauto 10.
Qed.

Lemma contains_Ok_inv l0 key st b st' :
  contains (VDict l0) key st = (Ok b, st') ->
  exists l d, VDict l0 = VDict l /\ heap st !! l = Some d
              /\ b = Dict.mem key d /\ st' = st.
Proof.
  simpl.
  intros (d & st1 & [Hd ->]%read_dict_Ok_inv & Hret)%bind_Ok_inv.
  inversion Hret; subst. eauto 10.
Qed.

Lemma setitem_Ok_inv obj key v st u st' :
  setitem obj key v st = (Ok u, st') ->
  exists l d, obj = VDict l /\ heap st !! l = Some d
              /\ st' = set_heap (<[l := Dict.set key v d]> (heap st)) st.
Proof.
  destruct obj; try done. simpl.
  intros (d & st1 & [Hd ->]%read_dict_Ok_inv & Hw)%bind_Ok_inv.
  inversion Hw; subst. eauto 10.
Qed.

Lemma dict_update_Ok_inv obj patch st u st' :
  dict_update obj patch st = (Ok u, st') ->
  exists l d, obj = VDict l /\ heap st !! l = Some d
              /\ st' = set_heap (<[l := Dict.update d patch]> (heap st)) st.
Proof.
  destruct obj; try done. simpl.
  intros (d & st1 & [Hd ->]%read_dict_Ok_inv & Hw)%bind_Ok_inv.
  inversion Hw; subst. eauto 10.
Qed.

Lemma type_name_Ok_inv c st tn st' :
  type_name c st = (Ok tn, st') -> cls_type_name c = Some tn /\ st' = st.
Proof.
  unfold type_name. destruct (cls_type_name c); [|done]. by intros [= <- <-].
Qed.

Lemma lrefs_app vs1 vs2 : lrefs (vs1 ++ vs2) = lrefs vs1 ++ lrefs vs2.
Proof. unfold lrefs. by rewrite flat_map_app. Qed.

Arguments getitem : simpl never.
Arguments contains : simpl never.
Arguments setitem : simpl never.
Arguments dict_update : simpl never.
Arguments type_name : simpl never.
Arguments read_dict : simpl never.
Arguments getattribute : simpl never.
Arguments get_callable_parsed_args : simpl never.
Arguments construct_objects : simpl never.
Arguments call_with_kwargs : simpl never.
Arguments name_in : simpl never.

Lemma holds_no_dict_lookup self tn table name c :
  constructors_hold_no_dict self ->
  _registry self !! tn = Some table -> table !! name = Some c ->
  crefs c = [].
Proof.
  intros H Htab Hc.
  exact (map_Forall_lookup_1 _ _ _ _ (map_Forall_lookup_1 _ _ _ _ H Htab) Hc).
Qed.

Section Footprint.

Variable R : loc -> Prop.

Lemma within_refl st : region R st -> within R st st.
Proof. intros Hreg. by split; [|split]. Qed.

Lemma within_trans st1 st2 st3 :
  within R st1 st2 -> within R st2 st3 -> within R st1 st3.
Proof.
  intros (_ & Hn12 & Hout12) (Hreg & Hn23 & Hout23).
  split; [done|]. split; [lia|].
  intros l Hl. by rewrite Hout23, Hout12.
Qed.

Lemma region_allocated st l d :
  region R st -> heap st !! l = Some d -> (l < next_loc st)%nat.
Proof.
  intros (Hwf & _ & _) Hl. destruct (decide (l < next_loc st)%nat); [done|].
  rewrite Hwf in Hl by lia. done.
Qed.

Lemma alloc_within d st :
  region R st -> (forall l, l ∈ drefs d -> R l) ->
  exists st', alloc d st = (Ok (VDict (next_loc st)), st')
              /\ within R st st' /\ R (next_loc st).
Proof.
  intros (Hwf & Hclosed & Hup) Hd. eexists. split; [reflexivity|].
  assert (R (next_loc st)) as Hnew by (apply Hup; lia).
  split; [|done]. unfold within, region, wf, closed. simpl.
  split; [split; [|split]|split].
  - intros l Hl. rewrite lookup_insert_ne by lia. apply Hwf. lia.
  - intros l d0 Hl. destruct (decide (next_loc st = l)) as [<-|Hne].
    + rewrite lookup_insert_eq. intros [= <-]. apply Hd.
    + rewrite lookup_insert_ne by done. by apply Hclosed.
  - intros l Hl. apply Hup. lia.
  - lia.
  - intros l Hl. rewrite lookup_insert_ne; [done|]. by intros <-.
Qed.

(** Writing a dict of the region. *)
Lemma write_dict_within l d d0 st :
  region R st -> heap st !! l = Some d0 -> R l ->
  (forall l', l' ∈ drefs d -> R l') ->
  within R st (set_heap (<[l := d]> (heap st)) st).
Proof.
  intros Hreg Hl HRl Hd. pose proof (region_allocated _ _ _ Hreg Hl) as Hlt.
  destruct Hreg as (Hwf & Hclosed & Hup).
  unfold within, region, wf, closed. simpl.
  split; [split; [|split]|split].
  - intros l' Hl'. rewrite lookup_insert_ne by lia. by apply Hwf.
  - intros l' d' HR. destruct (decide (l = l')) as [<-|Hne].
    + rewrite lookup_insert_eq. intros [= <-]. by apply Hd.
    + rewrite lookup_insert_ne by done. by apply Hclosed.
  - done.
  - lia.
  - intros l' Hl'. rewrite lookup_insert_ne; [done|]. by intros <-.
Qed.

(** Writing a dict that lies outside the region. *)
Lemma write_dict_outside l d d0 st :
  region R st -> heap st !! l = Some d0 -> ~ R l ->
  region R (set_heap (<[l := d]> (heap st)) st).
Proof.
  intros Hreg Hl HRl. pose proof (region_allocated _ _ _ Hreg Hl) as Hlt.
  destruct Hreg as (Hwf & Hclosed & Hup).
  unfold region, wf, closed. simpl. split; [|split].
  - intros l' Hl'. rewrite lookup_insert_ne by lia. by apply Hwf.
  - intros l' d' HR. destruct (decide (l = l')) as [<-|Hne]; [done|].
    rewrite lookup_insert_ne by done. by apply Hclosed.
  - done.
Qed.

Variable py_int : string -> option Z.
Variable py_float : string -> option QArith_base.Q.
Variable yaml_safe_load : string -> option data.
Variable invoke : pyfunc -> list value -> dict -> gmap loc dict -> result value.
Variable argv : list (string * string).
Variable registry : Registry.

Lemma alloc_data_within d :
  forall st v st',
    region R st -> alloc_data d st = (Ok v, st') ->
    within R st st' /\ forall l, l ∈ vrefs v -> R l.
Proof.
  induction d as [ |b|n|q|s|ds IH|kvs IH] using data_nested_ind;
    intros st v st' Hreg Hrun;
    try (simpl in Hrun; inversion Hrun; subst; split;
         [by apply within_refl|by intros l ?%elem_of_nil]).
  - simpl in Hrun.
    apply bind_Ok_inv in Hrun as (vs & st1 & Hgo & Hret).
    inversion Hret; subst; clear Hret. rewrite vrefs_VList.
    revert st vs st' Hreg Hgo.
    induction IH as [|x xs Hx _ IHxs]; intros st vs st' Hreg Hgo.
    + inversion Hgo; subst. split; [by apply within_refl|].
      by intros l ?%elem_of_nil.
    + apply bind_Ok_inv in Hgo as (vx & stx & Hv & Hgo).
      apply bind_Ok_inv in Hgo as (vs' & st2 & Hvs & Hret).
      inversion Hret; subst; clear Hret.
      destruct (Hx _ _ _ Hreg Hv) as [Hw1 Hrv].
      destruct (IHxs _ _ _ (proj1 Hw1) Hvs) as [Hw2 Hrvs].
      split; [by eapply within_trans|].
      intros l [Hl|Hl]%elem_of_app; [by apply Hrv|by apply Hrvs].
  - simpl in Hrun.
    apply bind_Ok_inv in Hrun as (d & st1 & Hgo & Halloc).
    assert (within R st st1 /\ forall l, l ∈ drefs d -> R l) as [Hw1 Hd].
    { assert (forall l, l ∈ drefs [] -> R l) as Hacc
        by (by intros l ?%elem_of_nil).
      revert Hacc Hgo. generalize (@nil (string * value)).
      clear Halloc. revert st Hreg.
      induction IH as [|[k x] rest Hx _ IHrest]; intros st Hreg acc Hacc Hgo.
      - inversion Hgo; subst. split; [by apply within_refl|done].
      - apply bind_Ok_inv in Hgo as (vx & st2 & Hv & Hgo).
        destruct (Hx _ _ _ Hreg Hv) as [Hw2 Hrv].
        destruct (IHrest _ (proj1 Hw2) _ (ltac:(
          intros l [?|?]%drefs_set; [by apply Hrv|by apply Hacc])) Hgo)
          as [Hw3 Hd].
        split; [by eapply within_trans|done]. }
    destruct (alloc_within d st1 (proj1 Hw1) Hd) as (st2 & Ha & Hw2 & Hnew).
    rewrite Ha in Halloc. inversion Halloc; subst.
    split; [by eapply within_trans|].
    intros l Hl. apply list_elem_of_singleton in Hl. by subst.
Qed.

Lemma coerce_within expected_type text st v st' :
  region R st ->
  coerce py_int py_float yaml_safe_load expected_type text st = (Ok v, st') ->
  within R st st' /\ forall l, l ∈ vrefs v -> R l.
Proof.
  intros Hreg. unfold coerce.
  destruct (in_primitives expected_type).
  - destruct expected_type as [[]|]; try done;
      repeat match goal with
             | |- context [match ?o with Some _ => _ | None => _ end] =>
                 destruct o
             end;
      intros Hrun; inversion Hrun; subst;
      (split; [by apply within_refl|by intros l ?%elem_of_nil]).
  - destruct (yaml_safe_load text); [|done]. by apply alloc_data_within.
Qed.

Lemma coerce_all_within arguments parsed_args :
  forall st result st',
    region R st ->
    coerce_all py_int py_float yaml_safe_load arguments parsed_args st
    = (Ok result, st') ->
    within R st st' /\ forall l, l ∈ drefs result -> R l.
Proof.
  induction parsed_args as [|[a text] rest IH]; intros st result st' Hreg;
    simpl.
  - intros Hrun. inversion Hrun; subst.
    split; [by apply within_refl|by intros l ?%elem_of_nil].
  - destruct (Dict.get a arguments) as [e|]; [|done].
    intros (v & st1 & Hv & Hrun)%bind_Ok_inv.
    apply bind_Ok_inv in Hrun as (r & st2 & Hr & Hret).
    inversion Hret; subst; clear Hret.
    destruct (coerce_within _ _ _ _ _ Hreg Hv) as [Hw1 Hrv].
    destruct (IH _ _ _ (proj1 Hw1) Hr) as [Hw2 Hrr].
    split; [by eapply within_trans|].
    intros l [Hl|Hl]%elem_of_app; [by apply Hrv|by apply Hrr].
Qed.

Lemma get_callable_parsed_args_within callable prefix st parsed_args st' :
  region R st ->
  get_callable_parsed_args py_int py_float yaml_safe_load argv callable prefix st
  = (Ok parsed_args, st') ->
  within R st st' /\ forall l, l ∈ drefs parsed_args -> R l.
Proof.
  intros Hreg. unfold get_callable_parsed_args, get_parsed_args.
  intros (parser & st1 & Hp & Hrun)%bind_Ok_inv.
  apply bind_Ok_inv in Hrun as (ns & st2 & Hns & Hrun).
  unfold lift in Hp, Hns. inversion Hp; subst. inversion Hns; subst.
  by eapply coerce_all_within.
Qed.

Hypothesis invoke_returns_its_arguments : returns_its_arguments invoke.
Hypothesis registry_holds_no_dict : constructors_hold_no_dict registry.

Local Abbreviation call_ := (call invoke).
Local Abbreviation getter_ :=
  (getter py_int py_float yaml_safe_load invoke argv registry).

Lemma call_Ok_inv c :
  forall args kwargs st r st',
    call_ c args kwargs st = (Ok r, st') ->
    heap st' = heap st /\ next_loc st' = next_loc st
    /\ forall l, l ∈ vrefs r -> l ∈ crefs c ++ lrefs args ++ drefs kwargs.
Proof.
  induction c as [f|cls fn IH|fn IH args0 kwargs0];
    intros args kwargs st r st' Hrun; simpl in Hrun.
  - destruct (invoke f args kwargs (heap st)) as [v| |] eqn:Hinv;
      inversion Hrun; subst; simpl.
    split; [done|]. split; [done|].
    by apply (invoke_returns_its_arguments _ _ _ _ _ Hinv).
  - inversion Hrun; subst. split; [done|]. split; [done|].
    intros l Hl. change (vrefs (VCallable (Partial fn args kwargs)))
      with (crefs (Partial fn args kwargs)) in Hl.
    by rewrite crefs_Partial in Hl.
  - destruct (IH _ _ _ _ _ Hrun) as (Hh & Hn & Hr).
    split; [done|]. split; [done|]. intros l Hl.
    rewrite crefs_Partial. specialize (Hr l Hl). rewrite lrefs_app in Hr.
    rewrite !elem_of_app in *.
    destruct Hr as [?|[[?|?]|Hu]]; eauto.
    apply drefs_update in Hu as [?|?]; eauto.
Qed.

Lemma region_same_store st st' :
  heap st' = heap st -> next_loc st' = next_loc st ->
  region R st -> within R st st'.
Proof.
  intros Hh Hn (Hwf & Hclosed & Hup). unfold within, region, wf.
  rewrite Hh, Hn. by repeat split.
Qed.

Lemma construct_loop_within run parameters :
  stays_within R run ->
  forall st u st' lk prefix,
    region R st -> R lk ->
    construct_loop registry run parameters (VDict lk) prefix st = (Ok u, st') ->
    within R st st'.
Proof.
  intros Hrun. induction parameters as [|p rest IH];
    intros st u st' lk prefix Hreg Hlk; simpl.
  - intros [= <- <-]. by apply within_refl.
  - intros (present & sa & Hc & Hloop)%bind_Ok_inv.
    apply contains_Ok_inv in Hc as (l0 & d & [= <-] & Hd & Hpresent & Hsa).
    subst present sa.
    destruct (Dict.mem (p_name p) d); simpl in Hloop; [|by eapply IH].
    destruct (registrable_annotation (p_annotation p)) as [c|];
      [|by eapply IH].
    apply bind_Ok_inv in Hloop as (tn & sb & [Htn Hsb]%type_name_Ok_inv & Hloop).
    subst sb.
    apply bind_Ok_inv in Hloop as (get_ & sc & Hga & Hloop).
    unfold getattribute in Hga.
    destruct (getters registry !! ("get_" +:+ tn)) as [g|]; [|done].
    inversion Hga; subst; clear Hga.
    apply bind_Ok_inv in Hloop as (current & sd & Hgi & Hloop).
    apply getitem_Ok_inv in Hgi as (l0 & d0 & [= <-] & Hd0 & Hcur & Hsd).
    subst sd.
    apply bind_Ok_inv in Hloop as (object & st1 & Hget & Hloop).
    apply bind_Ok_inv in Hloop as (u' & st2 & Hset & Hloop).
    assert (forall l, l ∈ vrefs current -> R l) as Hcurrent.
    { intros l Hl. destruct Hreg as (_ & Hclosed & _).
      eapply Hclosed; [exact Hlk|exact Hd0|]. by eapply drefs_get. }
    destruct (Hrun _ _ _ _ _ _ Hreg Hcurrent Hget) as [Hw1 Hobj].
    apply setitem_Ok_inv in Hset as (l1 & d1 & [= <-] & Hd1 & Hs2).
    subst st2.
    assert (within R st1 (set_heap (<[lk := Dict.set (p_name p) object d1]>
                                     (heap st1)) st1)) as Hw2.
    { eapply write_dict_within; [apply Hw1|exact Hd1|exact Hlk|].
      intros l [Hl|Hl]%drefs_set; [by apply Hobj|].
      destruct Hw1 as ((_ & Hclosed & _) & _). by eapply Hclosed. }
    eapply within_trans; [exact Hw1|]. eapply within_trans; [exact Hw2|].
    eapply IH; [apply Hw2|exact Hlk|exact Hloop].
Qed.

Lemma getter_within fuel : stays_within R (getter_ fuel).
Proof.
  induction fuel as [|fuel IH]; intros g v prefix st r st' Hreg Hv Hrun;
    [done|].
  simpl in Hrun.
  destruct v as [ | | | | | |lf| | ];
    try (inversion Hrun; subst; split; [by apply within_refl|done]);
    try (destruct (isinstance _ (g_type g));
         [inversion Hrun; subst; split; [by apply within_refl|done]|done]).
  simpl in Hrun.
  apply bind_Ok_inv in Hrun as (name & sa & Hgi & Hrun).
  apply getitem_Ok_inv in Hgi as (l0 & frag & [= <-] & Hfrag & Hname & Hsa).
  subst sa.
  apply bind_Ok_inv in Hrun as (kwargs & sb & Hgi & Hrun).
  apply getitem_Ok_inv in Hgi as (l0 & frag' & [= <-] & Hfrag' & Hkw & Hsb).
  subst sb.
  rewrite Hfrag in Hfrag'. inversion Hfrag'; subst frag'; clear Hfrag'.
  apply bind_Ok_inv in Hrun as (tn & sc & [Htn Hsc]%type_name_Ok_inv & Hrun).
  subst sc.
  apply bind_Ok_inv in Hrun as (table & sd & Htable & Hrun).
  destruct (_registry registry !! tn) as [table'|] eqn:Htab; [|done].
  injection Htable as Htable Hsd. subst table' sd.
  apply bind_Ok_inv in Hrun as (found & se & Hfound & Hrun).
  assert (se = st /\ forall oc, found = Some oc ->
            exists s, name = VStr s /\ table !! s = Some oc) as [Hse Hoc].
  { unfold name_in in Hfound.
    destruct name; inversion Hfound; subst; split; try done. eauto. }
  subst se. destruct found as [object_class|]; [|done].
  destruct (Hoc _ eq_refl) as (s & -> & Hs). clear Hoc Hfound.
  apply bind_Ok_inv in Hrun as (parsed_args & st1 & Hpa & Hrun).
  destruct (get_callable_parsed_args_within _ _ _ _ _ Hreg Hpa)
    as [Hw1 Hrpa].
  apply bind_Ok_inv in Hrun as (u & st2 & Hup & Hrun).
  apply dict_update_Ok_inv in Hup as (lk & d1 & Hkwargs & Hd1 & Hs2).
  subst kwargs st2.
  assert (R lk) as Hlk.
  { destruct Hreg as (_ & Hclosed & _).
    eapply (Hclosed lf frag); [apply Hv; by left|done|].
    eapply drefs_get; [exact Hkw|by left]. }
  assert (within R st1 (set_heap (<[lk := Dict.update d1 parsed_args]>
                                   (heap st1)) st1)) as Hw2.
  { eapply write_dict_within; [apply Hw1|exact Hd1|exact Hlk|].
    intros l [Hl|Hl]%drefs_update; [|by apply Hrpa].
    destruct Hw1 as ((_ & Hclosed & _) & _). by eapply Hclosed. }
  apply bind_Ok_inv in Hrun as (kwargs' & st3 & Hco & Hrun).
  unfold construct_objects in Hco.
  apply bind_Ok_inv in Hco as (u' & st3' & Hloop & Hret).
  inversion Hret; subst; clear Hret.
  pose proof (construct_loop_within _ _ IH _ _ _ _ _ (proj1 Hw2) Hlk Hloop)
    as Hw3.
  unfold call_with_kwargs in Hrun.
  apply bind_Ok_inv in Hrun as (K & st4 & [HK Hs4]%read_dict_Ok_inv & Hcall).
  subst st4.
  destruct (call_Ok_inv _ _ _ _ _ _ Hcall) as (Hh & Hn & Hr).
  split.
  - eapply within_trans; [exact Hw1|]. eapply within_trans; [exact Hw2|].
    eapply within_trans; [exact Hw3|].
    apply region_same_store; [done|done|apply Hw3].
  - intros l Hl. specialize (Hr l Hl).
    rewrite (holds_no_dict_lookup _ _ _ _ _ registry_holds_no_dict Htab Hs)
      in Hr.
    simpl in Hr.
    destruct Hw3 as ((_ & Hclosed & _) & _). by eapply Hclosed.
Qed.

Lemma dict_keys_set_present {V} k (v : V) d :
  Dict.mem k d = true -> Dict.keys (Dict.set k v d) = Dict.keys d.
Proof.
  unfold Dict.mem, Dict.keys. induction d as [|[k0 v0] d IH]; simpl; [done|].
  destruct (decide (k0 = k)) as [->|Hne]; simpl; [done|].
  intros Hm. f_equal. by apply IH.
Qed.

(** The engine working on a dict [lk] that lies outside the region of the
    values it resolves: the entries it does not resolve are kept, the
    others hold what the getters returned. *)
Lemma construct_loop_outside run parameters :
  stays_within R run ->
  forall st u st' lk prefix d,
    region R st -> ~ R lk -> heap st !! lk = Some d ->
    (forall l, l ∈ drefs d -> R l) ->
    construct_loop registry run parameters (VDict lk) prefix st = (Ok u, st') ->
    exists d',
      heap st' !! lk = Some d'
      /\ (forall l, l ∈ drefs d' -> R l)
      /\ region R st'
      /\ (forall l, ~ R l -> l <> lk -> heap st' !! l = heap st !! l)
      /\ Dict.keys d' = Dict.keys d
      /\ (forall a, ~ resolved_by_engine parameters a ->
                    Dict.get a d' = Dict.get a d)
      /\ (NoDup (p_name <$> parameters) ->
          forall p c current,
            p ∈ parameters ->
            registrable_annotation (p_annotation p) = Some c ->
            Dict.get (p_name p) d = Some current ->
            exists tn g s s' object,
              cls_type_name c = Some tn
              /\ getters registry !! ("get_" +:+ tn) = Some g
              /\ run g current (Some (prefix +:+ p_name p)) s = (Ok object, s')
              /\ Dict.get (p_name p) d' = Some object).
Proof.
  intros Hrun. induction parameters as [|p rest IH];
    intros st u st' lk prefix d Hreg Hlk Hd Hrd; simpl.
  - intros [= <- <-]. exists d. do 6 (split; [done|]).
    intros _ p c current Hp. by apply elem_of_nil in Hp.
  - intros (present & sa & Hc & Hloop)%bind_Ok_inv.
    apply contains_Ok_inv in Hc as (l0 & d0 & [= <-] & Hd0 & Hpresent & Hsa).
    subst present sa. rewrite Hd in Hd0. injection Hd0 as <-.
    assert (forall a, ~ resolved_by_engine (p :: rest) a ->
                      ~ resolved_by_engine rest a) as Hweak.
    { intros a Hna (q & Hq & Hqa & Hqr). apply Hna. exists q.
      split; [by right|done]. }
    destruct (Dict.mem (p_name p) d) eqn:Hmem; simpl in Hloop.
    2:{ destruct (IH _ _ _ _ _ _ Hreg Hlk Hd Hrd Hloop)
          as (d' & Hd' & Hrd' & Hreg' & Hout & Hkeys & Hkeep & Hres).
        exists d'. do 5 (split; [done|]).
        split; [by intros a ?; apply Hkeep, Hweak|].
        intros Hnd q c current [->|Hq]%elem_of_cons Hqc Hqd.
        - unfold Dict.mem in Hmem. by rewrite Hqd in Hmem.
        - apply NoDup_cons in Hnd as [_ Hnd]. by eapply Hres. }
    destruct (registrable_annotation (p_annotation p)) as [c|] eqn:Hann.
    2:{ destruct (IH _ _ _ _ _ _ Hreg Hlk Hd Hrd Hloop)
          as (d' & Hd' & Hrd' & Hreg' & Hout & Hkeys & Hkeep & Hres).
        exists d'. do 5 (split; [done|]).
        split; [by intros a ?; apply Hkeep, Hweak|].
        intros Hnd q c current [->|Hq]%elem_of_cons Hqc Hqd.
        - by rewrite Hann in Hqc.
        - apply NoDup_cons in Hnd as [_ Hnd]. by eapply Hres. }
    apply bind_Ok_inv in Hloop as (tn & sb & [Htn Hsb]%type_name_Ok_inv & Hloop).
    subst sb.
    apply bind_Ok_inv in Hloop as (get_ & sc & Hga & Hloop).
    unfold getattribute in Hga.
    destruct (getters registry !! ("get_" +:+ tn)) as [g|] eqn:Hg; [|done].
    injection Hga as <- <-.
    apply bind_Ok_inv in Hloop as (current & sd & Hgi & Hloop).
    apply getitem_Ok_inv in Hgi as (l0 & d0 & [= <-] & Hd0 & Hcur & Hsd).
    subst sd. rewrite Hd in Hd0. injection Hd0 as <-.
    apply bind_Ok_inv in Hloop as (object & st1 & Hget & Hloop).
    apply bind_Ok_inv in Hloop as (u' & st2 & Hset & Hloop).
    assert (forall l, l ∈ vrefs current -> R l) as Hcurrent.
    { intros l Hl. apply Hrd. by eapply drefs_get. }
    destruct (Hrun _ _ _ _ _ _ Hreg Hcurrent Hget) as [Hw1 Hobj].
    assert (heap st1 !! lk = Some d) as Hd1.
    { destruct Hw1 as (_ & _ & Hout). by rewrite Hout. }
    apply setitem_Ok_inv in Hset as (l1 & d1 & [= <-] & Hd1' & Hs2).
    subst st2. rewrite Hd1 in Hd1'. injection Hd1' as <-.
    set (d2 := Dict.set (p_name p) object d) in *.
    set (st2 := set_heap (<[lk := d2]> (heap st1)) st1) in *.
    assert (region R st2) as Hreg2
      by (eapply write_dict_outside; [apply Hw1|exact Hd1|exact Hlk]).
    assert (heap st2 !! lk = Some d2) as Hd2
      by (unfold st2; simpl; by rewrite lookup_insert_eq).
    assert (forall l, l ∈ drefs d2 -> R l) as Hrd2.
    { intros l [Hl|Hl]%drefs_set; [by apply Hobj|by apply Hrd]. }
    destruct (IH _ _ _ _ _ _ Hreg2 Hlk Hd2 Hrd2 Hloop)
      as (d' & Hd' & Hrd' & Hreg' & Hout & Hkeys & Hkeep & Hres).
    exists d'. split; [done|]. split; [done|]. split; [done|].
    split; [|split; [|split]].
    + intros l Hl Hne. rewrite (Hout l Hl Hne). unfold st2. simpl.
      rewrite lookup_insert_ne by done. destruct Hw1 as (_ & _ & Hout1).
      by apply Hout1.
    + rewrite Hkeys. by apply dict_keys_set_present.
    + intros a Ha. rewrite (Hkeep a (Hweak a Ha)). unfold d2.
      apply dict_get_set_ne. intros Heq. apply Ha. exists p.
      split; [by left|]. split; [done|]. by rewrite Hann.
    + intros Hnd q c' current' [->|Hq]%elem_of_cons Hqc Hqd.
      * rewrite Hann in Hqc. injection Hqc as <-.
        rewrite Hcur in Hqd. injection Hqd as <-.
        exists tn, g, st, st1, object. repeat split; try done.
        apply NoDup_cons in Hnd as [Hnotin _].
        rewrite Hkeep.
        -- unfold d2. apply dict_get_set_eq.
        -- intros (q & Hq & Hqa & _). apply Hnotin.
           apply list_elem_of_fmap. by exists q.
      * apply NoDup_cons in Hnd as [Hnotin Hnd].
        eapply Hres; [done|done|done|]. unfold d2.
        rewrite dict_get_set_ne; [done|]. intros Heq. apply Hnotin.
        apply list_elem_of_fmap. by exists q.
Qed.

Local Abbreviation get_callable_parsed_args_ :=
  (get_callable_parsed_args py_int py_float yaml_safe_load argv).

(** The getter on a fragment that selects a registered variant. *)
Lemma getter_fragment_unfold fuel g lf frag name kwargs object_class
    table tn prefix st :
  heap st !! lf = Some frag ->
  Dict.get "name" frag = Some (VStr name) ->
  Dict.get "kwargs" frag = Some kwargs ->
  cls_type_name (g_type g) = Some tn ->
  _registry registry !! tn = Some table ->
  table !! name = Some object_class ->
  getter_ (S fuel) g (VDict lf) prefix st
  = (let* parsed_args := get_callable_parsed_args_ object_class prefix in
     do dict_update kwargs parsed_args then
     let* kwargs' :=
       construct_objects registry (getter_ fuel) (g_constructor g) kwargs prefix in
     call_with_kwargs invoke object_class kwargs') st.
Proof.
  intros Hfrag Hname Hkw Htn Htable Hoc. simpl.
  rewrite (bind_ok _ _ _ _ _ (getitem_ok _ _ _ _ _ Hfrag Hname)).
  rewrite (bind_ok _ _ _ _ _ (getitem_ok _ _ _ _ _ Hfrag Hkw)).
  rewrite (bind_ok _ _ _ _ _ (type_name_ok _ _ _ Htn)).
  rewrite Htable, bind_ret. unfold name_in. rewrite bind_ret.
  by rewrite Hoc.
Qed.

Lemma getter_resolves fuel g lf frag name lk kw object_class table tn
    prefix st r st' :
  region R st -> ~ R lk -> (forall l, l ∈ drefs kw -> R l) ->
  heap st !! lf = Some frag ->
  Dict.get "name" frag = Some (VStr name) ->
  Dict.get "kwargs" frag = Some (VDict lk) ->
  heap st !! lk = Some kw ->
  cls_type_name (g_type g) = Some tn ->
  _registry registry !! tn = Some table ->
  table !! name = Some object_class ->
  getter_ (S fuel) g (VDict lf) prefix st = (Ok r, st') ->
  exists parsed_args st1 K st3,
    get_callable_parsed_args_ object_class prefix st = (Ok parsed_args, st1)
    /\ heap st3 !! lk = Some K
    /\ call_ object_class [] K st3 = (Ok r, st')
    /\ heap st' = heap st3
    /\ Dict.keys K = Dict.keys (Dict.update kw parsed_args)
    /\ (forall a,
          ~ resolved_by_engine (signature (g_constructor g)) a ->
          Dict.get a K = Dict.get a (Dict.update kw parsed_args))
    /\ (NoDup (p_name <$> signature (g_constructor g)) ->
        forall p c current,
          p ∈ signature (g_constructor g) ->
          registrable_annotation (p_annotation p) = Some c ->
          Dict.get (p_name p) (Dict.update kw parsed_args) = Some current ->
          exists tn' g' s s' object,
            cls_type_name c = Some tn'
            /\ getters registry !! ("get_" +:+ tn') = Some g'
            /\ getter_ fuel g' current
                 (Some (prefix_dot prefix +:+ p_name p)) s = (Ok object, s')
            /\ Dict.get (p_name p) K = Some object)
    /\ (forall l, ~ R l -> l <> lk -> heap st' !! l = heap st !! l).
Proof.
  intros Hreg Hlk Hrkw Hfrag Hname Hkw Hd Htn Htable Hoc Hrun.
  rewrite (getter_fragment_unfold _ _ _ _ _ _ _ _ _ _ _
             Hfrag Hname Hkw Htn Htable Hoc) in Hrun.
  apply bind_Ok_inv in Hrun as (parsed_args & st1 & Hpa & Hrun).
  destruct (get_callable_parsed_args_within _ _ _ _ _ Hreg Hpa)
    as [Hw1 Hrpa].
  assert (heap st1 !! lk = Some kw) as Hd1.
  { destruct Hw1 as (_ & _ & Hout). by rewrite Hout. }
  apply bind_Ok_inv in Hrun as (u & st2 & Hup & Hrun).
  apply dict_update_Ok_inv in Hup as (l0 & d1 & [= <-] & Hd1' & Hs2).
  subst st2. rewrite Hd1 in Hd1'. injection Hd1' as <-.
  set (merged := Dict.update kw parsed_args) in *.
  set (st2 := set_heap (<[lk := merged]> (heap st1)) st1) in *.
  assert (region R st2) as Hreg2
    by (eapply write_dict_outside; [apply Hw1|exact Hd1|exact Hlk]).
  assert (heap st2 !! lk = Some merged) as Hd2
    by (unfold st2; simpl; by rewrite lookup_insert_eq).
  assert (forall l, l ∈ drefs merged -> R l) as Hrd2.
  { intros l [Hl|Hl]%drefs_update; [by apply Hrkw|by apply Hrpa]. }
  apply bind_Ok_inv in Hrun as (kwargs' & st3 & Hco & Hrun).
  unfold construct_objects in Hco.
  apply bind_Ok_inv in Hco as (u' & st3' & Hloop & Hret).
  injection Hret as <- <-.
  destruct (construct_loop_outside _ _ (getter_within fuel) _ _ _ _ _ _
              Hreg2 Hlk Hd2 Hrd2 Hloop)
    as (K & HK & HrK & Hreg3 & Hout3 & Hkeys & Hkeep & Hres).
  unfold call_with_kwargs in Hrun.
  apply bind_Ok_inv in Hrun as (K' & st4 & [HK' Hs4]%read_dict_Ok_inv & Hcall).
  subst st4. rewrite HK in HK'. injection HK' as <-.
  destruct (call_Ok_inv _ _ _ _ _ _ Hcall) as (Hh & Hn & Hr).
  exists parsed_args, st1, K, st3'.
  do 6 (split; [done|]). split; [done|].
  intros l Hl Hne. rewrite Hh, (Hout3 l Hl Hne). unfold st2. simpl.
  rewrite lookup_insert_ne by done. destruct Hw1 as (_ & _ & Hout1).
  by apply Hout1.
Qed.

End Footprint.

(** ** Precedence of the overrides and the effect on the fragment *)

Lemma wf_region st : wf st -> region (fun l => (next_loc st <= l)%nat) st.
Proof.
  intros Hwf. split; [done|]. split; [|done].
  intros l d Hl Hd. by rewrite (Hwf l Hl) in Hd.
Qed.

(** Without a parameter of a registered family the engine changes nothing. *)
Lemma construct_loop_no_family registry run parameters lk prefix d st :
  (forall p, p ∈ parameters -> registrable_annotation (p_annotation p) = None) ->
  heap st !! lk = Some d ->
  construct_loop registry run parameters (VDict lk) prefix st = (Ok tt, st).
Proof.
  intros Hnone Hd. induction parameters as [|p rest IH]; simpl; [done|].
  rewrite (bind_ok _ _ _ _ _ (contains_ok _ _ (p_name p) _ Hd)).
  assert (construct_loop registry run rest (VDict lk) prefix st = (Ok tt, st))
    as Hrest by (apply IH; intros q Hq; apply Hnone; by right).
  destruct (Dict.mem (p_name p) d); simpl; [|done].
  rewrite (Hnone p) by (by left). done.
Qed.

Section Merge.

Variable py_int : string -> option Z.
Variable py_float : string -> option QArith_base.Q.
Variable yaml_safe_load : string -> option data.
Variable invoke : pyfunc -> list value -> dict -> gmap loc dict -> result value.
Variable argv : list (string * string).
Variable registry : Registry.

Local Abbreviation get_ := (get py_int py_float yaml_safe_load invoke argv registry).
Local Abbreviation getter_ :=
  (getter py_int py_float yaml_safe_load invoke argv registry).
Local Abbreviation get_callable_parsed_args_ :=
  (get_callable_parsed_args py_int py_float yaml_safe_load argv).

(** When the engine finds no parameter of a registered family, the getter
    on a fragment that selects a registered variant is the call of the
    variant's constructor on the kwargs updated with the overrides, and the
    kwargs dict of the fragment holds just that. *)
Lemma getter_flat fuel g lf frag name lk kw object_class table tn prefix
    st parsed_args st1 :
  wf st ->
  heap st !! lf = Some frag ->
  Dict.get "name" frag = Some (VStr name) ->
  Dict.get "kwargs" frag = Some (VDict lk) ->
  heap st !! lk = Some kw ->
  cls_type_name (g_type g) = Some tn ->
  _registry registry !! tn = Some table ->
  table !! name = Some object_class ->
  (forall p, p ∈ signature (g_constructor g) ->
             registrable_annotation (p_annotation p) = None) ->
  get_callable_parsed_args_ object_class prefix st = (Ok parsed_args, st1) ->
  getter_ (S fuel) g (VDict lf) prefix st
  = call invoke object_class [] (Dict.update kw parsed_args)
      (set_heap (<[lk := Dict.update kw parsed_args]> (heap st1)) st1).
Proof.
  intros Hwf Hfrag Hname Hkw Hd Htn Htable Hoc Hflat Hpa.
  rewrite (getter_fragment_unfold _ _ _ _ _ _ _ _ _ _ _ _ _ _ _ _ _
             Hfrag Hname Hkw Htn Htable Hoc).
  rewrite (bind_ok _ _ _ _ _ Hpa).
  destruct (get_callable_parsed_args_within _ _ _ _ _ _ _ _ _ _
              (wf_region _ Hwf) Hpa) as [(_ & _ & Hout) _].
  assert (heap st1 !! lk = Some kw) as Hd1.
  { rewrite Hout; [done|]. intros Hl.
    pose proof (Hwf lk Hl) as Hnone. congruence. }
  set (merged := Dict.update kw parsed_args).
  set (st2 := set_heap (<[lk := merged]> (heap st1)) st1).
  assert (dict_update (VDict lk) parsed_args st1 = (Ok tt, st2)) as Hup.
  { unfold dict_update.
    by rewrite (bind_ok _ _ _ _ _ (read_dict_ok _ _ _ Hd1)). }
  rewrite (bind_ok _ _ _ _ _ Hup).
  assert (heap st2 !! lk = Some merged) as Hd2
    by (unfold st2; simpl; by rewrite lookup_insert_eq).
  unfold construct_objects.
  rewrite (bind_ok _ _ _ _ _
             (bind_ok _ _ _ _ _
                (construct_loop_no_family _ _ _ _ _ _ _ Hflat Hd2))).
  unfold call_with_kwargs.
  by rewrite (bind_ok _ _ _ _ _ (read_dict_ok _ _ _ Hd2)).
Qed.

(** When the getter of a registered family returns for a fragment that
    selects a registered variant, it has invoked the variant's constructor
    with the entries [K] of the fragment's kwargs dict, and for every entry
    [cli] of the derived overrides at [x]: the merged kwargs hold [cli] at
    [x]; [K] holds [cli] at [x] when the engine does not resolve [x]
    through a family getter; and when it does, [K] holds at [x] the object
    that this getter returned for [cli]. *)
Lemma getter_merges_overrides (R : loc -> Prop)
    fuel tn g table lf frag name lk kw object_class prefix st r st' :
  returns_its_arguments invoke ->
  constructors_hold_no_dict registry ->
  populated registry ->
  _registry registry !! tn = Some table ->
  getters registry !! ("get_" +:+ tn) = Some g ->
  table !! name = Some object_class ->
  NoDup (p_name <$> signature (g_constructor g)) ->
  region R st -> ~ R lk -> (forall l, l ∈ drefs kw -> R l) ->
  heap st !! lf = Some frag ->
  Dict.get "name" frag = Some (VStr name) ->
  Dict.get "kwargs" frag = Some (VDict lk) ->
  heap st !! lk = Some kw ->
  get_ (S fuel) tn (VDict lf) prefix st = (Ok r, st') ->
  exists parsed_args st1 K st3,
    get_callable_parsed_args_ object_class prefix st = (Ok parsed_args, st1)
    /\ call invoke object_class [] K st3 = (Ok r, st')
    /\ heap st' !! lk = Some K
    /\ (forall f, object_class = Fn f ->
                  calls st' = calls st3 ++ [Invocation f [] K])
    /\ (forall cls fn, object_class = Wrapper cls fn ->
                       r = VCallable (Partial fn [] K))
    /\ forall x cli,
         Dict.get x parsed_args = Some cli ->
         Dict.get x (Dict.update kw parsed_args) = Some cli
         /\ (~ resolved_by_engine (signature (g_constructor g)) x ->
             Dict.get x K = Some cli)
         /\ (forall p c,
               p ∈ signature (g_constructor g) -> p_name p = x ->
               registrable_annotation (p_annotation p) = Some c ->
               exists tn' g' s s' object,
                 cls_type_name c = Some tn'
                 /\ getters registry !! ("get_" +:+ tn') = Some g'
                 /\ getter_ fuel g' cli (Some (prefix_dot prefix +:+ x)) s
                    = (Ok object, s')
                 /\ Dict.get x K = Some object).
Proof.
  intros Hinvoke Hnodict Hpop Htable Hg Hoc Hnd Hreg Hlk Hrkw
    Hfrag Hname Hkw Hd Hrun.
  rewrite (get_unfold _ _ _ _ _ _ _ _ _ _ _ _ Hg) in Hrun.
  destruct (populated_getters_installed _ Hpop _ _ Htable) as (g0 & Hg0 & Htn).
  rewrite Hg in Hg0. injection Hg0 as <-.
  destruct (getter_resolves R _ _ _ _ _ _ Hinvoke Hnodict _ _ _ _ _ _ _ _ _ _ _
              _ _ _ Hreg Hlk Hrkw Hfrag Hname Hkw Hd Htn Htable Hoc Hrun)
    as (parsed_args & st1 & K & st3 & Hpa & HK & Hcall & Hheap & Hkeys
        & Hkeep & Hres & Hout).
  exists parsed_args, st1, K, st3. split; [done|]. split; [done|].
  split; [by rewrite Hheap|].
  split; [intros f ->; simpl in Hcall; by injection Hcall as _ <-|].
  split; [intros cls fn ->; simpl in Hcall; by injection Hcall as <- _|].
  intros x cli Hx.
  assert (Dict.get x (Dict.update kw parsed_args) = Some cli) as Hmerged.
  { rewrite dict_update_get, Hx; [done|].
    by eapply get_callable_parsed_args_NoDup. }
  split; [done|]. split.
  - intros Hnot. by rewrite (Hkeep _ Hnot).
  - intros p c Hp <- Hc. by eapply Hres.
Qed.


End Merge.

(** ** The properties on the sample world *)

Lemma dqn_registry_populated : populated Sample.dqn_registry.
Proof.
  assert (exists r,
    register_all Sample.Optimizer
      [("SGD", Fn Sample.SGD); ("Adam", Fn Sample.Adam)] Registry_init = Ok r
    /\ register_all Sample.Agent
         [("DQNAgent", Fn Sample.DQNAgent);
          ("RandomAgent", Fn Sample.RandomAgent)] r = Ok Sample.dqn_registry)
    as (r & H1 & H2).
  { eexists. split; [vm_compute; reflexivity|]. vm_compute. reflexivity. }
  eapply register_all_populated; [|exact H2].
  eapply register_all_populated; [|exact H1].
  constructor.
Qed.

Lemma sample_invoke_returns_its_arguments :
  returns_its_arguments Sample.invoke.
Proof.
  intros f args kwargs h v [= <-] l Hl. simpl in Hl.
  by apply elem_of_nil in Hl.
Qed.

Lemma dqn_registry_holds_no_dict :
  constructors_hold_no_dict Sample.dqn_registry.
Proof. apply (bool_decide_unpack _). vm_compute. exact I. Qed.

(** The region of the values of the kwargs of the sample fragment: the
    nested optimizer fragment, its kwargs, and the unused locations. *)
Lemma config_state_region :
  region (fun l => l = 2%nat \/ l = 3%nat \/ (4 <= l)%nat) Sample.config_state.
Proof.
  split; [|split].
  - intros l Hl. simpl in *. unfold Sample.config_heap.
    rewrite !lookup_insert_ne by lia. apply lookup_empty.
  - intros l d [->|[->|Hl]]; simpl; unfold Sample.config_heap.
    + rewrite lookup_insert_ne by lia. rewrite lookup_insert_ne by lia.
      rewrite lookup_insert_eq. intros [= <-] l' Hl'.
      apply list_elem_of_singleton in Hl'. subst. auto.
    + rewrite !lookup_insert_ne by lia.
      rewrite lookup_insert_eq. intros [= <-] l' Hl'.
      by apply elem_of_nil in Hl'.
    + rewrite !lookup_insert_ne by lia. by rewrite lookup_empty.
  - intros l Hl. simpl in Hl. auto.
Qed.


(** * Further properties of the registry module *)

(** ** Registration *)

(** What a successful [register] did. *)
Lemma register_Ok_inv name constructor type self self' :
  register name constructor type self = Ok self' ->
  is_registrable type = true
  /\ exists tn,
       cls_type_name type = Some tn
       /\ _registry self'
          = <[tn := <[name := constructor]> (default ∅ (_registry self !! tn))]>
              (_registry self)
       /\ getters self'
          = match _registry self !! tn with
            | Some _ => getters self
            | None =>
                <["get_" +:+ tn :=
                    {| g_type := type; g_constructor := constructor |}]>
                  (getters self)
            end.
Proof.
  unfold register. destruct (is_registrable type); simpl; [|done].
  destruct (cls_type_name type) as [tn|]; [|done].
  intros [= <-]. split; [done|]. exists tn. split; [done|].
  destruct (_registry self !! tn) as [table|] eqn:Htable; simpl.
  - by rewrite Htable.
  - rewrite lookup_insert_eq. simpl. by rewrite insert_insert_eq.
Qed.

(** X1: a successful [register(name, constructor, type)] binds [name] to
    [constructor] in the table of the family [type.type_name()], whatever
    was bound to it before, keeps every other name of that family and
    leaves every other family as it was. *)
Theorem register_then_lookup name constructor type self self' :
  register name constructor type self = Ok self' ->
  exists tn table',
    cls_type_name type = Some tn
    /\ _registry self' !! tn = Some table'
    /\ table' !! name = Some constructor
    /\ (forall name', name' <> name ->
          table' !! name' = default ∅ (_registry self !! tn) !! name')
    /\ (forall tn', tn' <> tn -> _registry self' !! tn' = _registry self !! tn').
Proof.
  intros (_ & tn & Htn & Hreg & _)%register_Ok_inv.
  exists tn, (<[name := constructor]> (default ∅ (_registry self !! tn))).
  rewrite Hreg. split; [done|]. split; [by rewrite lookup_insert_eq|].
  split; [by rewrite lookup_insert_eq|]. split.
  - intros name' Hne. by rewrite lookup_insert_ne.
  - intros tn' Hne. by rewrite lookup_insert_ne.
Qed.

(** X2: [register] succeeds exactly when [type] derives from [Registrable]
    and supplies a type name; otherwise it raises [ValueError] and there is
    no registry to go on with. *)
Theorem register_succeeds_iff name constructor type self :
  ((exists self', register name constructor type self = Ok self')
   <-> is_registrable type = true /\ is_Some (cls_type_name type))
  /\ ((forall self', register name constructor type self <> Ok self')
      -> exists msg, register name constructor type self = Raise (ValueError msg)).
Proof.
  unfold register. destruct (is_registrable type); simpl.
  - destruct (cls_type_name type) as [tn|]; simpl.
    + split; [split; eauto|]. intros H. by edestruct H.
    + split; [|eauto]. split; [by intros [? ?]|by intros [_ [? ?]]].
  - split; [|eauto]. split; [by intros [? ?]|by intros [? _]].
Qed.

Lemma register_consistent name constructor type self self' :
  registry_consistent self ->
  register name constructor type self = Ok self' ->
  registry_consistent self'.
Proof.
  intros [Hfam Hget] (Hregistrable & tn & Htn & Hreg & Hgetters)%register_Ok_inv.
  split.
  - intros tn'. rewrite Hreg, Hgetters.
    destruct (decide (tn = tn')) as [<-|Hne].
    + rewrite lookup_insert_eq.
      destruct (_registry self !! tn) as [table|] eqn:Htable.
      * split; [intros _|eauto]. apply Hfam. rewrite Htable. eauto.
      * rewrite lookup_insert_eq. split; eauto.
    + rewrite lookup_insert_ne by done. rewrite Hfam.
      destruct (_registry self !! tn); [done|].
      rewrite lookup_insert_ne; [done|]. by intros ?%get_prefix_inj.
  - intros attr g. rewrite Hgetters.
    destruct (_registry self !! tn); [apply Hget|].
    destruct (decide ("get_" +:+ tn = attr)) as [<-|Hne].
    + rewrite lookup_insert_eq. intros [= <-]. exists tn. by simpl.
    + rewrite lookup_insert_ne by done. apply Hget.
Qed.

Lemma populated_consistent self : populated self -> registry_consistent self.
Proof.
  induction 1 as [|name constructor type self self' _ IH Hreg].
  - split.
    + intros tn. simpl. rewrite !lookup_empty. split; by intros [? ?].
    + intros attr g. simpl. by rewrite lookup_empty.
  - by eapply register_consistent.
Qed.

(** X3: whatever sequence of registrations produced the registry, its
    families and its getters agree: a family is in the table exactly when
    its attribute [get_<type name>] exists, and every getter was installed
    for a class that derives from [Registrable] and has that type name. *)
Theorem populated_registry_invariant self :
  populated self -> registry_consistent self.
Proof. apply populated_consistent. Qed.

(** X4: the getter of a family is installed once.  A registration in a
    registry built by registrations leaves every existing getter, with the
    class and the constructor it captured, as it is; only the first
    registration of a family installs a getter, and that getter captures
    the class and the constructor of this very call. *)
Theorem register_installs_getter_once name constructor type self self' :
  populated self ->
  register name constructor type self = Ok self' ->
  (forall attr g, getters self !! attr = Some g -> getters self' !! attr = Some g)
  /\ (forall tn,
        cls_type_name type = Some tn -> _registry self !! tn = None ->
        getters self' !! ("get_" +:+ tn)
        = Some {| g_type := type; g_constructor := constructor |})
  /\ (forall tn,
        cls_type_name type = Some tn -> is_Some (_registry self !! tn) ->
        getters self' = getters self).
Proof.
  intros [Hfam _]%populated_consistent
    (_ & tn & Htn & _ & Hgetters)%register_Ok_inv.
  split; [|split].
  - intros attr g Hg. rewrite Hgetters.
    destruct (_registry self !! tn) as [table|] eqn:Htable; [done|].
    rewrite lookup_insert_ne; [done|]. intros <-.
    assert (is_Some (_registry self !! tn)) as [? ?] by (apply Hfam; eauto).
    congruence.
  - intros tn' Htn' Hnew. assert (tn' = tn) as -> by congruence.
    rewrite Hgetters, Hnew. by rewrite lookup_insert_eq.
  - intros tn' Htn' [table Hold]. assert (tn' = tn) as -> by congruence.
    by rewrite Hgetters, Hold.
Qed.

Lemma dict_get_app {V} k (l1 l2 : list (string * V)) :
  Dict.get k (l1 ++ l2)
  = match Dict.get k l1 with
    | Some v => Some v
    | None => Dict.get k l2
    end.
Proof.
  induction l1 as [|[k0 v0] l1 IH]; simpl; [done|].
  by destruct (decide (k0 = k)).
Qed.

Lemma register_all_tables base_class tn class_dict :
  cls_type_name base_class = Some tn ->
  forall self self',
    register_all base_class class_dict self = Ok self' ->
    (forall tn', tn' <> tn -> _registry self' !! tn' = _registry self !! tn')
    /\ (forall name,
          default ∅ (_registry self' !! tn) !! name
          = match Dict.get name (reverse class_dict) with
            | Some c => Some c
            | None => default ∅ (_registry self !! tn) !! name
            end)
    /\ (is_Some (_registry self !! tn) ->
        getters self' = getters self /\ is_Some (_registry self' !! tn)).
Proof.
  intros Htn. induction class_dict as [|[name0 c0] rest IH]; intros self self';
    simpl.
  - intros [= <-]. by repeat split.
  - destruct (register name0 c0 base_class self) as [self1| |] eqn:Hreg;
      try done.
    intros Hrest. destruct (IH _ _ Hrest) as (Hother & Htable & Hgetters).
    apply register_Ok_inv in Hreg as (_ & tn0 & Htn0 & Hreg & Hg1).
    assert (tn0 = tn) as -> by congruence.
    split; [|split].
    + intros tn' Hne. rewrite (Hother tn' Hne), Hreg.
      by rewrite lookup_insert_ne.
    + intros name. rewrite Htable, reverse_cons, dict_get_app.
      destruct (Dict.get name (reverse rest)); [done|].
      rewrite Hreg, lookup_insert_eq. simpl.
      destruct (decide (name0 = name)) as [->|Hne].
      * by rewrite lookup_insert_eq.
      * by rewrite lookup_insert_ne.
    + intros [table Hold].
      destruct Hgetters as [Hg Hsome].
      { rewrite Hreg, lookup_insert_eq. eauto. }
      split; [|done]. rewrite Hg, Hg1. by rewrite Hold.
Qed.

(** X5: a successful [register_all(base_class, class_dict)] on a non-empty
    [class_dict] leaves in the family of [base_class] every name of
    [class_dict] bound to the constructor that [class_dict] gives it (the
    last one, should a name occur twice) and every other name as it was;
    other families are untouched; a family that did not exist gets its
    getter from the first entry, an existing family keeps its getters. *)
Theorem register_all_then_lookup base_class class_dict self self' :
  register_all base_class class_dict self = Ok self' ->
  class_dict <> [] ->
  exists tn table',
    cls_type_name base_class = Some tn
    /\ _registry self' !! tn = Some table'
    /\ (forall name,
          table' !! name
          = match Dict.get name (reverse class_dict) with
            | Some c => Some c
            | None => default ∅ (_registry self !! tn) !! name
            end)
    /\ (forall tn', tn' <> tn -> _registry self' !! tn' = _registry self !! tn')
    /\ (forall name0 c0 rest,
          class_dict = (name0, c0) :: rest -> _registry self !! tn = None ->
          getters self' !! ("get_" +:+ tn)
          = Some {| g_type := base_class; g_constructor := c0 |})
    /\ (is_Some (_registry self !! tn) -> getters self' = getters self).
Proof.
  intros Hall Hne. destruct class_dict as [|[name0 c0] rest]; [done|].
  pose proof Hall as Hall'. simpl in Hall'.
  destruct (register name0 c0 base_class self) as [self1| |] eqn:Hreg;
    try done.
  pose proof Hreg as (_ & tn & Htn & Hreg1 & Hg1)%register_Ok_inv.
  destruct (register_all_tables _ _ _ Htn _ _ Hall) as (Hother & Htable & Hkeep).
  destruct (register_all_tables _ _ _ Htn _ _ Hall') as (_ & _ & Hkeep1).
  destruct Hkeep1 as [Hg' [table' Htable']].
  { rewrite Hreg1, lookup_insert_eq. eauto. }
  exists tn, table'. split; [done|]. split; [done|]. split.
  { intros name. specialize (Htable name). by rewrite Htable' in Htable. }
  split; [done|]. split.
  - intros n c r [= <- <- <-] Hnew. rewrite Hg', Hg1, Hnew.
    by rewrite lookup_insert_eq.
  - intros Hsome. by apply Hkeep.
Qed.

Lemma register_then_lookup_witness :
  exists self' tn table',
    register "RMSprop" (Fn Sample.Adam) Sample.Optimizer Sample.registry = Ok self'
    /\ cls_type_name Sample.Optimizer = Some tn
    /\ _registry self' !! tn = Some table'
    /\ table' !! "RMSprop" = Some (Fn Sample.Adam)
    /\ (forall name', name' <> "RMSprop" ->
          table' !! name' = default ∅ (_registry Sample.registry !! tn) !! name')
    /\ (forall tn', tn' <> tn ->
          _registry self' !! tn' = _registry Sample.registry !! tn').
Proof.
  assert (exists self',
            register "RMSprop" (Fn Sample.Adam) Sample.Optimizer Sample.registry
            = Ok self') as [self' Hreg].
  { eexists. vm_compute. reflexivity. }
  destruct (register_then_lookup _ _ _ _ _ Hreg) as (tn & table' & H).
  exists self', tn, table'. split; [exact Hreg|exact H].
Defined.

Lemma populated_registry_invariant_witness :
  registry_consistent Sample.registry.
Proof.
  apply populated_registry_invariant. exact sample_registry_populated.
Defined.

Lemma register_installs_getter_once_witness :
  exists self',
    register "RMSprop" (Fn Sample.Adam) Sample.Optimizer Sample.registry = Ok self'
    /\ (forall attr g, getters Sample.registry !! attr = Some g ->
                       getters self' !! attr = Some g)
    /\ (forall tn,
          cls_type_name Sample.Optimizer = Some tn ->
          _registry Sample.registry !! tn = None ->
          getters self' !! ("get_" +:+ tn)
          = Some {| g_type := Sample.Optimizer; g_constructor := Fn Sample.Adam |})
    /\ (forall tn,
          cls_type_name Sample.Optimizer = Some tn ->
          is_Some (_registry Sample.registry !! tn) ->
          getters self' = getters Sample.registry).
Proof.
  assert (exists self',
            register "RMSprop" (Fn Sample.Adam) Sample.Optimizer Sample.registry
            = Ok self') as [self' Hreg].
  { eexists. vm_compute. reflexivity. }
  exists self'. split; [exact Hreg|].
  exact (register_installs_getter_once _ _ _ _ _ sample_registry_populated Hreg).
Defined.

Lemma register_all_then_lookup_witness :
  exists self' tn table',
    register_all Sample.Agent
      [("A", Fn Sample.RandomAgent); ("B", Fn Sample.DQNAgent);
       ("A", Fn Sample.DQNAgent)] Registry_init = Ok self'
    /\ cls_type_name Sample.Agent = Some tn
    /\ _registry self' !! tn = Some table'
    /\ table' !! "A" = Some (Fn Sample.DQNAgent)
    /\ table' !! "B" = Some (Fn Sample.DQNAgent)
    /\ table' !! "C" = None
    /\ getters self' !! ("get_" +:+ tn)
       = Some {| g_type := Sample.Agent; g_constructor := Fn Sample.RandomAgent |}.
Proof.
  assert (exists self',
            register_all Sample.Agent
              [("A", Fn Sample.RandomAgent); ("B", Fn Sample.DQNAgent);
               ("A", Fn Sample.DQNAgent)] Registry_init = Ok self')
    as [self' Hall].
  { eexists. vm_compute. reflexivity. }
  destruct (register_all_then_lookup _ _ _ _ Hall ltac:(discriminate))
    as (tn & table' & Htn & Htable & Hnames & _ & Hfirst & _).
  assert (tn = "agent") as -> by (vm_compute in Htn; congruence).
  exists self', "agent", table'.
  split; [exact Hall|]. split; [exact Htn|]. split; [exact Htable|].
  split; [by rewrite Hnames|]. split; [by rewrite Hnames|].
  split; [by rewrite Hnames|].
  by apply (Hfirst _ _ _ eq_refl).
Defined.

(** * Further properties of the getters *)

(** ** Fragments that cannot be resolved *)

Lemma getitem_plain v key st :
  v <> VNone -> is_plain v = true ->
  exists msg, getitem v key st = (Raise (TypeError msg), st).
Proof. destruct v; try done; intros _ _; eexists; reflexivity. Qed.

Section Malformed.

Variable py_int : string -> option Z.
Variable py_float : string -> option QArith_base.Q.
Variable yaml_safe_load : string -> option data.
Variable invoke : pyfunc -> list value -> dict -> gmap loc dict -> result value.
Variable argv : list (string * string).
Variable registry : Registry.

(** X6: in a registry built by registrations, asking for the getter of a
    family that has no registered variant raises [AttributeError] for the
    attribute [get_<type name>], whatever the argument, and changes
    nothing. *)
Theorem get_unregistered_family fuel tn object_or_config prefix st :
  populated registry ->
  _registry registry !! tn = None ->
  get py_int py_float yaml_safe_load invoke argv registry fuel tn
    object_or_config prefix st
  = (Raise (AttributeError ("get_" +:+ tn)), st).
Proof.
  intros [Hfam _]%populated_consistent Hnone.
  unfold get, getattribute.
  destruct (getters registry !! ("get_" +:+ tn)) as [g|] eqn:Hg; [|done].
  assert (is_Some (_registry registry !! tn)) as [table Htable]
    by (apply Hfam; eauto).
  congruence.
Qed.

(** X7: what a getter does with an argument that is not a usable fragment,
    before it looks at the registry and whatever the registry holds: a
    number, a string, a list or a partially applied constructor is not
    subscriptable ([TypeError]); a dict without [name] raises
    [KeyError("name")]; a dict with [name] but without [kwargs] raises
    [KeyError("kwargs")], also when the name is not a registered variant.
    The store is left as it was. *)
Theorem getter_malformed_fragment fuel g prefix st :
  (forall v, v <> VNone -> is_plain v = true ->
     exists msg,
       getter py_int py_float yaml_safe_load invoke argv registry (S fuel) g
         v prefix st = (Raise (TypeError msg), st))
  /\ (forall fn args kw,
        exists msg,
          getter py_int py_float yaml_safe_load invoke argv registry (S fuel) g
            (VCallable (Partial fn args kw)) prefix st
          = (Raise (TypeError msg), st))
  /\ (forall l fragment,
        heap st !! l = Some fragment -> Dict.get "name" fragment = None ->
        getter py_int py_float yaml_safe_load invoke argv registry (S fuel) g
          (VDict l) prefix st = (Raise (KeyError "name"), st))
  /\ (forall l fragment,
        heap st !! l = Some fragment ->
        is_Some (Dict.get "name" fragment) ->
        Dict.get "kwargs" fragment = None ->
        getter py_int py_float yaml_safe_load invoke argv registry (S fuel) g
          (VDict l) prefix st = (Raise (KeyError "kwargs"), st)).
Proof.
  split; [|split; [|split]].
  - intros v Hnone Hplain.
    destruct (getitem_plain v "name" st Hnone Hplain) as [msg Hmsg].
    exists msg. destruct v; try done; simpl;
      by rewrite (bind_raise _ _ _ _ _ Hmsg).
  - intros fn args kw. eexists. simpl. reflexivity.
  - intros l fragment Hl Hname. simpl.
    apply bind_raise. unfold getitem.
    rewrite (bind_ok _ _ _ _ _ (read_dict_ok _ _ _ Hl)). by rewrite Hname.
  - intros l fragment Hl [name Hname] Hkwargs. simpl.
    rewrite (bind_ok _ _ _ _ _ (getitem_ok _ _ _ _ _ Hl Hname)).
    apply bind_raise. unfold getitem.
    rewrite (bind_ok _ _ _ _ _ (read_dict_ok _ _ _ Hl)). by rewrite Hkwargs.
Qed.

End Malformed.

(** ** What a resolution never does *)

Lemma extends_refl P st : extends P st st.
Proof.
  split; [|split; [lia|done]]. exists []. by rewrite app_nil_r.
Qed.

Lemma extends_trans P st1 st2 st3 :
  extends P st1 st2 -> extends P st2 st3 -> extends P st1 st3.
Proof.
  intros ((new1 & Hc1 & Hn1) & Hl1 & Hh1) ((new2 & Hc2 & Hn2) & Hl2 & Hh2).
  split; [|split; [lia|auto]].
  exists (new1 ++ new2). split.
  - by rewrite Hc2, Hc1, app_assoc.
  - by apply Forall_app.
Qed.

Lemma extends_set_heap P l d st :
  extends P st (set_heap (<[l := d]> (heap st)) st).
Proof.
  split; [|split; [simpl; lia|]].
  - exists []. simpl. by rewrite app_nil_r.
  - intros l' Hl'. simpl. destruct (decide (l = l')) as [->|Hne].
    + rewrite lookup_insert_eq. eauto.
    + by rewrite lookup_insert_ne.
Qed.

Lemma only_extends_ret {A} P (a : A) : only_extends P (ret a).
Proof. intros st r st' [= <- <-]. apply extends_refl. Qed.

Lemma only_extends_raise {A} P e : only_extends P (@raise A e).
Proof. intros st r st' [= <- <-]. apply extends_refl. Qed.

Lemma only_extends_out_of_fuel {A} P : only_extends P (@out_of_fuel A).
Proof. intros st r st' [= <- <-]. apply extends_refl. Qed.

Lemma only_extends_lift {A} P (x : result A) : only_extends P (lift x).
Proof. intros st r st' [= <- <-]. apply extends_refl. Qed.

Lemma only_extends_bind_post {A B} P (Q : A -> Prop) (m : M A) (k : A -> M B) :
  only_extends P m ->
  (forall st a st', m st = (Ok a, st') -> Q a) ->
  (forall a, Q a -> only_extends P (k a)) ->
  only_extends P (bind m k).
Proof.
  intros Hm HQ Hk st r st'. unfold bind.
  destruct (m st) as [[a| |] st1] eqn:Hrun.
  - intros Hrest. eapply extends_trans; [by eapply Hm|].
    eapply Hk; [|done]. by eapply HQ.
  - intros [= <- <-]. by eapply Hm.
  - intros [= <- <-]. by eapply Hm.
Qed.

Lemma only_extends_bind {A B} P (m : M A) (k : A -> M B) :
  only_extends P m -> (forall a, only_extends P (k a)) ->
  only_extends P (bind m k).
Proof.
  intros Hm Hk. apply (only_extends_bind_post P (fun _ => True)); auto.
Qed.

Lemma only_extends_read_dict P l : only_extends P (read_dict l).
Proof.
  intros st r st'. unfold read_dict.
  destruct (heap st !! l); intros [= <- <-]; apply extends_refl.
Qed.

Lemma only_extends_write_dict P l d : only_extends P (write_dict l d).
Proof. intros st r st' [= <- <-]. apply extends_set_heap. Qed.

Lemma only_extends_alloc P d : only_extends P (alloc d).
Proof.
  intros st r st' [= <- <-]. split; [|split; [simpl; lia|]].
  - exists []. simpl. by rewrite app_nil_r.
  - intros l Hl. simpl. destruct (decide (next_loc st = l)) as [->|Hne].
    + rewrite lookup_insert_eq. eauto.
    + by rewrite lookup_insert_ne.
Qed.

Lemma only_extends_getitem P obj key : only_extends P (getitem obj key).
Proof.
  unfold getitem. destruct obj; try apply only_extends_raise.
  apply only_extends_bind; [apply only_extends_read_dict|].
  intros d. destruct (Dict.get key d);
    [apply only_extends_ret|apply only_extends_raise].
Qed.

Lemma only_extends_contains P obj key : only_extends P (contains obj key).
Proof.
  unfold contains.
  destruct obj; try apply only_extends_raise; try apply only_extends_ret.
  apply only_extends_bind; [apply only_extends_read_dict|].
  intros d. apply only_extends_ret.
Qed.

Lemma only_extends_setitem P obj key v : only_extends P (setitem obj key v).
Proof.
  unfold setitem. destruct obj; try apply only_extends_raise.
  apply only_extends_bind; [apply only_extends_read_dict|].
  intros d. apply only_extends_write_dict.
Qed.

Lemma only_extends_dict_update P obj patch :
  only_extends P (dict_update obj patch).
Proof.
  unfold dict_update. destruct obj; try apply only_extends_raise.
  apply only_extends_bind; [apply only_extends_read_dict|].
  intros d. apply only_extends_write_dict.
Qed.

Lemma only_extends_type_name P c : only_extends P (type_name c).
Proof.
  unfold type_name. destruct (cls_type_name c);
    [apply only_extends_ret|apply only_extends_raise].
Qed.

Lemma only_extends_name_in P name table : only_extends P (name_in name table).
Proof.
  unfold name_in.
  destruct name; try apply only_extends_ret; apply only_extends_raise.
Qed.

Lemma only_extends_alloc_data P d : only_extends P (alloc_data d).
Proof.
  induction d as [ |b|n|q|s|ds IH|kvs IH] using data_nested_ind;
    try apply only_extends_ret.
  - simpl. apply only_extends_bind; [|intros vs; apply only_extends_ret].
    induction IH as [|x xs Hx _ IHxs]; [apply only_extends_ret|].
    apply only_extends_bind; [exact Hx|]. intros v.
    apply only_extends_bind; [exact IHxs|]. intros vs.
    apply only_extends_ret.
  - simpl. apply only_extends_bind; [|intros d; apply only_extends_alloc].
    generalize (@nil (string * value)).
    induction IH as [|[k x] rest Hx _ IHrest]; intros acc;
      [apply only_extends_ret|].
    apply only_extends_bind; [exact Hx|]. intros v. apply IHrest.
Qed.

Section Growth.

Variable py_int : string -> option Z.
Variable py_float : string -> option QArith_base.Q.
Variable yaml_safe_load : string -> option data.
Variable invoke : pyfunc -> list value -> dict -> gmap loc dict -> result value.
Variable argv : list (string * string).
Variable registry : Registry.

Lemma only_extends_coerce P expected_type text :
  only_extends P (coerce py_int py_float yaml_safe_load expected_type text).
Proof.
  unfold coerce. destruct (in_primitives expected_type).
  - destruct expected_type as [[ | | | | | | ]|p];
      try apply only_extends_raise; try apply only_extends_ret.
    + destruct (py_int text);
        [apply only_extends_ret|apply only_extends_raise].
    + destruct (py_float text);
        [apply only_extends_ret|apply only_extends_raise].
  - destruct (yaml_safe_load text);
      [apply only_extends_alloc_data|apply only_extends_raise].
Qed.

Lemma only_extends_coerce_all P arguments parsed_args :
  only_extends P
    (coerce_all py_int py_float yaml_safe_load arguments parsed_args).
Proof.
  induction parsed_args as [|[a text] rest IH]; simpl;
    [apply only_extends_ret|].
  destruct (Dict.get a arguments) as [e|]; [|apply only_extends_raise].
  apply only_extends_bind; [apply only_extends_coerce|]. intros v.
  apply only_extends_bind; [exact IH|]. intros r. apply only_extends_ret.
Qed.

Lemma only_extends_get_parsed_args P arguments prefix :
  only_extends P
    (get_parsed_args py_int py_float yaml_safe_load argv arguments prefix).
Proof.
  unfold get_parsed_args.
  apply only_extends_bind; [apply only_extends_lift|]. intros parser.
  apply only_extends_bind; [apply only_extends_lift|]. intros ns.
  apply only_extends_coerce_all.
Qed.

Lemma only_extends_call P c :
  forall args kwargs,
    (forall f, base_fn c = Some f -> P f) ->
    only_extends P (call invoke c args kwargs).
Proof.
  induction c as [f|cls fn _|fn IH args0 kwargs0]; intros args kwargs HP; simpl.
  - intros st r st' [= <- <-]. split; [|split; [simpl; lia|done]].
    exists [Invocation f args kwargs]. split; [done|].
    apply Forall_singleton. simpl. by apply HP.
  - apply only_extends_ret.
  - by apply IH.
Qed.

Lemma only_extends_construct_loop P run parameters config prefix :
  (forall g v p, only_extends P (run g v p)) ->
  only_extends P (construct_loop registry run parameters config prefix).
Proof.
  intros Hrun. induction parameters as [|p rest IH]; simpl;
    [apply only_extends_ret|].
  apply only_extends_bind; [apply only_extends_contains|]. intros present.
  destruct present; simpl; [|exact IH].
  destruct (registrable_annotation (p_annotation p)) as [c|]; [|exact IH].
  apply only_extends_bind; [apply only_extends_type_name|]. intros tn.
  apply (only_extends_bind_post P (fun get_ => exists g, get_ = run g)).
  { unfold getattribute. destruct (getters registry !! ("get_" +:+ tn));
      [apply only_extends_ret|apply only_extends_raise]. }
  { intros st get_ st'. unfold getattribute.
    destruct (getters registry !! ("get_" +:+ tn)) as [g|]; [|done].
    intros [= <- _]. eauto. }
  intros get_ [g ->].
  apply only_extends_bind; [apply only_extends_getitem|]. intros current.
  apply only_extends_bind; [apply Hrun|]. intros object.
  apply only_extends_bind; [apply only_extends_setitem|]. intros _.
  exact IH.
Qed.

Lemma only_extends_getter fuel :
  forall g object_or_config prefix,
    only_extends (registered_fn registry)
      (getter py_int py_float yaml_safe_load invoke argv registry fuel g
         object_or_config prefix).
Proof.
  induction fuel as [|fuel IH]; intros g v prefix;
    [apply only_extends_out_of_fuel|].
  assert (only_extends (registered_fn registry)
    (let* name := getitem v "name" in
     let* kwargs := getitem v "kwargs" in
     let* tn := type_name (g_type g) in
     let* table :=
       match _registry registry !! tn with
       | Some table => ret table
       | None => raise (KeyError tn)
       end in
     let* found := name_in name table in
     match found with
     | Some object_class =>
         let* parsed_args :=
           get_callable_parsed_args py_int py_float yaml_safe_load argv
             object_class prefix in
         do dict_update kwargs parsed_args then
         let* kwargs :=
           construct_objects registry
             (getter py_int py_float yaml_safe_load invoke argv registry fuel)
             (g_constructor g) kwargs prefix in
         call_with_kwargs invoke object_class kwargs
     | None => raise (ClassNotFound name)
     end)) as Hbody.
  { apply only_extends_bind; [apply only_extends_getitem|]. intros name.
    apply only_extends_bind; [apply only_extends_getitem|]. intros kwargs.
    apply only_extends_bind; [apply only_extends_type_name|]. intros tn.
    apply (only_extends_bind_post _
             (fun table => _registry registry !! tn = Some table)).
    { destruct (_registry registry !! tn);
        [apply only_extends_ret|apply only_extends_raise]. }
    { intros st table st'. destruct (_registry registry !! tn); [|done].
      by intros [= <- _]. }
    intros table Htable.
    apply (only_extends_bind_post _
             (fun found => forall c, found = Some c ->
                                     exists name', table !! name' = Some c)).
    { apply only_extends_name_in. }
    { intros st found st'. unfold name_in. destruct name; try done;
        intros [= <- _] oc Hoc; try done. eauto. }
    intros [object_class|] Hfound; [|apply only_extends_raise].
    destruct (Hfound _ eq_refl) as [name' Hname'].
    apply only_extends_bind.
    { unfold get_callable_parsed_args. apply only_extends_get_parsed_args. }
    intros parsed_args.
    apply only_extends_bind; [apply only_extends_dict_update|]. intros _.
    apply only_extends_bind.
    { unfold construct_objects.
      apply only_extends_bind; [|intros _; apply only_extends_ret].
      apply only_extends_construct_loop. exact IH. }
    intros kwargs'. unfold call_with_kwargs.
    destruct kwargs'; try apply only_extends_raise.
    apply only_extends_bind; [apply only_extends_read_dict|]. intros d.
    apply only_extends_call. intros f Hf.
    by exists tn, table, name', object_class. }
  simpl. destruct v; [apply only_extends_ret|..];
    (destruct (isinstance _ (g_type g)); [apply only_extends_ret|exact Hbody]).
Qed.

(** X8: a resolution only adds to the state.  Whatever its argument and
    its outcome (a result, an exception, or the bound on nesting reached),
    a getter only appends to the log of constructor invocations, and every
    invocation it appends is of the constructible behind a registered
    constructor; in particular a registry that holds wrappers only invokes
    nothing.  No dict object disappears and no location is reused. *)
Theorem getter_only_adds fuel g object_or_config prefix st r st' :
  getter py_int py_float yaml_safe_load invoke argv registry fuel g
    object_or_config prefix st = (r, st') ->
  extends (registered_fn registry) st st'
  /\ ((forall tn table name c,
         _registry registry !! tn = Some table -> table !! name = Some c ->
         base_fn c = None) ->
      calls st' = calls st).
Proof.
  intros Hrun. pose proof (only_extends_getter fuel _ _ _ _ _ _ Hrun) as Hext.
  split; [exact Hext|].
  intros Hwrap. destruct Hext as ((new & Hcalls & Hnew) & _).
  destruct new as [|i new]; [by rewrite app_nil_r in Hcalls|].
  apply Forall_cons in Hnew as [(tn & table & name & c & Ht & Hc & Hf) _].
  rewrite (Hwrap _ _ _ _ Ht Hc) in Hf. done.
Qed.

(** X9: deriving the overrides of a constructor never invokes a
    constructor, and in a well-formed store a successful derivation leaves
    every existing dict as it was: what it allocates for structured flag
    values is new. *)
Theorem get_callable_parsed_args_read_only callable prefix st r st' :
  wf st ->
  get_callable_parsed_args py_int py_float yaml_safe_load argv callable prefix st
  = (r, st') ->
  calls st' = calls st
  /\ (next_loc st <= next_loc st')%nat
  /\ (forall parsed_args,
        r = Ok parsed_args ->
        wf st'
        /\ forall l : loc, (l < next_loc st)%nat -> heap st' !! l = heap st !! l).
Proof.
  intros Hwf Hrun.
  pose proof Hrun as Hext. unfold get_callable_parsed_args in Hext.
  apply (only_extends_get_parsed_args (fun _ => False)) in Hext
    as ((new & Hcalls & Hnew) & Hnext & _).
  split; [|split; [exact Hnext|]].
  - destruct new as [|i new]; [by rewrite app_nil_r in Hcalls|].
    by apply Forall_cons in Hnew as [[] _].
  - intros parsed_args ->.
    destruct (get_callable_parsed_args_within _ _ _ _ _ _ _ _ _ _
                (wf_region _ Hwf) Hrun) as [((Hwf' & _) & _ & Hout) _].
    split; [exact Hwf'|]. intros l Hl. apply Hout. lia.
Qed.

End Growth.

(** ** Results and kwargs that are not what the getter expects *)

Section Misuse.

Variable py_int : string -> option Z.
Variable py_float : string -> option QArith_base.Q.
Variable yaml_safe_load : string -> option data.
Variable invoke : pyfunc -> list value -> dict -> gmap loc dict -> result value.
Variable argv : list (string * string).
Variable registry : Registry.

(** X10: the getter of a family of wrapped constructors is not idempotent.
    When it resolves a fragment whose variant is a wrapper, the result is
    the partial application of the wrapped constructor to the entries of
    the kwargs dict; handing this result to the getter again raises
    [TypeError], since it is neither an instance of the family's class nor
    a fragment. *)
Theorem get_wrapper_result_not_reusable fuel fuel' tn table lf frag name cls fn
    prefix prefix' st r st' :
  populated registry ->
  _registry registry !! tn = Some table ->
  heap st !! lf = Some frag ->
  Dict.get "name" frag = Some (VStr name) ->
  table !! name = Some (Wrapper cls fn) ->
  get py_int py_float yaml_safe_load invoke argv registry (S fuel) tn
    (VDict lf) prefix st = (Ok r, st') ->
  (exists lk K, Dict.get "kwargs" frag = Some (VDict lk)
                /\ heap st' !! lk = Some K
                /\ r = VCallable (Partial fn [] K))
  /\ exists msg,
       get py_int py_float yaml_safe_load invoke argv registry (S fuel') tn
         r prefix' st' = (Raise (TypeError msg), st').
Proof.
  intros Hpop Htable Hfrag Hname Hoc Hrun.
  destruct (populated_getters_installed _ Hpop _ _ Htable) as (g & Hg & Htn).
  rewrite (get_unfold _ _ _ _ _ _ _ _ _ _ _ _ Hg) in Hrun.
  assert (exists lk K, Dict.get "kwargs" frag = Some (VDict lk)
                       /\ heap st' !! lk = Some K
                       /\ r = VCallable (Partial fn [] K))
    as (lk & K & Hkw & HK & ->).
  { simpl in Hrun.
    rewrite (bind_ok _ _ _ _ _ (getitem_ok _ _ _ _ _ Hfrag Hname)) in Hrun.
    apply bind_Ok_inv in Hrun as (kwargs & sa & Hkwargs & Hrun).
    apply getitem_Ok_inv in Hkwargs as (l0 & d0 & [= <-] & Hd0 & Hkwargs & ->).
    rewrite Hfrag in Hd0. injection Hd0 as <-.
    apply bind_Ok_inv in Hrun as (tn' & sb & [Htn' ->]%type_name_Ok_inv & Hrun).
    assert (tn' = tn) as -> by congruence.
    rewrite Htable, bind_ret in Hrun. unfold name_in in Hrun.
    rewrite bind_ret, Hoc in Hrun.
    apply bind_Ok_inv in Hrun as (parsed_args & sc & _ & Hrun).
    apply bind_Ok_inv in Hrun as (u & sd & Hup & Hrun).
    apply dict_update_Ok_inv in Hup as (lk & d1 & -> & _ & _).
    apply bind_Ok_inv in Hrun as (kwargs' & se & Hco & Hrun).
    unfold construct_objects in Hco.
    apply bind_Ok_inv in Hco as (u' & se' & _ & Hret).
    injection Hret as <- <-.
    unfold call_with_kwargs in Hrun.
    apply bind_Ok_inv in Hrun as (K & sf & [HK ->]%read_dict_Ok_inv & Hrun).
    simpl in Hrun. injection Hrun as <- <-. eauto. }
  split; [eauto|].
  rewrite (get_unfold _ _ _ _ _ _ _ _ _ _ _ _ Hg). eexists. simpl. reflexivity.
Qed.

(** X11: a fragment whose [kwargs] is not a dict ([None], as a YAML key
    left empty loads, a number, a string or a list) cannot be resolved:
    once the overrides of the selected variant are derived, merging them
    raises [AttributeError] for [update]; no constructor is invoked. *)
Theorem getter_kwargs_not_a_dict fuel g lf frag name kwargs object_class
    table tn prefix st parsed_args st1 :
  heap st !! lf = Some frag ->
  Dict.get "name" frag = Some (VStr name) ->
  Dict.get "kwargs" frag = Some kwargs ->
  is_plain kwargs = true ->
  cls_type_name (g_type g) = Some tn ->
  _registry registry !! tn = Some table ->
  table !! name = Some object_class ->
  get_callable_parsed_args py_int py_float yaml_safe_load argv
    object_class prefix st = (Ok parsed_args, st1) ->
  getter py_int py_float yaml_safe_load invoke argv registry (S fuel) g
    (VDict lf) prefix st = (Raise (AttributeError "update"), st1)
  /\ calls st1 = calls st.
Proof.
  intros Hfrag Hname Hkw Hplain Htn Htable Hoc Hpa. split.
  - rewrite (getter_fragment_unfold _ _ _ _ _ _ _ _ _ _ _ _ _ _ _ _ _
               Hfrag Hname Hkw Htn Htable Hoc).
    rewrite (bind_ok _ _ _ _ _ Hpa).
    apply bind_raise. by destruct kwargs.
  - unfold get_callable_parsed_args in Hpa.
    apply (only_extends_get_parsed_args _ _ _ _ (fun _ => False)) in Hpa
      as ((new & Hcalls & Hnew) & _).
    destruct new as [|i new]; [by rewrite app_nil_r in Hcalls|].
    by apply Forall_cons in Hnew as [[] _].
Qed.

End Misuse.

(** * Further properties of the construction engine *)

Lemma dict_set_same {V} k (v : V) d :
  Dict.get k d = Some v -> Dict.set k v d = d.
Proof.
  induction d as [|[k0 v0] d IH]; simpl; [done|].
  destruct (decide (k0 = k)) as [->|Hne].
  - by intros [= ->].
  - intros Hget. by rewrite IH.
Qed.

Lemma set_heap_same l d st :
  heap st !! l = Some d -> set_heap (<[l := d]> (heap st)) st = st.
Proof.
  destruct st as [h n c]. simpl. intros Hl. unfold set_heap. simpl.
  by rewrite insert_id.
Qed.

Lemma dict_mem_get {V} k (d : list (string * V)) :
  Dict.mem k d = true <-> is_Some (Dict.get k d).
Proof.
  unfold Dict.mem. destruct (Dict.get k d) as [v|].
  - split; eauto.
  - split; [done|]. by intros [? ?].
Qed.

(** The engine passes over the parameters that the config does not hold
    and over those that are not declared of a family. *)
Lemma construct_loop_skip registry run pre rest lk d prefix st :
  heap st !! lk = Some d ->
  (forall q, q ∈ pre ->
     registrable_annotation (p_annotation q) = None
     \/ Dict.mem (p_name q) d = false) ->
  construct_loop registry run (pre ++ rest) (VDict lk) prefix st
  = construct_loop registry run rest (VDict lk) prefix st.
Proof.
  intros Hd. induction pre as [|q pre IH]; intros Hpre; simpl; [done|].
  rewrite (bind_ok _ _ _ _ _ (contains_ok _ _ (p_name q) _ Hd)).
  assert (construct_loop registry run (pre ++ rest) (VDict lk) prefix st
          = construct_loop registry run rest (VDict lk) prefix st) as Hrest
    by (apply IH; intros q' Hq'; apply Hpre; by right).
  destruct (Hpre q) as [Hnone|Habsent]; [by left| |].
  - rewrite Hnone. by destruct (Dict.mem (p_name q) d).
  - by rewrite Habsent.
Qed.

Section Engine.

Variable py_int : string -> option Z.
Variable py_float : string -> option QArith_base.Q.
Variable yaml_safe_load : string -> option data.
Variable invoke : pyfunc -> list value -> dict -> gmap loc dict -> result value.
Variable argv : list (string * string).
Variable registry : Registry.

Lemma construct_loop_keeps_resolved fuel parameters lk d prefix st :
  heap st !! lk = Some d ->
  (forall p c v,
     p ∈ parameters ->
     registrable_annotation (p_annotation p) = Some c ->
     Dict.get (p_name p) d = Some v ->
     exists tn g,
       cls_type_name c = Some tn
       /\ getters registry !! ("get_" +:+ tn) = Some g
       /\ (v = VNone \/ isinstance v (g_type g) = true)) ->
  construct_loop registry
    (getter py_int py_float yaml_safe_load invoke argv registry (S fuel))
    parameters (VDict lk) prefix st = (Ok tt, st).
Proof.
  intros Hd. induction parameters as [|p rest IH]; intros Hres; [done|].
  assert (construct_loop registry
            (getter py_int py_float yaml_safe_load invoke argv registry (S fuel))
            rest (VDict lk) prefix st = (Ok tt, st)) as Hrest.
  { apply IH. intros q c v Hq. apply Hres. by right. }
  cbn [construct_loop].
  rewrite (bind_ok _ _ _ _ _ (contains_ok _ _ (p_name p) _ Hd)).
  destruct (Dict.mem (p_name p) d) eqn:Hmem; cbn [negb]; [|exact Hrest].
  destruct (registrable_annotation (p_annotation p)) as [c|] eqn:Hann;
    [|exact Hrest].
  apply dict_mem_get in Hmem as [v Hv].
  destruct (Hres p c v) as (tn & g & Htn & Hg & Hdone); [by left|done|done|].
  rewrite (bind_ok _ _ _ _ _ (type_name_ok _ _ _ Htn)).
  unfold getattribute. rewrite Hg, bind_ret.
  rewrite (bind_ok _ _ _ _ _ (getitem_ok _ _ _ _ _ Hd Hv)).
  assert (getter py_int py_float yaml_safe_load invoke argv registry (S fuel)
            g v (Some (prefix +:+ p_name p)) st = (Ok v, st)) as Hsame.
  { destruct Hdone as [->|Hinst]; [done|]. by apply getter_instance. }
  rewrite (bind_ok _ _ _ _ _ Hsame).
  assert (setitem (VDict lk) (p_name p) v st = (Ok tt, st)) as Hset.
  { unfold setitem. rewrite (bind_ok _ _ _ _ _ (read_dict_ok _ _ _ Hd)).
    unfold write_dict. rewrite (dict_set_same _ _ _ Hv).
    by rewrite (set_heap_same _ _ _ Hd). }
  by rewrite (bind_ok _ _ _ _ _ Hset).
Qed.

(** X12: the engine is a no-op on kwargs that hold nothing left to
    resolve.  When every parameter of a registered family that the kwargs
    hold is already [None] or an object of the class of that family's
    getter, the engine returns the very same dict and leaves the store as
    it was: nothing is constructed, nothing is raised.  Parameters that the
    kwargs do not hold, and parameters of no family, are never looked at. *)
Theorem construct_objects_keeps_resolved fuel object_constructor lk d prefix st :
  heap st !! lk = Some d ->
  (forall p c v,
     p ∈ signature object_constructor ->
     registrable_annotation (p_annotation p) = Some c ->
     Dict.get (p_name p) d = Some v ->
     exists tn g,
       cls_type_name c = Some tn
       /\ getters registry !! ("get_" +:+ tn) = Some g
       /\ (v = VNone \/ isinstance v (g_type g) = true)) ->
  construct_objects registry
    (getter py_int py_float yaml_safe_load invoke argv registry (S fuel))
    object_constructor (VDict lk) prefix st = (Ok (VDict lk), st).
Proof.
  intros Hd Hres. unfold construct_objects.
  by rewrite (bind_ok _ _ _ _ _
                (construct_loop_keeps_resolved _ _ _ _ _ _ Hd Hres)).
Qed.

(** X13: where the engine gives up.  At the first parameter, in the order
    of the signature, that the kwargs hold and that is declared of a class
    deriving from [Registrable]: if that class does not define its type
    name the engine raises the bare [ValueError] of
    [Registrable.type_name]; if no variant of that family was ever
    registered it raises [AttributeError] for [get_<type name>].  In both
    cases the kwargs and the store are as they were. *)
Theorem construct_objects_unresolvable run object_constructor lk d prefix st
    pre p post c :
  heap st !! lk = Some d ->
  signature object_constructor = pre ++ p :: post ->
  (forall q, q ∈ pre ->
     registrable_annotation (p_annotation q) = None
     \/ Dict.mem (p_name q) d = false) ->
  registrable_annotation (p_annotation p) = Some c ->
  Dict.mem (p_name p) d = true ->
  (cls_type_name c = None ->
   construct_objects registry run object_constructor (VDict lk) prefix st
   = (Raise (ValueError ""), st))
  /\ (forall tn,
        cls_type_name c = Some tn ->
        getters registry !! ("get_" +:+ tn) = None ->
        construct_objects registry run object_constructor (VDict lk) prefix st
        = (Raise (AttributeError ("get_" +:+ tn)), st)).
Proof.
  intros Hd Hsig Hpre Hann Hmem.
  assert (forall e,
    construct_loop registry run (p :: post) (VDict lk) (prefix_dot prefix) st
    = (Raise e, st) ->
    construct_objects registry run object_constructor (VDict lk) prefix st
    = (Raise e, st)) as Hlift.
  { intros e He. unfold construct_objects. rewrite Hsig.
    apply bind_raise. by rewrite (construct_loop_skip _ _ _ _ _ _ _ _ Hd Hpre). }
  split.
  - intros Hnone. apply Hlift. cbn [construct_loop].
    rewrite (bind_ok _ _ _ _ _ (contains_ok _ _ (p_name p) _ Hd)).
    rewrite Hmem. cbn [negb]. rewrite Hann.
    apply bind_raise. unfold type_name. by rewrite Hnone.
  - intros tn Htn Hg. apply Hlift. cbn [construct_loop].
    rewrite (bind_ok _ _ _ _ _ (contains_ok _ _ (p_name p) _ Hd)).
    rewrite Hmem. cbn [negb]. rewrite Hann.
    rewrite (bind_ok _ _ _ _ _ (type_name_ok _ _ _ Htn)).
    apply bind_raise. unfold getattribute. by rewrite Hg.
Qed.

End Engine.

(** * Further properties of the override parser *)

(** ** Values typed by a mapping from names to types *)

Section Typed.

Variable py_int : string -> option Z.
Variable py_float : string -> option QArith_base.Q.
Variable yaml_safe_load : string -> option data.
Variable argv : list (string * string).

Lemma coerce_all_entries arguments parsed_args :
  forall st result st',
    coerce_all py_int py_float yaml_safe_load arguments parsed_args st
    = (Ok result, st') ->
    forall a v,
      (a, v) ∈ result ->
      exists text e sa sb,
        (a, text) ∈ parsed_args /\ Dict.get a arguments = Some e
        /\ coerce py_int py_float yaml_safe_load e text sa = (Ok v, sb).
Proof.
  induction parsed_args as [|[k text] rest IH]; intros st result st'; simpl.
  - intros [= <- _] a v Hin. by apply elem_of_nil in Hin.
  - destruct (Dict.get k arguments) as [e|] eqn:He; [|done].
    intros (v0 & sa & Hv0 & Hrun)%bind_Ok_inv.
    apply bind_Ok_inv in Hrun as (r & sb & Hrest & Hret).
    injection Hret as <- <-.
    intros a v [[= -> ->]|Hin]%elem_of_cons.
    + exists text, e, st, sa. split; [by left|done].
    + destruct (IH _ _ _ Hrest _ _ Hin) as (t & e' & s1 & s2 & Ht & He' & Hc).
      exists t, e', s1, s2. split; [by right|done].
Qed.

Lemma coerce_primitive e text st v st' :
  in_primitives e = true ->
  coerce py_int py_float yaml_safe_load e text st = (Ok v, st') ->
  st' = st
  /\ ((e = TypeObject Ann_str /\ v = VStr text)
      \/ (e = TypeObject Ann_bool /\ v = VBool (negb (bool_decide (text = ""))))
      \/ (e = TypeObject Ann_int /\ exists n, py_int text = Some n /\ v = VInt n)
      \/ (e = TypeObject Ann_float
          /\ exists q, py_float text = Some q /\ v = VFloat q)).
Proof.
  intros Hprim. unfold coerce. rewrite Hprim.
  destruct e as [[ | | | | | | ]|p]; try done.
  - destruct (py_int text) as [n|] eqn:Hn; [|done].
    intros [= <- <-]. split; [done|]. right. right. left. eauto.
  - intros [= <- <-]. split; [done|]. right. left. eauto.
  - intros [= <- <-]. split; [done|]. left. eauto.
  - destruct (py_float text) as [q|] eqn:Hq; [|done].
    intros [= <- <-]. split; [done|]. right. right. right. eauto.
Qed.

Lemma coerce_all_primitive_state arguments parsed_args :
  (forall a e, Dict.get a arguments = Some e -> in_primitives e = true) ->
  forall st result st',
    coerce_all py_int py_float yaml_safe_load arguments parsed_args st
    = (Ok result, st') ->
    st' = st.
Proof.
  intros Hprim.
  induction parsed_args as [|[k text] rest IH]; intros st result st'; simpl.
  - by intros [= _ <-].
  - destruct (Dict.get k arguments) as [e|] eqn:He; [|done].
    intros (v0 & sa & Hv0 & Hrun)%bind_Ok_inv.
    apply bind_Ok_inv in Hrun as (r & sb & Hrest & Hret).
    injection Hret as _ <-.
    apply (coerce_primitive _ _ _ _ _ (Hprim _ _ He)) in Hv0 as [-> _].
    by apply IH in Hrest.
Qed.

(** X14: read through a mapping from names to the four primitive types, an
    override is typed by the declared type: a [str] parameter gets the flag
    text itself, a [bool] parameter gets [True] for every non-empty text
    (so also for "False" and "0") and [False] only for the empty text, an
    [int] or [float] parameter gets what [int] or [float] makes of the
    text.  Every value comes from a pair of the override set whose flag the
    parser stores to that parameter's destination, and the store is left as
    it was. *)
Theorem get_parsed_args_typed arguments prefix st result st' :
  (forall a e, Dict.get a arguments = Some e -> in_primitives e = true) ->
  get_parsed_args py_int py_float yaml_safe_load argv arguments prefix st
  = (Ok result, st') ->
  st' = st
  /\ forall a v,
       Dict.get a result = Some v ->
       exists parser typed text dest,
         add_arguments (prefix_dot prefix) (Dict.keys arguments) ArgumentParser
         = Ok parser
         /\ (typed, text) ∈ argv
         /\ resolve_flag parser typed = Resolved (StoreAction dest)
         /\ strip_prefix (prefix_dot prefix) dest = a
         /\ ((Dict.get a arguments = Some (TypeObject Ann_str) /\ v = VStr text)
             \/ (Dict.get a arguments = Some (TypeObject Ann_bool)
                 /\ v = VBool (negb (bool_decide (text = ""))))
             \/ (Dict.get a arguments = Some (TypeObject Ann_int)
                 /\ exists n, py_int text = Some n /\ v = VInt n)
             \/ (Dict.get a arguments = Some (TypeObject Ann_float)
                 /\ exists q, py_float text = Some q /\ v = VFloat q)).
Proof.
  intros Hprim. unfold get_parsed_args.
  intros (parser & s1 & Hparser & Hrun)%bind_Ok_inv.
  apply bind_Ok_inv in Hrun as (ns & s2 & Hns & Hrun).
  unfold lift in Hparser, Hns.
  injection Hparser as Hparser <-. injection Hns as Hns <-.
  split; [by eapply coerce_all_primitive_state|].
  intros a v Hv%dict_get_elem.
  destruct (coerce_all_entries _ _ _ _ _ Hrun _ _ Hv)
    as (text & e & sa & sb & Hin & He & Hc).
  apply strip_and_filter_entries in Hin as (dest & Hin & Hstrip).
  destruct (parse_args_entries _ _ _ _ _ _ Hns Hin)
    as [Hdef|(typed & Hty & Hres)].
  { by apply default_namespace_all_None in Hdef. }
  exists parser, typed, text, dest. do 4 (split; [done|]).
  apply (coerce_primitive _ _ _ _ _ (Hprim _ _ He)) in Hc as [_ Hc].
  rewrite He. destruct Hc as [[-> ->]|[[-> ->]|[[-> Hn]|[-> Hq]]]]; eauto 10.
Qed.

End Typed.

(** ** Which flag schemas the parser accepts *)

Lemma append_assoc (a b c : string) : (a +:+ b) +:+ c = a +:+ b +:+ c.
Proof.
  induction a as [|x a IH]; [done|].
  change (String x ((a +:+ b) +:+ c) = String x (a +:+ b +:+ c)).
  by rewrite IH.
Qed.

Lemma append_inj_r (p a b : string) : p +:+ a = p +:+ b -> a = b.
Proof.
  induction p as [|c p IH]; simpl; [done|]. intros [= H]. by apply IH.
Qed.

Lemma no_dot_app s1 s2 : no_dot (s1 +:+ s2) = no_dot s1 && no_dot s2.
Proof.
  induction s1 as [|c s1 IH]; simpl; [done|].
  rewrite IH. by rewrite andb_assoc.
Qed.

Lemma replace_dash_empty s : replace_dash s = "" -> s = "".
Proof. by destruct s. Qed.

Lemma lstrip_dash_dotted s1 s2 : lstrip_dash (s1 +:+ "." +:+ s2) <> "".
Proof.
  induction s1 as [|c s1 IH]; [done|].
  change (lstrip_dash (String c (s1 +:+ "." +:+ s2)) <> "").
  destruct c as [[] [] [] [] [] [] [] []]; try done.
Qed.

Lemma dict_mem_app {V} k (l1 l2 : list (string * V)) :
  Dict.mem k (l1 ++ l2) = Dict.mem k l1 || Dict.mem k l2.
Proof.
  unfold Dict.mem. rewrite dict_get_app. by destruct (Dict.get k l1).
Qed.

(** The schema is accepted when the flags are new to the parser, pairwise
    distinct, and none of them is made of dashes only. *)
Lemma add_arguments_accepts prefix names :
  NoDup names ->
  (forall a, a ∈ names ->
     replace_dash (lstrip_dash ("--" +:+ prefix +:+ a)) <> "") ->
  forall parser,
    (forall a, a ∈ names -> Dict.mem ("--" +:+ prefix +:+ a) parser = false) ->
    exists parser', add_arguments prefix names parser = Ok parser'.
Proof.
  induction names as [|a rest IH]; intros Hnd Hdest parser Hnew.
  - eexists. reflexivity.
  - apply NoDup_cons in Hnd as [Ha Hnd]. cbn [add_arguments].
    unfold add_argument. rewrite decide_False by (apply Hdest; by left).
    rewrite Hnew by (by left).
    apply IH; [done|intros b Hb; apply Hdest; by right|].
    intros b Hb. rewrite dict_mem_app, (Hnew b) by (by right).
    unfold Dict.mem. cbn [Dict.get orb].
    rewrite decide_False; [done|].
    intros Heq. apply (append_inj_r "--") in Heq.
    apply append_inj_r in Heq. by subst.
Qed.

(** The schema is refused at the first flag that the parser already has. *)
Lemma add_arguments_conflict prefix pre a post :
  NoDup (pre ++ a :: post) ->
  (forall b, b ∈ pre ++ a :: post ->
     replace_dash (lstrip_dash ("--" +:+ prefix +:+ b)) <> "") ->
  forall parser,
    (forall b, b ∈ pre -> Dict.mem ("--" +:+ prefix +:+ b) parser = false) ->
    Dict.mem ("--" +:+ prefix +:+ a) parser = true ->
    add_arguments prefix (pre ++ a :: post) parser
    = Raise (ArgumentError ("--" +:+ prefix +:+ a)).
Proof.
  induction pre as [|b pre IH]; intros Hnd Hdest parser Hnew Hold.
  - cbn [app add_arguments]. unfold add_argument.
    rewrite decide_False by (apply Hdest; by left). by rewrite Hold.
  - cbn [app] in Hnd. apply NoDup_cons in Hnd as [Hb Hnd].
    cbn [app add_arguments]. unfold add_argument.
    rewrite decide_False by (apply Hdest; by left).
    rewrite Hnew by (by left).
    apply IH; [done|intros c Hc; apply Hdest; by right| |].
    + intros c Hc. rewrite dict_mem_app, (Hnew c) by (by right).
      unfold Dict.mem. cbn [Dict.get orb].
      rewrite decide_False; [done|].
      intros Heq. apply (append_inj_r "--") in Heq.
      apply append_inj_r in Heq. subst c.
      apply Hb. apply elem_of_app. by left.
    + by rewrite dict_mem_app, Hold.
Qed.

Lemma parameter_arguments_NoDup signature :
  NoDup (Dict.keys (parameter_arguments signature)).
Proof.
  unfold parameter_arguments.
  assert (forall acc : list (string * expected),
    NoDup (Dict.keys acc) ->
    NoDup (Dict.keys (fold_left
      (fun acc p =>
         if decide (p_name p = "self") then acc
         else Dict.set (p_name p) (ParameterObject p) acc) signature acc)))
    as Hgen.
  { induction signature as [|p rest IH]; intros acc Hacc; simpl; [done|].
    apply IH. destruct (decide (p_name p = "self")); [done|].
    by apply dict_set_NoDup. }
  apply Hgen. apply NoDup_nil_2.
Qed.

Lemma flag_dest_not_empty prefix a :
  no_dash a = true -> a <> "" ->
  replace_dash (lstrip_dash ("--" +:+ prefix_dot prefix +:+ a)) <> "".
Proof.
  intros Hnd Hne Hempty. apply replace_dash_empty in Hempty.
  change (lstrip_dash ("--" +:+ prefix_dot prefix +:+ a))
    with (lstrip_dash (prefix_dot prefix +:+ a)) in Hempty.
  destruct prefix as [q|].
  - change (prefix_dot (Some q) +:+ a) with ((q +:+ ".") +:+ a) in Hempty.
    rewrite append_assoc in Hempty. by apply lstrip_dash_dotted in Hempty.
  - change (prefix_dot None +:+ a) with a in Hempty.
    by rewrite lstrip_dash_no_dash in Hempty.
Qed.

Lemma flag_not_builtin prefix a :
  prefix_dot prefix +:+ a <> "help" ->
  Dict.mem ("--" +:+ prefix_dot prefix +:+ a) ArgumentParser = false.
Proof.
  intros Hne. unfold Dict.mem, ArgumentParser. cbn [Dict.get].
  rewrite decide_False by done.
  rewrite decide_False; [done|].
  intros Heq. apply Hne. by apply (append_inj_r "--").
Qed.

(** With a prefix, or without a parameter called [help], the schema of a
    constructor is accepted. *)
Lemma schema_accepted callable prefix :
  Forall (fun p => no_dash (p_name p) = true /\ p_name p <> "")
    (signature callable) ->
  prefix <> None \/ "help" ∉ p_name <$> signature callable ->
  exists parser,
    add_arguments (prefix_dot prefix)
      (Dict.keys (parameter_arguments (signature callable)))
      ArgumentParser = Ok parser.
Proof.
  intros Hnames Hcase.
  apply add_arguments_accepts; [apply parameter_arguments_NoDup| |].
  - intros a [_ Ha]%parameter_arguments_keys.
    apply list_elem_of_fmap in Ha as (p & -> & Hp).
    destruct (proj1 (Forall_forall _ _) Hnames p Hp) as [Hnd Hne].
    by apply flag_dest_not_empty.
  - intros a Ha. apply flag_not_builtin. intros Heq.
    destruct prefix as [q|].
    + assert (no_dot (prefix_dot (Some q) +:+ a) = true) as Hdot
        by (by rewrite Heq).
      change (prefix_dot (Some q)) with (q +:+ ".") in Hdot.
      rewrite !no_dot_app in Hdot. cbn in Hdot.
      by rewrite andb_false_r in Hdot.
    + destruct Hcase as [?|Hno]; [done|]. apply Hno.
      change (prefix_dot None +:+ a) with a in Heq. subst a.
      by apply parameter_arguments_keys in Ha as [_ Ha].
Qed.

Section Schema.

Variable py_int : string -> option Z.
Variable py_float : string -> option QArith_base.Q.
Variable yaml_safe_load : string -> option data.
Variable argv : list (string * string).

(** X15: which constructors the override parser can serve.  For parameter
    names that are non-empty and free of dashes (as Python identifiers
    are): without a prefix, a constructor with a parameter called [help]
    makes the derivation raise [ArgumentError] for [--help], the option
    that every parser already has, before any flag is read; in every other
    case (another prefix, or no such parameter) the flag schema is
    accepted. *)
Theorem flag_schema_accepted_unless_help callable prefix st :
  Forall (fun p => no_dash (p_name p) = true /\ p_name p <> "")
    (signature callable) ->
  (prefix = None -> "help" ∈ p_name <$> signature callable ->
   get_callable_parsed_args py_int py_float yaml_safe_load argv callable
     prefix st = (Raise (ArgumentError "--help"), st))
  /\ (prefix <> None \/ "help" ∉ p_name <$> signature callable ->
      exists parser,
        add_arguments (prefix_dot prefix)
          (Dict.keys (parameter_arguments (signature callable)))
          ArgumentParser = Ok parser).
Proof.
  intros Hnames.
  set (names := Dict.keys (parameter_arguments (signature callable))).
  assert (forall a, a ∈ names -> no_dash a = true /\ a <> "") as Hok.
  { intros a [_ Ha]%parameter_arguments_keys.
    apply list_elem_of_fmap in Ha as (p & -> & Hp).
    by apply (proj1 (Forall_forall _ _) Hnames). }
  assert (forall a, a ∈ names ->
            replace_dash (lstrip_dash ("--" +:+ prefix_dot prefix +:+ a)) <> "")
    as Hdest.
  { intros a [Hnd Hne]%Hok. by apply flag_dest_not_empty. }
  split.
  - intros -> Hhelp.
    assert ("help" ∈ names) as Hin by (by apply parameter_arguments_keys).
    apply list_elem_of_split in Hin as (pre & post & Hsplit).
    unfold get_callable_parsed_args, get_parsed_args. fold names.
    apply bind_raise. unfold lift. f_equal.
    pose proof (parameter_arguments_NoDup (signature callable)) as Hnd.
    fold names in Hnd. rewrite Hsplit in Hnd, Hdest |- *.
    apply (add_arguments_conflict (prefix_dot None) pre "help" post Hnd Hdest);
      [|done].
    intros b Hb. apply (flag_not_builtin None). intros Heq.
    change (prefix_dot None +:+ b) with b in Heq. subst b.
    apply NoDup_app in Hnd as (_ & Hnd & _). apply (Hnd "help" Hb). by left.
  - by apply schema_accepted.
Qed.

End Schema.

(** ** A prefix with a dash *)

Lemma prefix_app_inv p s : String.prefix p s = true -> exists r, s = p +:+ r.
Proof.
  revert s. induction p as [|c p IH]; intros s; [by exists s|].
  destruct s as [|c' s]; [done|]. simpl.
  destruct (ascii_dec c c') as [<-|]; [|done].
  intros [r ->]%IH. by exists r.
Qed.

Lemma prefix_append p r : String.prefix p (p +:+ r) = true.
Proof.
  induction p as [|c p IH]; simpl; [by destruct r|].
  by destruct (ascii_dec c c).
Qed.

Lemma no_dash_replace_dash s : no_dash (replace_dash s) = true.
Proof.
  induction s as [|c s IH]; [done|]. simpl. rewrite IH, andb_true_r.
  destruct (Ascii.eqb c "-") eqn:Hc; [done|]. by rewrite Hc.
Qed.

Lemma no_dot_replace_dash s : no_dot (replace_dash s) = no_dot s.
Proof.
  induction s as [|c s IH]; [done|]. simpl. rewrite IH. f_equal.
  destruct (Ascii.eqb c "-") eqn:Hc; [|done].
  apply Ascii.eqb_eq in Hc. by subst c.
Qed.

Lemma no_dot_lstrip_dash_dotted s1 s2 :
  no_dot (lstrip_dash (s1 +:+ "." +:+ s2)) = false.
Proof.
  induction s1 as [|c s1 IH]; [done|].
  change (no_dot (lstrip_dash (String c (s1 +:+ "." +:+ s2))) = false).
  assert (no_dot (String c (s1 +:+ "." +:+ s2)) = false) as Hkeep.
  { simpl. rewrite !no_dot_app. cbn. by rewrite andb_false_r, andb_false_r. }
  destruct c as [[] [] [] [] [] [] [] []]; try exact Hkeep. exact IH.
Qed.

(** A prefix with a dash is never a prefix of a destination, in which
    dashes have become underscores. *)
Lemma dashed_prefix_not_stripped q s :
  no_dash q = false -> String.prefix (q +:+ ".") (replace_dash s) = false.
Proof.
  intros Hq. destruct (String.prefix (q +:+ ".") (replace_dash s)) eqn:Hp;
    [|done].
  apply prefix_app_inv in Hp as [r Hr].
  pose proof (no_dash_replace_dash s) as Hnd.
  rewrite Hr, !no_dash_app, Hq in Hnd. done.
Qed.

Section Dashed.

Variable py_int : string -> option Z.
Variable py_float : string -> option QArith_base.Q.
Variable yaml_safe_load : string -> option data.
Variable argv : list (string * string).

(** X16: a prefix that holds a dash breaks the overrides of a constructor.
    The parser stores a flag under its name with dashes turned into
    underscores; the prefix, dashes intact, is then not found at the start
    of that name, so the name is kept whole and is no parameter of the
    constructor.  Whenever the override set supplies at least one flag of
    the schema, deriving the overrides raises [KeyError] for such a name,
    and leaves the store as it was. *)
Theorem dashed_prefix_overrides_raise callable q parser ns dest st :
  no_dash q = false ->
  Forall (fun p => no_dot (p_name p) = true) (signature callable) ->
  add_arguments (q +:+ ".")
    (Dict.keys (parameter_arguments (signature callable))) ArgumentParser
  = Ok parser ->
  parse_known_args parser argv = Ok ns ->
  supplied parser argv dest ->
  exists a,
    a ∈ p_name <$> signature callable
    /\ get_callable_parsed_args py_int py_float yaml_safe_load argv callable
         (Some q) st
       = (Raise (KeyError (replace_dash (lstrip_dash ((q +:+ ".") +:+ a)))), st).
Proof.
  intros Hq Hnames Hparser Hparse Hsup.
  set (pre := q +:+ ".") in *.
  set (arguments := parameter_arguments (signature callable)) in *.
  (* every kept entry is a whole destination *)
  assert (forall k text, (k, text) ∈ strip_and_filter pre ns ->
            exists a, a ∈ Dict.keys arguments
                      /\ k = replace_dash (lstrip_dash (pre +:+ a))) as Hkept.
  { intros k text Hin.
    apply strip_and_filter_entries in Hin as (dest0 & Hin & Hstrip).
    destruct (parse_args_entries _ _ _ _ _ _ Hparse Hin)
      as [Hdef|(typed & Hty & Hres)].
    { by apply default_namespace_all_None in Hdef. }
    destruct (resolve_flag_in_parser _ _ _ Hres) as (o & Ho).
    apply add_arguments_entries in Hparser. rewrite Hparser in Ho.
    apply elem_of_app in Ho as [Ho|Ho].
    { unfold ArgumentParser in Ho.
      apply elem_of_cons in Ho as [[=]|Ho].
      apply elem_of_cons in Ho as [[=]|Ho].
      by apply elem_of_nil in Ho. }
    apply list_elem_of_fmap in Ho as (a & [= -> Hdest] & Ha).
    exists a. split; [done|]. rewrite <- Hstrip, Hdest.
    change (lstrip_dash ("--" +:+ pre +:+ a)) with (lstrip_dash (pre +:+ a)).
    unfold strip_prefix, pre. by rewrite dashed_prefix_not_stripped. }
  (* at least one entry is kept *)
  apply supplied_last_supplied in Hsup as [t Hlast].
  pose proof (parse_args_get _ _ _ _ dest Hparse) as Hget.
  rewrite Hlast in Hget. apply dict_get_elem in Hget.
  apply (strip_and_filter_keys pre) in Hget.
  destruct (strip_and_filter pre ns) as [|[k text] rest] eqn:Hl.
  { by apply elem_of_nil in Hget. }
  destruct (Hkept k text) as (a & Ha & Hk); [by left|].
  exists a. split; [by apply parameter_arguments_keys in Ha as [_ Ha]|].
  unfold get_callable_parsed_args, get_parsed_args.
  change (prefix_dot (Some q)) with pre. fold arguments.
  unfold lift, bind. rewrite Hparser, Hparse, Hl. cbn [coerce_all].
  assert (Dict.get k arguments = None) as ->; [|by rewrite Hk].
  destruct (Dict.get k arguments) as [e|] eqn:He; [|done]. exfalso.
  assert (k ∈ Dict.keys arguments) as [_ Hkin]%parameter_arguments_keys
    by (apply dict_keys_get; eauto).
  apply list_elem_of_fmap in Hkin as (p & Hp & Hpin).
  pose proof (proj1 (Forall_forall _ _) Hnames p Hpin) as Hdot. simpl in Hdot.
  rewrite <- Hp, Hk, no_dot_replace_dash in Hdot.
  unfold pre in Hdot. rewrite append_assoc in Hdot.
  by rewrite no_dot_lstrip_dash_dotted in Hdot.
Qed.

End Dashed.

(** ** A flag that names a whole component *)

Lemma filter_all {A} (P : A -> Prop) `{forall x, Decision (P x)} (l : list A) :
  (forall x, x ∈ l -> P x) -> filter P l = l.
Proof.
  induction l as [|x l IH]; intros Hl; [done|].
  rewrite filter_cons_True by (apply Hl; by left).
  f_equal. apply IH. intros y Hy. apply Hl. by right.
Qed.

Lemma append_not_self (q r : string) : r <> "" -> q <> q +:+ r.
Proof.
  intros Hr Heq. apply Hr.
  assert (String.length q = String.length (q +:+ r)) as Hlen by (by rewrite <- Heq).
  assert (forall a b : string,
            String.length (a +:+ b) = (String.length a + String.length b)%nat)
    as Happ.
  { clear. intros a b. induction a as [|c a IH]; [done|].
    change (S (String.length (a +:+ b))
            = S (String.length a + String.length b)). by rewrite IH. }
  rewrite Happ in Hlen. destruct r; [done|]. simpl in Hlen. lia.
Qed.

(** The parser stops at a pair whose flag is ambiguous or asks for help. *)
Lemma parse_args_exits parser argv typed text :
  (typed, text) ∈ argv ->
  resolve_flag parser typed = Ambiguous
  \/ resolve_flag parser typed = Resolved HelpAction ->
  forall ns, exists code, parse_args parser argv ns = Raise (SystemExit code).
Proof.
  intros Hin Hres. induction argv as [|[t v] rest IH]; intros ns.
  - by apply elem_of_nil in Hin.
  - cbn [parse_args].
    destruct (resolve_flag parser t) as [[d|]| |] eqn:Ht; eauto.
    + apply elem_of_cons in Hin as [[= <- <-]|Hin]; [|by apply IH].
      rewrite Ht in Hres. by destruct Hres.
    + apply elem_of_cons in Hin as [[= <- <-]|Hin]; [|by apply IH].
      rewrite Ht in Hres. by destruct Hres.
Qed.

(** How the parser of a schema at the prefix [q] reads the flag [--q]. *)
Lemma resolve_component_flag q names parser :
  add_arguments (q +:+ ".") names ArgumentParser = Ok parser ->
  (2 <= length names)%nat ->
  resolve_flag parser ("--" +:+ q) = Ambiguous
  \/ resolve_flag parser ("--" +:+ q) = Resolved HelpAction.
Proof.
  intros Hparser%add_arguments_entries Hlen. subst parser.
  set (declared :=
         map (fun argument =>
                ("--" +:+ (q +:+ ".") +:+ argument,
                 StoreAction
                   (replace_dash
                      (lstrip_dash ("--" +:+ (q +:+ ".") +:+ argument)))))
           names).
  unfold resolve_flag.
  destruct (Dict.get ("--" +:+ q) (ArgumentParser ++ declared)) as [act|]
    eqn:Hget.
  - right. apply dict_get_elem in Hget.
    apply elem_of_app in Hget as [Hget|Hget].
    + unfold ArgumentParser in Hget.
      apply elem_of_cons in Hget as [Heq|Hget]; [by inversion Heq|].
      apply elem_of_cons in Hget as [Heq|Hget]; [by inversion Heq|].
      by apply elem_of_nil in Hget.
    + apply list_elem_of_fmap in Hget as (a & [= Heq _] & _).
      change (q = (q +:+ ".") +:+ a) in Heq. rewrite append_assoc in Heq.
      exfalso. revert Heq. by apply append_not_self.
  - left.
    assert (String.prefix "--" ("--" +:+ q) = true) as -> by (by destruct q).
    rewrite filter_app.
    assert (filter (fun oa : string * action =>
                      Is_true (String.prefix ("--" +:+ q) oa.1)) declared
            = declared) as ->.
    { apply filter_all. intros [o act] Ho.
      apply list_elem_of_fmap in Ho as (a & [= -> _] & _). cbn [fst].
      rewrite (append_assoc q "." a), <- (append_assoc "--" q).
      by rewrite prefix_append. }
    assert (2 <= length (filter (fun oa : string * action =>
                           Is_true (String.prefix ("--" +:+ q) oa.1))
                           ArgumentParser ++ declared))%nat as Hmany.
    { rewrite length_app. unfold declared. rewrite length_map. lia. }
    destruct (filter _ ArgumentParser ++ declared) as [|x [|y l]];
      simpl in Hmany; [lia|lia|done].
Qed.

Section Component.

Variable py_int : string -> option Z.
Variable py_float : string -> option QArith_base.Q.
Variable yaml_safe_load : string -> option data.
Variable argv : list (string * string).

(** X17: a flag that names a whole component cannot be used with a
    component of two or more parameters.  When the override set holds the
    flag [--q] itself (as one writes to replace the component at [q] by a
    structured value), deriving the overrides of a constructor with at
    least two parameters at the prefix [q] ends the process: [--q]
    abbreviates each of the flags [--q.<parameter>], which the parser
    reports as ambiguous.  Nothing is stored or constructed. *)
Theorem component_flag_ambiguous callable q a b text st :
  Forall (fun p => no_dash (p_name p) = true /\ p_name p <> "")
    (signature callable) ->
  a ∈ p_name <$> signature callable -> b ∈ p_name <$> signature callable ->
  a <> b -> a <> "self" -> b <> "self" ->
  ("--" +:+ q, text) ∈ argv ->
  exists code,
    get_callable_parsed_args py_int py_float yaml_safe_load argv callable
      (Some q) st = (Raise (SystemExit code), st).
Proof.
  intros Hnames Ha Hb Hab Hsa Hsb Hin.
  destruct (schema_accepted callable (Some q) Hnames) as [parser Hparser];
    [by left|].
  set (names := Dict.keys (parameter_arguments (signature callable))) in *.
  assert (2 <= length names)%nat as Hlen.
  { assert (a ∈ names) as Han by (by apply parameter_arguments_keys).
    assert (b ∈ names) as Hbn by (by apply parameter_arguments_keys).
    destruct names as [|x [|y l]]; simpl; [|exfalso|lia].
    - by apply elem_of_nil in Han.
    - apply list_elem_of_singleton in Han, Hbn. congruence. }
  destruct (parse_args_exits parser argv _ _ Hin
              (resolve_component_flag _ _ _ Hparser Hlen)
              (default_namespace parser)) as [code Hexit].
  exists code. unfold get_callable_parsed_args, get_parsed_args.
  fold names. unfold lift, bind, parse_known_args.
  by rewrite Hparser, Hexit.
Qed.

End Component.

Lemma resolve_component_flag_single q a parser :
  no_dash q = true -> no_dash a = true ->
  String.prefix q "help" = false ->
  add_arguments (q +:+ ".") [a] ArgumentParser = Ok parser ->
  resolve_flag parser ("--" +:+ q) = Resolved (StoreAction ((q +:+ ".") +:+ a)).
Proof.
  intros Hq Ha Hhelp Hparser%add_arguments_entries. subst parser.
  cbn [map]. rewrite (dest_of_flag (q +:+ ".") a);
    [|by rewrite no_dash_app, Hq|done].
  unfold resolve_flag. rewrite dict_get_None_not_key.
  - assert (String.prefix "--" ("--" +:+ q) = true) as -> by (by destruct q).
    rewrite filter_app.
    rewrite (filter_none _ ArgumentParser).
    + rewrite filter_all; [done|].
      intros [o act] [= -> ->]%list_elem_of_singleton. cbn [fst].
      rewrite (append_assoc q "." a), <- (append_assoc "--" q).
      by rewrite prefix_append.
    + intros [o act] Ho. unfold ArgumentParser in Ho.
      apply elem_of_cons in Ho as [[= -> ->]|Ho].
      { cbn [fst].
        assert (String.prefix ("--" +:+ q) "-h" = false) as -> by reflexivity.
        by intros []. }
      apply elem_of_cons in Ho as [[= -> ->]|Ho].
      * cbn [fst].
        assert (String.prefix ("--" +:+ q) "--help" = String.prefix q "help")
          as -> by reflexivity.
        rewrite Hhelp. by intros [].
      * by apply elem_of_nil in Ho.
  - intros o act Ho Heq. subst o. apply elem_of_app in Ho as [Ho|Ho].
    + unfold ArgumentParser in Ho.
      apply elem_of_cons in Ho as [Ho|Ho]; [by inversion Ho|].
      apply elem_of_cons in Ho as [Ho|Ho].
      * injection Ho as Hq' _. change (q = "help") in Hq'. subst q.
        by rewrite prefix_refl in Hhelp.
      * by apply elem_of_nil in Ho.
    + apply list_elem_of_singleton in Ho. injection Ho as Heq _.
      change (q = (q +:+ ".") +:+ a) in Heq. rewrite append_assoc in Heq.
      revert Heq. by apply append_not_self.
Qed.

Section Leak.

Variable py_int : string -> option Z.
Variable py_float : string -> option QArith_base.Q.
Variable yaml_safe_load : string -> option data.
Variable argv : list (string * string).

(** X18: a flag that names a whole component is read as the parameter of
    a one-parameter component.  At the prefix [q] (free of dashes and not
    the beginning of "help"), for a constructor whose only parameter is
    [a], the parser reads the flag [--q] as the abbreviation of [--q.a]: so
    when the override set holds [--q], every successful derivation of the
    overrides at [q] binds [a]. *)
Theorem component_flag_read_as_parameter callable q a text st parsed_args st' :
  no_dash q = true -> String.prefix q "help" = false ->
  no_dash a = true ->
  Dict.keys (parameter_arguments (signature callable)) = [a] ->
  ("--" +:+ q, text) ∈ argv ->
  get_callable_parsed_args py_int py_float yaml_safe_load argv callable
    (Some q) st = (Ok parsed_args, st') ->
  exists parser,
    add_arguments (q +:+ ".") [a] ArgumentParser = Ok parser
    /\ resolve_flag parser ("--" +:+ q)
       = Resolved (StoreAction ((q +:+ ".") +:+ a))
    /\ is_Some (Dict.get a parsed_args).
Proof.
  intros Hq Hhelp Ha Hkeys Hin Hrun.
  unfold get_callable_parsed_args, get_parsed_args in Hrun.
  rewrite Hkeys in Hrun. change (prefix_dot (Some q)) with (q +:+ ".") in Hrun.
  apply bind_Ok_inv in Hrun as (parser & s1 & Hparser & Hrun).
  apply bind_Ok_inv in Hrun as (ns & s2 & Hns & Hrun).
  unfold lift in Hparser, Hns.
  injection Hparser as Hparser <-. injection Hns as Hns <-.
  pose proof (resolve_component_flag_single _ _ _ Hq Ha Hhelp Hparser) as Hres.
  exists parser. split; [done|]. split; [done|].
  assert (supplied parser argv ((q +:+ ".") +:+ a)) as Hsup
    by (by exists ("--" +:+ q), text).
  apply supplied_last_supplied in Hsup as [t Hlast].
  pose proof (parse_args_get _ _ _ _ ((q +:+ ".") +:+ a) Hns) as Hget.
  rewrite Hlast in Hget. apply dict_get_elem in Hget.
  apply (strip_and_filter_keys (q +:+ ".")) in Hget.
  rewrite strip_prefix_app in Hget.
  apply dict_keys_get.
  by rewrite (coerce_all_keys _ _ _ _ _ _ _ _ Hrun).
Qed.

End Leak.

(** * The further properties on the sample world *)

Lemma qnet_registry_populated : populated Sample.qnet_registry.
Proof.
  assert (register_all Sample.FunctionApproximator
            [("ConvRNNNetwork",
              Wrapper Sample.FunctionApproximator (Fn Sample.ConvRNNNetwork))]
            Registry_init = Ok Sample.qnet_registry) as Hall
    by (vm_compute; reflexivity).
  eapply register_all_populated; [|exact Hall]. constructor.
Qed.

Lemma get_unregistered_family_witness :
  get Sample.py_int Sample.py_float Sample.yaml_safe_load Sample.invoke
    [] Sample.registry 1 "scheduler" (VDict 0%nat) None Sample.config_state
  = (Raise (AttributeError ("get_" +:+ "scheduler")), Sample.config_state).
Proof.
  apply get_unregistered_family.
  - exact sample_registry_populated.
  - vm_compute. reflexivity.
Defined.

Lemma getter_only_adds_witness :
  let run :=
    getter Sample.py_int Sample.py_float Sample.yaml_safe_load Sample.invoke
      [("--opt.lr", "2")] Sample.registry 2
      {| g_type := Sample.Optimizer; g_constructor := Fn Sample.SGD |}
      (VDict 0%nat) (Some "opt") Sample.sgd_state in
  extends (registered_fn Sample.registry) Sample.sgd_state run.2
  /\ ((forall tn table name c,
         _registry Sample.registry !! tn = Some table ->
         table !! name = Some c -> base_fn c = None) ->
      calls run.2 = calls Sample.sgd_state).
Proof.
  intros run.
  apply (getter_only_adds Sample.py_int Sample.py_float Sample.yaml_safe_load
           Sample.invoke [("--opt.lr", "2")] Sample.registry 2
           {| g_type := Sample.Optimizer; g_constructor := Fn Sample.SGD |}
           (VDict 0%nat) (Some "opt") Sample.sgd_state run.1 run.2).
  vm_compute. reflexivity.
Defined.

Lemma get_callable_parsed_args_read_only_witness :
  let run :=
    get_callable_parsed_args Sample.py_int Sample.py_float
      Sample.yaml_safe_load
      [("--agent.optimizer", "{name: Adam, kwargs: {}}")]
      (Fn Sample.DQNAgent) (Some "agent") Sample.config_state in
  calls run.2 = calls Sample.config_state
  /\ (next_loc Sample.config_state <= next_loc run.2)%nat
  /\ (forall parsed_args,
        run.1 = Ok parsed_args ->
        wf run.2
        /\ forall l : loc, (l < next_loc Sample.config_state)%nat ->
                           heap run.2 !! l = heap Sample.config_state !! l).
Proof.
  intros run.
  apply (get_callable_parsed_args_read_only Sample.py_int Sample.py_float
           Sample.yaml_safe_load
           [("--agent.optimizer", "{name: Adam, kwargs: {}}")]
           (Fn Sample.DQNAgent) (Some "agent") Sample.config_state).
  - exact (proj1 config_state_region).
  - vm_compute. reflexivity.
Defined.

Lemma get_wrapper_result_not_reusable_witness :
  exists r st',
    get Sample.py_int Sample.py_float Sample.yaml_safe_load Sample.invoke
      [("--qnet.rnn_hidden_size", "12")] Sample.qnet_registry 1
      "function_approximator" (VDict 0%nat) (Some "qnet") Sample.qnet_state
    = (Ok r, st')
    /\ (exists lk K,
          Dict.get "kwargs"
            [("name", VStr "ConvRNNNetwork"); ("kwargs", VDict 1%nat)]
          = Some (VDict lk)
          /\ heap st' !! lk = Some K
          /\ r = VCallable (Partial (Fn Sample.ConvRNNNetwork) [] K))
    /\ exists msg,
         get Sample.py_int Sample.py_float Sample.yaml_safe_load Sample.invoke
           [("--qnet.rnn_hidden_size", "12")] Sample.qnet_registry 1
           "function_approximator" r (Some "qnet") st'
         = (Raise (TypeError msg), st').
Proof.
  eexists _, _. split; [vm_compute; reflexivity|].
  eapply (get_wrapper_result_not_reusable Sample.py_int Sample.py_float
            Sample.yaml_safe_load Sample.invoke
            [("--qnet.rnn_hidden_size", "12")] Sample.qnet_registry 0 0
            "function_approximator" _ 0%nat _ "ConvRNNNetwork"
            Sample.FunctionApproximator (Fn Sample.ConvRNNNetwork)
            (Some "qnet") (Some "qnet") Sample.qnet_state).
  - exact qnet_registry_populated.
  - vm_compute. reflexivity.
  - vm_compute. reflexivity.
  - vm_compute. reflexivity.
  - vm_compute. reflexivity.
  - vm_compute. reflexivity.
Defined.

Lemma getter_kwargs_not_a_dict_witness :
  let st :=
    {| heap := <[0%nat := [("name", VStr "SGD"); ("kwargs", VNone)]]> ∅;
       next_loc := 1%nat; calls := [] |} in
  getter Sample.py_int Sample.py_float Sample.yaml_safe_load Sample.invoke
    [("--opt.lr", "2")] Sample.registry 1
    {| g_type := Sample.Optimizer; g_constructor := Fn Sample.SGD |}
    (VDict 0%nat) (Some "opt") st
  = (Raise (AttributeError "update"), st)
  /\ calls st = calls st.
Proof.
  intros st.
  eapply (getter_kwargs_not_a_dict Sample.py_int Sample.py_float
            Sample.yaml_safe_load Sample.invoke [("--opt.lr", "2")]
            Sample.registry 0
            {| g_type := Sample.Optimizer; g_constructor := Fn Sample.SGD |}
            0%nat _ "SGD" VNone (Fn Sample.SGD) _ "optimizer" (Some "opt") st).
  - vm_compute. reflexivity.
  - vm_compute. reflexivity.
  - vm_compute. reflexivity.
  - reflexivity.
  - reflexivity.
  - vm_compute. reflexivity.
  - vm_compute. reflexivity.
  - vm_compute. reflexivity.
Defined.

Lemma construct_objects_keeps_resolved_witness :
  let st :=
    {| heap := <[0%nat := [("optimizer", VNone); ("gamma", VInt 1)]]> ∅;
       next_loc := 1%nat; calls := [] |} in
  construct_objects Sample.registry
    (getter Sample.py_int Sample.py_float Sample.yaml_safe_load Sample.invoke
       [] Sample.registry 1)
    (Fn Sample.DQNAgent) (VDict 0%nat) (Some "agent") st
  = (Ok (VDict 0%nat), st).
Proof.
  intros st.
  apply (construct_objects_keeps_resolved Sample.py_int Sample.py_float
           Sample.yaml_safe_load Sample.invoke [] Sample.registry 0
           (Fn Sample.DQNAgent) 0%nat
           [("optimizer", VNone); ("gamma", VInt 1)]).
  - vm_compute. reflexivity.
  - intros p c v Hp Hann Hv. simpl in Hp.
    apply elem_of_cons in Hp as [->|Hp].
    + exists "optimizer",
        {| g_type := Sample.Optimizer; g_constructor := Fn Sample.SGD |}.
      vm_compute in Hann. vm_compute in Hv.
      injection Hann as <-. injection Hv as <-.
      split; [reflexivity|]. split; [vm_compute; reflexivity|by left].
    + apply list_elem_of_singleton in Hp as ->. vm_compute in Hann. done.
Defined.

Lemma construct_objects_unresolvable_witness :
  let st :=
    {| heap := <[0%nat := [("agent", VDict 1%nat)]]> ∅;
       next_loc := 2%nat; calls := [] |} in
  construct_objects Registry_init
    (getter Sample.py_int Sample.py_float Sample.yaml_safe_load Sample.invoke
       [] Registry_init 1)
    (Fn (PyFunc "Trainer" [Param "steps" Ann_int;
                           Param "agent" (Ann_class Sample.Agent)]))
    (VDict 0%nat) None st
  = (Raise (AttributeError ("get_" +:+ "agent")), st).
Proof.
  intros st.
  apply (construct_objects_unresolvable Registry_init
           (getter Sample.py_int Sample.py_float Sample.yaml_safe_load
              Sample.invoke [] Registry_init 1)
           (Fn (PyFunc "Trainer" [Param "steps" Ann_int;
                                  Param "agent" (Ann_class Sample.Agent)]))
           0%nat [("agent", VDict 1%nat)] None st
           [Param "steps" Ann_int] (Param "agent" (Ann_class Sample.Agent)) []
           Sample.Agent).
  - vm_compute. reflexivity.
  - reflexivity.
  - intros q Hq. apply list_elem_of_singleton in Hq as ->. by left.
  - vm_compute. reflexivity.
  - vm_compute. reflexivity.
  - reflexivity.
  - vm_compute. reflexivity.
Defined.

Lemma get_parsed_args_typed_witness :
  let arguments :=
    [("lr", TypeObject Ann_float); ("tag", TypeObject Ann_str);
     ("nesterov", TypeObject Ann_bool)] in
  let argv := [("--optimizer.tag", "12"); ("--optimizer.nesterov", "False")] in
  let result := [("tag", VStr "12"); ("nesterov", VBool true)] in
  Sample.config_state = Sample.config_state
  /\ forall a v,
       Dict.get a result = Some v ->
       exists parser typed text dest,
         add_arguments (prefix_dot (Some "optimizer")) (Dict.keys arguments)
           ArgumentParser = Ok parser
         /\ (typed, text) ∈ argv
         /\ resolve_flag parser typed = Resolved (StoreAction dest)
         /\ strip_prefix (prefix_dot (Some "optimizer")) dest = a
         /\ ((Dict.get a arguments = Some (TypeObject Ann_str) /\ v = VStr text)
             \/ (Dict.get a arguments = Some (TypeObject Ann_bool)
                 /\ v = VBool (negb (bool_decide (text = ""))))
             \/ (Dict.get a arguments = Some (TypeObject Ann_int)
                 /\ exists n, Sample.py_int text = Some n /\ v = VInt n)
             \/ (Dict.get a arguments = Some (TypeObject Ann_float)
                 /\ exists q, Sample.py_float text = Some q /\ v = VFloat q)).
Proof.
  intros arguments argv result.
  apply (get_parsed_args_typed Sample.py_int Sample.py_float
           Sample.yaml_safe_load argv arguments (Some "optimizer")
           Sample.config_state result Sample.config_state).
  - intros a e Hget. unfold arguments in Hget. cbn [Dict.get] in Hget.
    repeat (destruct (decide _) in Hget; [by injection Hget as <-|]).
    done.
  - vm_compute. reflexivity.
Defined.

Lemma flag_schema_accepted_unless_help_witness :
  let usage := Fn (PyFunc "Usage" [Param "verbose" Ann_bool; Param "help" Ann_str]) in
  (@None string = None -> "help" ∈ p_name <$> signature usage ->
   get_callable_parsed_args Sample.py_int Sample.py_float Sample.yaml_safe_load
     [] usage None Sample.config_state
   = (Raise (ArgumentError "--help"), Sample.config_state))
  /\ (@None string <> None \/ "help" ∉ p_name <$> signature usage ->
      exists parser,
        add_arguments (prefix_dot None)
          (Dict.keys (parameter_arguments (signature usage)))
          ArgumentParser = Ok parser).
Proof.
  intros usage.
  apply (flag_schema_accepted_unless_help Sample.py_int Sample.py_float
           Sample.yaml_safe_load [] usage None Sample.config_state).
  simpl. repeat constructor; done.
Defined.

Lemma dashed_prefix_overrides_raise_witness :
  exists a,
    a ∈ p_name <$> signature (Fn Sample.SGD)
    /\ get_callable_parsed_args Sample.py_int Sample.py_float
         Sample.yaml_safe_load [("--my-opt.lr", "2")] (Fn Sample.SGD)
         (Some "my-opt") Sample.config_state
       = (Raise (KeyError (replace_dash (lstrip_dash (("my-opt" +:+ ".") +:+ a)))),
          Sample.config_state).
Proof.
  eapply (dashed_prefix_overrides_raise Sample.py_int Sample.py_float
            Sample.yaml_safe_load [("--my-opt.lr", "2")] (Fn Sample.SGD)
            "my-opt" _ _ "my_opt.lr" Sample.config_state).
  - reflexivity.
  - simpl. repeat constructor.
  - vm_compute. reflexivity.
  - vm_compute. reflexivity.
  - exists "--my-opt.lr", "2". split; [by left|]. vm_compute. reflexivity.
Defined.

Lemma component_flag_ambiguous_witness :
  exists code,
    get_callable_parsed_args Sample.py_int Sample.py_float
      Sample.yaml_safe_load
      [("--agent.optimizer", "{name: Adam, kwargs: {}}")] (Fn Sample.SGD)
      (Some "agent.optimizer") Sample.config_state
    = (Raise (SystemExit code), Sample.config_state).
Proof.
  apply (component_flag_ambiguous Sample.py_int Sample.py_float
           Sample.yaml_safe_load
           [("--agent.optimizer", "{name: Adam, kwargs: {}}")] (Fn Sample.SGD)
           "agent.optimizer" "lr" "tag" "{name: Adam, kwargs: {}}"
           Sample.config_state).
  - simpl. repeat constructor; done.
  - apply (bool_decide_unpack _). vm_compute. exact I.
  - apply (bool_decide_unpack _). vm_compute. exact I.
  - done.
  - done.
  - done.
  - by left.
Defined.

Lemma component_flag_read_as_parameter_witness :
  exists parsed_args st' parser,
    get_callable_parsed_args Sample.py_int Sample.py_float
      Sample.yaml_safe_load
      [("--agent.optimizer", "{name: Adam, kwargs: {}}")] (Fn Sample.Adam)
      (Some "agent.optimizer") Sample.config_state = (Ok parsed_args, st')
    /\ add_arguments ("agent.optimizer" +:+ ".") ["lr"] ArgumentParser
       = Ok parser
    /\ resolve_flag parser ("--" +:+ "agent.optimizer")
       = Resolved (StoreAction (("agent.optimizer" +:+ ".") +:+ "lr"))
    /\ is_Some (Dict.get "lr" parsed_args).
Proof.
  assert (exists parsed_args st',
            get_callable_parsed_args Sample.py_int Sample.py_float
              Sample.yaml_safe_load
              [("--agent.optimizer", "{name: Adam, kwargs: {}}")]
              (Fn Sample.Adam) (Some "agent.optimizer") Sample.config_state
            = (Ok parsed_args, st')) as (parsed_args & st' & Hrun).
  { eexists _, _. vm_compute. reflexivity. }
  destruct (component_flag_read_as_parameter Sample.py_int Sample.py_float
              Sample.yaml_safe_load
              [("--agent.optimizer", "{name: Adam, kwargs: {}}")]
              (Fn Sample.Adam) "agent.optimizer" "lr"
              "{name: Adam, kwargs: {}}" Sample.config_state parsed_args st')
    as (parser & H).
  - reflexivity.
  - reflexivity.
  - reflexivity.
  - reflexivity.
  - by left.
  - exact Hrun.
  - exists parsed_args, st', parser. split; [exact Hrun|exact H].
Defined.

(** * Properties of the gym environment wrapper *)

Section GymTurns.

Context {Env Obs Act Reward Info : Type}.
Variable env_reset : Env -> option Obs * Env.
Variable env_step : Env -> Act -> option (Obs * Reward * bool * Info) * Env.

Lemma step_Returns_inv (self : Gym.GymEnv Env) action o r d t i self' :
  Gym.step env_step self action = (Gym.Returns (o, r, d, t, i), self') ->
  Gym._num_players self <> 0
  /\ t = (Gym._turn self + 1) `mod` Gym._num_players self
  /\ Gym._turn self' = t
  /\ Gym._num_players self' = Gym._num_players self.
Proof.
  unfold Gym.step. destruct (env_step (Gym._env self) action) as [[v|] env'];
    [|done].
  destruct v as [[[o' r'] d'] i'].
  destruct (decide (Gym._num_players self = 0)); [done|].
  intros [= <- <- <- <- <- <-]. done.
Qed.

Lemma play_turns (actions : list Act) :
  forall (self : Gym.GymEnv Env) turns self',
    Gym.play env_step self actions = (Gym.Returns turns, self') ->
    Gym._num_players self' = Gym._num_players self
    /\ length turns = length actions
    /\ (forall i t,
          turns !! i = Some t ->
          t = (Gym._turn self + Z.of_nat i + 1) `mod` Gym._num_players self)
    /\ (actions <> [] ->
        Gym._num_players self <> 0
        /\ Gym._turn self'
           = (Gym._turn self + Z.of_nat (length actions))
             `mod` Gym._num_players self).
Proof.
  induction actions as [|action rest IH]; intros self turns self'.
  - intros [= <- <-]. split; [done|]. split; [done|]. split; [|done].
    intros i t Hi. by rewrite lookup_nil in Hi.
  - cbn [Gym.play].
    destruct (Gym.step env_step self action) as [[[[[[o r] d] t1] info]| |] self1]
      eqn:Hstep; [|done..].
    apply step_Returns_inv in Hstep as (Hn & Ht1 & Hturn1 & Hn1).
    destruct (Gym.play env_step self1 rest) as [[turns'| |] self2] eqn:Hplay;
      [|done..].
    intros [= <- <-].
    destruct (IH _ _ _ Hplay) as (Hn2 & Hlen & Hturns & Hlast).
    rewrite Hn1 in Hn2, Hturns, Hlast. rewrite Hturn1, Ht1 in Hturns, Hlast.
    split; [done|]. split; [cbn [length]; by rewrite Hlen|]. split.
    + intros [|i] t Hi.
      * injection Hi as <-. rewrite Ht1. f_equal. lia.
      * rewrite (Hturns i t Hi), <- Z.add_assoc, Zplus_mod_idemp_l.
        f_equal. lia.
    + intros _. split; [done|]. destruct rest as [|action' rest'].
      * injection Hplay as _ <-. rewrite Hturn1, Ht1. f_equal.
      * destruct Hlast as [_ ->]; [done|].
        rewrite Zplus_mod_idemp_l. f_equal. cbn [length]. lia.
Qed.

(** X19: the turn goes round the players.  When a non-empty sequence of
    [step] calls returns, the number of players is not zero and stays what
    it was, the call number [i] (from 0) returned the turn
    [(turn + i + 1) mod num_players], the environment ends with the turn
    [(turn + number of calls) mod num_players], and with a positive number
    of players every returned turn is a player index below it. *)
Theorem play_rotates_turns (self : Gym.GymEnv Env) actions turns self' :
  Gym.play env_step self actions = (Gym.Returns turns, self') ->
  actions <> [] ->
  Gym._num_players self <> 0
  /\ Gym._num_players self' = Gym._num_players self
  /\ length turns = length actions
  /\ (forall i t,
        turns !! i = Some t ->
        t = (Gym._turn self + Z.of_nat i + 1) `mod` Gym._num_players self
        /\ (0 < Gym._num_players self -> 0 <= t < Gym._num_players self))
  /\ Gym._turn self'
     = (Gym._turn self + Z.of_nat (length actions))
       `mod` Gym._num_players self.
Proof.
  intros Hplay Hne.
  destruct (play_turns _ _ _ _ Hplay) as (Hn & Hlen & Hturns & Hlast).
  destruct (Hlast Hne) as [Hnz Hfinal].
  do 3 (split; [done|]). split; [|done].
  intros i t Hi. rewrite (Hturns i t Hi). split; [done|].
  intros Hpos. by apply Z.mod_pos_bound.
Qed.

(** X20: [reset] does not restart the rotation.  Whatever the wrapped
    environment does, [reset] leaves the turn and the number of players as
    they are and reports the current turn; so after a non-empty sequence of
    [step] calls, a [reset] that returns reports the turn
    [(turn + number of calls) mod num_players] rather than the first
    player. *)
Theorem reset_keeps_turn (self : Gym.GymEnv Env) actions turns self1 r self2 :
  Gym.play env_step self actions = (Gym.Returns turns, self1) ->
  actions <> [] ->
  Gym.reset env_reset self1 = (r, self2) ->
  Gym._turn self2 = Gym._turn self1
  /\ Gym._num_players self2 = Gym._num_players self
  /\ forall observation turn,
       r = Gym.Returns (observation, turn) ->
       turn = (Gym._turn self + Z.of_nat (length actions))
              `mod` Gym._num_players self.
Proof.
  intros Hplay Hne Hreset.
  destruct (play_turns _ _ _ _ Hplay) as (Hn & _ & _ & Hlast).
  destruct (Hlast Hne) as [_ Hfinal].
  unfold Gym.reset in Hreset.
  destruct (env_reset (Gym._env self1)) as [[o|] env'];
    injection Hreset as <- <-; (split; [done|]); (split; [done|]).
  - by intros observation turn [= _ <-].
  - done.
Qed.

(** X21: with zero players no [step] returns.  The wrapped environment is
    stepped first, so when it accepts the action, [step] raises
    [ZeroDivisionError] with the environment advanced and the turn
    unchanged; an exception of the wrapped environment comes first in any
    case, whatever the number of players. *)
Theorem step_zero_players (self : Gym.GymEnv Env) action :
  Gym._num_players self = 0 ->
  let (r, env') := env_step (Gym._env self) action in
  Gym.step env_step self action
  = (match r with
     | Some _ => Gym.ZeroDivisionError
     | None => Gym.EnvRaises
     end,
     {| Gym._env := env'; Gym._turn := Gym._turn self;
        Gym._num_players := Gym._num_players self |})
  /\ forall rest,
       exists e self',
         Gym.play env_step self (action :: rest) = (e, self')
         /\ (forall turns, e <> Gym.Returns turns)
         /\ Gym._turn self' = Gym._turn self.
Proof.
  intros Hzero. unfold Gym.play, Gym.step.
  destruct (env_step (Gym._env self) action) as [[[[[o r] d] i]|] env'].
  - rewrite decide_True by done. split; [done|]. intros rest.
    destruct rest; eexists _, _; (split; [reflexivity|done]).
  - split; [done|]. intros rest.
    destruct rest; eexists _, _; (split; [reflexivity|done]).
Qed.

End GymTurns.

(** * Properties of the recurrent convolutional network *)

Lemma conv_seq_spec channels kernel_sizes strides paddings n :
  forall a layers,
    Rnn.conv_seq channels kernel_sizes strides paddings (seq a n) = Some layers ->
    length layers = (2 * n)%nat
    /\ forall j, (j < n)%nat ->
         exists cin cout k s p,
           channels !! (a + j)%nat = Some cin
           /\ channels !! S (a + j) = Some cout
           /\ kernel_sizes !! (a + j)%nat = Some k
           /\ strides !! (a + j)%nat = Some s
           /\ paddings !! (a + j)%nat = Some p
           /\ layers !! (2 * j)%nat = Some (Rnn.Conv2d cin cout k s p)
           /\ layers !! (2 * j + 1)%nat = Some Rnn.ReLU.
Proof.
  induction n as [|n IH]; intros a layers; cbn [seq Rnn.conv_seq].
  - intros [= <-]. split; [done|]. intros j Hj. lia.
  - destruct (channels !! a) as [cin|] eqn:Hcin; [|done].
    destruct (channels !! S a) as [cout|] eqn:Hcout; [|done].
    destruct (kernel_sizes !! a) as [k|] eqn:Hk; [|done].
    destruct (strides !! a) as [s|] eqn:Hs; [|done].
    destruct (paddings !! a) as [p|] eqn:Hp; [|done].
    destruct (Rnn.conv_seq channels kernel_sizes strides paddings (seq (S a) n))
      as [rest|] eqn:Hrest; [|done].
    intros [= <-]. destruct (IH _ _ Hrest) as [Hlen Hlayers].
    split; [cbn [length]; lia|].
    intros [|j] Hj.
    + exists cin, cout, k, s, p. rewrite Nat.add_0_r. done.
    + destruct (Hlayers j ltac:(lia))
        as (cin' & cout' & k' & s' & p' & H1 & H2 & H3 & H4 & H5 & H6 & H7).
      exists cin', cout', k', s', p'.
      replace (a + S j)%nat with (S a + j)%nat by lia.
      do 5 (split; [done|]).
      replace (2 * S j)%nat with (S (S (2 * j))) by lia.
      replace (S (S (2 * j)) + 1)%nat with (S (S (2 * j + 1))) by lia.
      done.
Qed.

Lemma conv_seq_total channels kernel_sizes strides paddings n :
  forall a,
    (a + n < length channels)%nat ->
    (a + n <= length kernel_sizes)%nat ->
    (a + n <= length strides)%nat ->
    (a + n <= length paddings)%nat ->
    is_Some (Rnn.conv_seq channels kernel_sizes strides paddings (seq a n)).
Proof.
  induction n as [|n IH]; intros a Hc Hk Hs Hp; cbn [seq Rnn.conv_seq];
    [eauto|].
  destruct (lookup_lt_is_Some_2 channels a ltac:(lia)) as [cin ->].
  destruct (lookup_lt_is_Some_2 channels (S a) ltac:(lia)) as [cout ->].
  destruct (lookup_lt_is_Some_2 kernel_sizes a ltac:(lia)) as [k ->].
  destruct (lookup_lt_is_Some_2 strides a ltac:(lia)) as [s ->].
  destruct (lookup_lt_is_Some_2 paddings a ltac:(lia)) as [p ->].
  destruct (IH (S a)) as [rest ->]; [lia..|]. eauto.
Qed.

Lemma conv_seq_shift c channels k kernel_sizes s strides p paddings n :
  forall a,
    Rnn.conv_seq (c :: channels) (k :: kernel_sizes) (s :: strides)
      (p :: paddings) (seq (S a) n)
    = Rnn.conv_seq channels kernel_sizes strides paddings (seq a n).
Proof.
  induction n as [|n IH]; intros a; cbn [seq Rnn.conv_seq]; [done|].
  rewrite IH. done.
Qed.

Lemma lengths_check kernel_sizes strides paddings n :
  forallb (fun x : list Z => Nat.eqb (length x) n)
    [Rnn.broadcast kernel_sizes n; Rnn.broadcast strides n;
     Rnn.broadcast paddings n] = true
  <-> Rnn.lengths_agree kernel_sizes strides paddings n.
Proof.
  unfold Rnn.lengths_agree. cbn [forallb]. rewrite !andb_true_iff.
  rewrite !Nat.eqb_eq. split.
  - intros (Hk & Hs & Hp & _) xs [-> | [-> | ->]]; done.
  - intros Hall. repeat split.
    + destruct kernel_sizes as [k|xs]; simpl;
        [apply length_replicate|apply Hall; eauto].
    + destruct strides as [k|xs]; simpl;
        [apply length_replicate|apply Hall; eauto].
    + destruct paddings as [k|xs]; simpl;
        [apply length_replicate|apply Hall; eauto].
Qed.

Lemma length_cons_pred {A} (x : A) (l : list A) :
  (length (x :: l) - 1)%nat = length l.
Proof. simpl. lia. Qed.

Section RnnInit.

Variable calculate_output_dim : Rnn.module -> list Z -> list Z.

Lemma init_rnn_mlp_inr in_dim mlp_layers normalization_factor rnn_type
    rnn_hidden_size num_rnn_layers noisy std_init conv net :
  Rnn.init_rnn_mlp calculate_output_dim in_dim mlp_layers normalization_factor
    rnn_type rnn_hidden_size num_rnn_layers noisy std_init conv = inr net ->
  Rnn.conv net = conv
  /\ Rnn._rnn_type net = rnn_type
  /\ Rnn._rnn_hidden_size net = rnn_hidden_size
  /\ Rnn._num_rnn_layers net = num_rnn_layers
  /\ ((rnn_type = "lstm"
       /\ Rnn.rnn net
          = Rnn.LSTM (Rnn.prod (calculate_output_dim conv in_dim))
              rnn_hidden_size num_rnn_layers)
      \/ (rnn_type = "gru"
          /\ Rnn.rnn net
             = Rnn.GRU (Rnn.prod (calculate_output_dim conv in_dim))
                 rnn_hidden_size num_rnn_layers)).
Proof.
  unfold Rnn.init_rnn_mlp.
  destruct (decide (rnn_type = "lstm")) as [->|Hl].
  - intros [= <-]. simpl. eauto 10.
  - destruct (decide (rnn_type = "gru")) as [->|Hg]; [|done].
    intros [= <-]. simpl. eauto 10.
Qed.

(** X22: the convolutional part that [__init__] builds.  When the
    constructor returns for a list [channels], the input has a first
    dimension [c0], the caller's list has become [c0] followed by its former
    elements, and [conv] is a sequence of twice as many layers as the list
    had elements: for each index [i], a convolution from element [i] of the
    extended list to element [i] of the former list, with the kernel size,
    stride and padding number [i] (the given number itself when an [int]
    was passed), followed by a ReLU.  So every convolution takes in what
    the one before puts out, the first one takes [c0], and no index is ever
    out of range. *)
Theorem init_conv_layers in_dim cs mlp_layers kernel_sizes strides paddings
    normalization_factor rnn_type rnn_hidden_size num_rnn_layers noisy
    std_init net channels' :
  Rnn.init calculate_output_dim in_dim (Some cs) mlp_layers kernel_sizes
    strides paddings normalization_factor rnn_type rnn_hidden_size
    num_rnn_layers noisy std_init = (inr net, channels') ->
  exists c0 layers,
    in_dim !! 0%nat = Some c0
    /\ channels' = Some (c0 :: cs)
    /\ Rnn.conv net = Rnn.Sequential layers
    /\ length layers = (2 * length cs)%nat
    /\ forall i cout,
         cs !! i = Some cout ->
         exists cin k s p,
           (c0 :: cs) !! i = Some cin
           /\ Rnn.broadcast kernel_sizes (length cs) !! i = Some k
           /\ Rnn.broadcast strides (length cs) !! i = Some s
           /\ Rnn.broadcast paddings (length cs) !! i = Some p
           /\ layers !! (2 * i)%nat = Some (Rnn.Conv2d cin cout k s p)
           /\ layers !! (2 * i + 1)%nat = Some Rnn.ReLU.
Proof.
  unfold Rnn.init. cbv zeta.
  destruct (negb _); [done|].
  destruct (in_dim !! 0%nat) as [c0|]; [|done].
  rewrite length_cons_pred.
  destruct (Rnn.conv_seq _ _ _ _ _) as [layers|] eqn:Hseq; [|done].
  intros [= Hnet <-].
  apply init_rnn_mlp_inr in Hnet as (Hconv & _).
  destruct (conv_seq_spec _ _ _ _ _ _ _ Hseq) as [Hlen Hlayers].
  exists c0, layers. do 4 (split; [done|]).
  intros i cout Hi.
  destruct (Hlayers i (lookup_lt_Some _ _ _ Hi))
    as (cin & cout' & k & s & p & H1 & H2 & H3 & H4 & H5 & H6 & H7).
  cbn [Nat.add] in *.
  assert (cout' = cout) as ->
    by (change (cs !! i = Some cout') in H2; congruence).
  exists cin, k, s, p. done.
Qed.

(** X23: the outcome of [__init__] for a list [channels] and an input
    with a first dimension [c0].  If a size argument is a list whose length
    differs from that of [channels], the constructor raises the
    [ValueError] about the lengths and leaves the caller's list alone (an
    [int] argument never causes this).  Otherwise the caller's list gets
    [c0] inserted in front, and then the constructor returns when the
    recurrent type is "lstm" or "gru" and raises [ValueError] naming the
    type when it is anything else: in that case the list stays modified. *)
Theorem init_outcome in_dim c0 cs mlp_layers kernel_sizes strides paddings
    normalization_factor rnn_type rnn_hidden_size num_rnn_layers noisy
    std_init :
  in_dim !! 0%nat = Some c0 ->
  let run :=
    Rnn.init calculate_output_dim in_dim (Some cs) mlp_layers kernel_sizes
      strides paddings normalization_factor rnn_type rnn_hidden_size
      num_rnn_layers noisy std_init in
  (~ Rnn.lengths_agree kernel_sizes strides paddings (length cs) ->
   run = (inl (Rnn.ValueError
                 "The lengths of the parameter lists must be the same"),
          Some cs))
  /\ (Rnn.lengths_agree kernel_sizes strides paddings (length cs) ->
      run.2 = Some (c0 :: cs)
      /\ (rnn_type = "lstm" \/ rnn_type = "gru" -> exists net, run.1 = inr net)
      /\ (rnn_type <> "lstm" -> rnn_type <> "gru" ->
          run.1 = inl (Rnn.ValueError ("Invalid rnn type: " +:+ rnn_type)))).
Proof.
  intros Hc0 run. unfold run, Rnn.init. cbv zeta. split.
  - intros Hbad. rewrite <- lengths_check in Hbad.
    apply not_true_is_false in Hbad. by rewrite Hbad.
  - intros Hok. pose proof Hok as Hcheck. rewrite <- lengths_check in Hcheck.
    rewrite Hcheck, Hc0. cbn [negb]. rewrite length_cons_pred.
    cbn [forallb] in Hcheck.
    rewrite !andb_true_iff, !Nat.eqb_eq in Hcheck.
    destruct Hcheck as (Hk & Hs & Hp & _).
    destruct (conv_seq_total (c0 :: cs)
                (Rnn.broadcast kernel_sizes (length cs))
                (Rnn.broadcast strides (length cs))
                (Rnn.broadcast paddings (length cs)) (length cs) 0)
      as [layers ->]; [cbn [length]; lia|lia..|].
    cbn [fst snd]. split; [done|]. unfold Rnn.init_rnn_mlp. split.
    + intros [-> | ->]; [rewrite decide_True by done; eauto|].
      rewrite decide_False by done. rewrite decide_True by done. eauto.
    + intros Hl Hg. by rewrite !decide_False.
Qed.

(** X24: a list of channels must not be used for two networks.  After a
    constructor call that returned, a second call on the same list object
    and otherwise the same arguments never builds the same network: when a
    size argument is a list, the second call raises the [ValueError] about
    the lengths, before any layer is built; when all three are [int], the
    second call, if it returns at all, returns a network with one more
    convolution in front, from the first input dimension to itself,
    followed by the layers of the first network, and leaves the list with
    the first input dimension inserted a second time. *)
Theorem init_twice_same_channels in_dim cs mlp_layers kernel_sizes strides
    paddings normalization_factor rnn_type rnn_hidden_size num_rnn_layers
    noisy std_init net channels' :
  Rnn.init calculate_output_dim in_dim (Some cs) mlp_layers kernel_sizes
    strides paddings normalization_factor rnn_type rnn_hidden_size
    num_rnn_layers noisy std_init = (inr net, channels') ->
  let again :=
    Rnn.init calculate_output_dim in_dim channels' mlp_layers kernel_sizes
      strides paddings normalization_factor rnn_type rnn_hidden_size
      num_rnn_layers noisy std_init in
  ((exists xs, kernel_sizes = Rnn.ListArg xs \/ strides = Rnn.ListArg xs
               \/ paddings = Rnn.ListArg xs) ->
   again = (inl (Rnn.ValueError
                   "The lengths of the parameter lists must be the same"),
            channels'))
  /\ (forall k s p net2 channels2,
        kernel_sizes = Rnn.IntArg k -> strides = Rnn.IntArg s ->
        paddings = Rnn.IntArg p ->
        again = (inr net2, channels2) ->
        exists c0 layers,
          in_dim !! 0%nat = Some c0
          /\ Rnn.conv net = Rnn.Sequential layers
          /\ channels2 = Some (c0 :: c0 :: cs)
          /\ Rnn.conv net2
             = Rnn.Sequential (Rnn.Conv2d c0 c0 k s p :: Rnn.ReLU :: layers)
          /\ Rnn.conv net2 <> Rnn.conv net).
Proof.
  intros Hrun again. pose proof Hrun as Hfirst. unfold Rnn.init in Hfirst.
  cbv zeta in Hfirst.
  destruct (negb _) eqn:Hcheck; [done|]. apply negb_false_iff in Hcheck.
  destruct (in_dim !! 0%nat) as [c0|] eqn:Hc0; [|done].
  rewrite length_cons_pred in Hfirst.
  destruct (Rnn.conv_seq _ _ _ _ _) as [layers|] eqn:Hseq; [|done].
  injection Hfirst as Hnet <-.
  apply lengths_check in Hcheck. split.
  - intros [xs Hxs]. unfold again, Rnn.init. cbv zeta.
    assert (forallb (fun x : list Z => Nat.eqb (length x) (length (c0 :: cs)))
              [Rnn.broadcast kernel_sizes (length (c0 :: cs));
               Rnn.broadcast strides (length (c0 :: cs));
               Rnn.broadcast paddings (length (c0 :: cs))] = false) as ->;
      [|done].
    apply not_true_is_false. intros Hagain%lengths_check.
    pose proof (Hcheck xs Hxs) as H1. pose proof (Hagain xs Hxs) as H2.
    cbn [length] in H2. lia.
  - intros k s p net2 channels2 -> -> -> Hagain. exists c0, layers.
    pose proof Hnet as (Hconv & Htype)%init_rnn_mlp_inr.
    unfold again, Rnn.init in Hagain. cbv zeta in Hagain.
    assert (forallb (fun x : list Z => Nat.eqb (length x) (length (c0 :: cs)))
              [Rnn.broadcast (Rnn.IntArg k) (length (c0 :: cs));
               Rnn.broadcast (Rnn.IntArg s) (length (c0 :: cs));
               Rnn.broadcast (Rnn.IntArg p) (length (c0 :: cs))] = true)
      as Hok.
    { apply lengths_check. intros xs [?|[?|?]]; done. }
    rewrite Hok, Hc0 in Hagain. cbn [negb] in Hagain.
    rewrite length_cons_pred in Hagain.
    cbn [length Rnn.broadcast replicate seq Rnn.conv_seq] in Hseq, Hagain.
    change ((c0 :: c0 :: cs) !! 0%nat) with (Some c0) in Hagain.
    change ((c0 :: c0 :: cs) !! 1%nat) with (Some c0) in Hagain.
    change ((k :: replicate (length cs) k) !! 0%nat) with (Some k) in Hagain.
    change ((s :: replicate (length cs) s) !! 0%nat) with (Some s) in Hagain.
    change ((p :: replicate (length cs) p) !! 0%nat) with (Some p) in Hagain.
    rewrite conv_seq_shift, Hseq in Hagain.
    injection Hagain as Hnet2 <-.
    apply init_rnn_mlp_inr in Hnet2 as (Hconv2 & _).
    do 3 (split; [done|]). split; [done|].
    rewrite Hconv, Hconv2. intros [= Hlayers].
    apply (f_equal length) in Hlayers. cbn [length] in Hlayers. lia.
Qed.

(** X25: the hidden state fits the recurrent layer.  Every network that
    [__init__] returned has the recurrent type "lstm" with an LSTM layer or
    "gru" with a GRU layer, so [init_hidden] never leaves the state
    unbound.  For a batch size, a number of recurrent layers and a hidden
    size that are not negative it returns zero tensors of the shape (number
    of recurrent layers, batch size, hidden size) with which the layer was
    built: a pair of them for the LSTM layer, a single one for the GRU
    layer.  When one of the three numbers is negative, creating the tensor
    raises [RuntimeError]. *)
Theorem init_hidden_fits in_dim channels mlp_layers kernel_sizes strides
    paddings normalization_factor rnn_type rnn_hidden_size num_rnn_layers
    noisy std_init net channels' batch_size :
  Rnn.init calculate_output_dim in_dim channels mlp_layers kernel_sizes
    strides paddings normalization_factor rnn_type rnn_hidden_size
    num_rnn_layers noisy std_init = (inr net, channels') ->
  let shape := [num_rnn_layers; batch_size; rnn_hidden_size] in
  let input_size := Rnn.prod (calculate_output_dim (Rnn.conv net) in_dim) in
  ((rnn_type = "lstm"
    /\ Rnn.rnn net = Rnn.LSTM input_size rnn_hidden_size num_rnn_layers
    /\ (0 <= num_rnn_layers -> 0 <= batch_size -> 0 <= rnn_hidden_size ->
        Rnn.init_hidden net batch_size = inr (Rnn.LSTMState shape shape)))
   \/ (rnn_type = "gru"
       /\ Rnn.rnn net = Rnn.GRU input_size rnn_hidden_size num_rnn_layers
       /\ (0 <= num_rnn_layers -> 0 <= batch_size -> 0 <= rnn_hidden_size ->
           Rnn.init_hidden net batch_size = inr (Rnn.GRUState shape))))
  /\ (num_rnn_layers < 0 \/ batch_size < 0 \/ rnn_hidden_size < 0 ->
      Rnn.init_hidden net batch_size = inl Rnn.RuntimeError).
Proof.
  intros Hrun shape input_size.
  assert (exists conv,
    Rnn.init_rnn_mlp calculate_output_dim in_dim mlp_layers
      normalization_factor rnn_type rnn_hidden_size num_rnn_layers noisy
      std_init conv = inr net) as [conv Hnet].
  { unfold Rnn.init in Hrun. cbv zeta in Hrun. destruct channels as [cs|].
    - destruct (negb _); [done|].
      destruct (in_dim !! 0%nat); [|done].
      destruct (Rnn.conv_seq _ _ _ _ _); [|done].
      injection Hrun as Hnet _. eauto.
    - injection Hrun as Hnet _. eauto. }
  apply init_rnn_mlp_inr in Hnet as (Hconv & Htype & Hhs & Hnl & Hrnn).
  assert (0 <= num_rnn_layers -> 0 <= batch_size -> 0 <= rnn_hidden_size ->
          Rnn.zeros shape = inr shape) as Hzeros.
  { intros H1 H2 H3. unfold Rnn.zeros, shape. cbn [forallb].
    by rewrite !(proj2 (Z.leb_le _ _)). }
  assert (num_rnn_layers < 0 \/ batch_size < 0 \/ rnn_hidden_size < 0 ->
          Rnn.zeros shape = inl Rnn.RuntimeError) as Hneg.
  { intros Hbad. unfold Rnn.zeros, shape. cbn [forallb].
    destruct (0 <=? num_rnn_layers) eqn:E1;
      destruct (0 <=? batch_size) eqn:E2;
      destruct (0 <=? rnn_hidden_size) eqn:E3; try done.
    apply Z.leb_le in E1, E2, E3. lia. }
  unfold input_size, Rnn.init_hidden. rewrite Hconv, Htype, Hhs, Hnl.
  fold shape. split.
  - destruct Hrnn as [[-> Hr]|[-> Hr]]; [left|right];
      (split; [done|]); (split; [done|]); intros H1 H2 H3;
      rewrite (Hzeros H1 H2 H3); done.
  - intros Hbad. rewrite (Hneg Hbad).
    destruct Hrnn as [[-> _]|[-> _]]; done.
Qed.

End RnnInit.

(** * Properties of the registrations of the networks *)

Lemma register_all_succeeds base_class class_dict :
  is_registrable base_class = true -> is_Some (cls_type_name base_class) ->
  forall self, exists self', register_all base_class class_dict self = Ok self'.
Proof.
  intros Hreg [tn Htn].
  induction class_dict as [|[name c] rest IH]; intros self; [by eexists|].
  cbn [register_all]. unfold register. rewrite Hreg, Htn. cbn [negb].
  apply IH.
Qed.

Lemma register_all_first_getter base_class tn name0 c0 rest self self' :
  cls_type_name base_class = Some tn ->
  register_all base_class ((name0, c0) :: rest) self = Ok self' ->
  is_registrable base_class = true
  /\ getters self'
     = match _registry self !! tn with
       | Some _ => getters self
       | None =>
           <["get_" +:+ tn :=
               {| g_type := base_class; g_constructor := c0 |}]> (getters self)
       end.
Proof.
  intros Htn Hall. cbn [register_all] in Hall.
  destruct (register name0 c0 base_class self) as [self1| |] eqn:Hreg;
    try done.
  apply register_Ok_inv in Hreg as (Hregistrable & tn0 & Htn0 & Hreg1 & Hg1).
  assert (tn0 = tn) as -> by congruence.
  destruct (register_all_tables _ _ _ Htn _ _ Hall) as (_ & _ & Hkeep).
  destruct Hkeep as [Hg _].
  { rewrite Hreg1, lookup_insert_eq. eauto. }
  split; [done|]. by rewrite Hg, Hg1.
Qed.

(** X26: importing the package of the networks.  On a registry built by
    registrations, the module's [register_all] succeeds exactly when
    [FunctionApproximator] derives from [Registrable] and defines its type
    name.  Then the family holds the four network names, each bound to a
    wrapper of its network; the attribute that [get_qnet] reads exists; and
    when the family was new, the closure behind [get_qnet] has captured the
    wrapper of [MLPNetwork], the first entry, for the networks of all four
    names. *)
Theorem qnets_registration FunctionApproximator MLPNetwork ConvNetwork
    ConvRNNNetwork NatureAtariDQNModel registry :
  populated registry ->
  ((exists registry',
      qnets_register_all FunctionApproximator MLPNetwork ConvNetwork
        ConvRNNNetwork NatureAtariDQNModel registry = Ok registry')
   <-> is_registrable FunctionApproximator = true
       /\ is_Some (cls_type_name FunctionApproximator))
  /\ forall registry',
       qnets_register_all FunctionApproximator MLPNetwork ConvNetwork
         ConvRNNNetwork NatureAtariDQNModel registry = Ok registry' ->
       exists tn table g,
         cls_type_name FunctionApproximator = Some tn
         /\ _registry registry' !! tn = Some table
         /\ table !! "MLPNetwork"
            = Some (Wrapper FunctionApproximator (Fn MLPNetwork))
         /\ table !! "ConvNetwork"
            = Some (Wrapper FunctionApproximator (Fn ConvNetwork))
         /\ table !! "ConvRNNNetwork"
            = Some (Wrapper FunctionApproximator (Fn ConvRNNNetwork))
         /\ table !! "NatureAtariDQNModel"
            = Some (Wrapper FunctionApproximator (Fn NatureAtariDQNModel))
         /\ get_qnet FunctionApproximator registry' = Ok g
         /\ (_registry registry !! tn = None ->
             g = {| g_type := FunctionApproximator;
                    g_constructor :=
                      Wrapper FunctionApproximator (Fn MLPNetwork) |}).
Proof.
  intros Hpop. unfold qnets_register_all. split.
  - split.
    + intros [registry' Hall]. cbn [register_all] in Hall.
      destruct (register _ _ _ registry) as [r1| |] eqn:Hreg; try done.
      apply register_Ok_inv in Hreg as (Hregistrable & tn & Htn & _).
      split; [done|eauto].
    + intros [Hregistrable Htn]. by apply register_all_succeeds.
  - intros registry' Hall.
    assert (is_Some (cls_type_name FunctionApproximator)) as [tn Htn].
    { cbn [register_all] in Hall.
      destruct (register _ _ _ registry) as [r1| |] eqn:Hreg; try done.
      apply register_Ok_inv in Hreg as (_ & tn & Htn & _). eauto. }
    destruct (register_all_tables _ _ _ Htn _ _ Hall) as (_ & Hnames & _).
    pose proof (register_all_first_getter _ _ _ _ _ _ _ Htn Hall)
      as [_ Hgetters].
    pose proof (register_all_populated _ _ _ _ Hpop Hall) as Hpop'.
    destruct (_registry registry' !! tn) as [table|] eqn:Htable.
    2:{ specialize (Hnames "MLPNetwork"). cbn [default] in Hnames.
        rewrite lookup_empty in Hnames. vm_compute in Hnames. done. }
    cbn [default] in Hnames.
    destruct (populated_getters_installed _ Hpop' _ _ Htable)
      as (g & Hg & _).
    exists tn, table, g. split; [done|]. split; [done|].
    do 4 (split; [rewrite Hnames; vm_compute; reflexivity|]).
    split; [unfold get_qnet; by rewrite Htn, Hg|].
    intros Hnew. rewrite Hgetters, Hnew, lookup_insert_eq in Hg.
    by injection Hg as <-.
Qed.

(** * The properties of the wrapper and of the network, on examples *)

Lemma play_rotates_turns_witness :
  let env_step :=
    fun (e : nat) (_ : unit) => (Some (e, 1, false, tt), S e) in
  let self := {| Gym._env := 0%nat; Gym._turn := 0; Gym._num_players := 2 |} in
  let self' := {| Gym._env := 3%nat; Gym._turn := 1; Gym._num_players := 2 |} in
  let turns := [1; 0; 1] in
  Gym.play env_step self [tt; tt; tt] = (Gym.Returns turns, self')
  /\ Gym._num_players self <> 0
  /\ Gym._num_players self' = Gym._num_players self
  /\ length turns = length [tt; tt; tt]
  /\ (forall i t,
        turns !! i = Some t ->
        t = (Gym._turn self + Z.of_nat i + 1) `mod` Gym._num_players self
        /\ (0 < Gym._num_players self -> 0 <= t < Gym._num_players self))
  /\ Gym._turn self'
     = (Gym._turn self + Z.of_nat (length [tt; tt; tt]))
       `mod` Gym._num_players self.
Proof.
  intros env_step self self' turns.
  assert (Gym.play env_step self [tt; tt; tt] = (Gym.Returns turns, self'))
    as Hplay by (vm_compute; reflexivity).
  split; [exact Hplay|].
  apply (play_rotates_turns env_step self [tt; tt; tt] turns self' Hplay).
  done.
Defined.

Lemma reset_keeps_turn_witness :
  let env_reset := fun _ : nat => (Some 0%nat, 0%nat) in
  let env_step :=
    fun (e : nat) (_ : unit) => (Some (e, 1, false, tt), S e) in
  let self := {| Gym._env := 0%nat; Gym._turn := 0; Gym._num_players := 2 |} in
  let self1 := {| Gym._env := 3%nat; Gym._turn := 1; Gym._num_players := 2 |} in
  let self2 := {| Gym._env := 0%nat; Gym._turn := 1; Gym._num_players := 2 |} in
  Gym.reset env_reset self1 = (Gym.Returns (0%nat, 1), self2)
  /\ Gym._turn self2 = Gym._turn self1
  /\ Gym._num_players self2 = Gym._num_players self
  /\ forall observation turn,
       Gym.Returns (0%nat, 1) = Gym.Returns (observation, turn) ->
       turn = (Gym._turn self + Z.of_nat (length [tt; tt; tt]))
              `mod` Gym._num_players self.
Proof.
  intros env_reset env_step self self1 self2.
  split; [reflexivity|].
  apply (reset_keeps_turn env_reset env_step self [tt; tt; tt] [1; 0; 1]
           self1 (Gym.Returns (0%nat, 1)) self2).
  - vm_compute. reflexivity.
  - done.
  - reflexivity.
Defined.

Lemma step_zero_players_witness :
  let env_step :=
    fun (e : nat) (_ : unit) => (Some (e, 1, false, tt), S e) in
  let self := {| Gym._env := 0%nat; Gym._turn := 0; Gym._num_players := 0 |} in
  Gym.step env_step self tt
  = (Gym.ZeroDivisionError,
     {| Gym._env := 1%nat; Gym._turn := 0; Gym._num_players := 0 |})
  /\ forall rest,
       exists e self',
         Gym.play env_step self (tt :: rest) = (e, self')
         /\ (forall turns, e <> Gym.Returns turns)
         /\ Gym._turn self' = Gym._turn self.
Proof.
  intros env_step self.
  apply (step_zero_players env_step self tt). reflexivity.
Defined.

Lemma init_conv_layers_witness :
  let calculate_output_dim := fun (_ : Rnn.module) (in_dim : list Z) => in_dim in
  exists net channels',
    Rnn.init calculate_output_dim [4; 84; 84] (Some [32; 64]) None
      (Rnn.ListArg [8; 4]) (Rnn.IntArg 2) (Rnn.IntArg 0) 255 "lstm" 128 1
      false (QArith_base.Qmake 1 2) = (inr net, channels')
    /\ channels' = Some [4; 32; 64]
    /\ Rnn.conv net
       = Rnn.Sequential [Rnn.Conv2d 4 32 8 2 0; Rnn.ReLU;
                         Rnn.Conv2d 32 64 4 2 0; Rnn.ReLU].
Proof.
  intros calculate_output_dim.
  assert (exists net channels',
            Rnn.init calculate_output_dim [4; 84; 84] (Some [32; 64]) None
              (Rnn.ListArg [8; 4]) (Rnn.IntArg 2) (Rnn.IntArg 0) 255 "lstm"
              128 1 false (QArith_base.Qmake 1 2) = (inr net, channels'))
    as (net & channels' & Hrun).
  { eexists _, _. vm_compute. reflexivity. }
  exists net, channels'. split; [exact Hrun|].
  destruct (init_conv_layers _ _ _ _ _ _ _ _ _ _ _ _ _ _ _ Hrun)
    as (c0 & layers & Hc0 & -> & Hconv & Hlen & Hlayers).
  injection Hc0 as <-. split; [reflexivity|]. rewrite Hconv. f_equal.
  destruct (Hlayers 0%nat 32 eq_refl)
    as (cin0 & k0 & s0 & p0 & E1 & E2 & E3 & E4 & L0 & L1).
  destruct (Hlayers 1%nat 64 eq_refl)
    as (cin1 & k1 & s1 & p1 & F1 & F2 & F3 & F4 & L2 & L3).
  injection E1 as <-. injection E2 as <-. injection E3 as <-.
  injection E4 as <-. injection F1 as <-. injection F2 as <-.
  injection F3 as <-. injection F4 as <-.
  destruct layers as [|l0 [|l1 [|l2 [|l3 [|l4 rest]]]]]; try done.
  injection L0 as ->. injection L1 as ->. injection L2 as ->.
  injection L3 as ->. done.
Defined.

Lemma init_outcome_witness :
  let calculate_output_dim := fun (_ : Rnn.module) (in_dim : list Z) => in_dim in
  let run :=
    Rnn.init calculate_output_dim [4; 84; 84] (Some [32; 64]) None
      (Rnn.ListArg [8; 4; 3]) (Rnn.IntArg 2) (Rnn.IntArg 0) 255 "rnn" 128 1
      false (QArith_base.Qmake 1 2) in
  (~ Rnn.lengths_agree (Rnn.ListArg [8; 4; 3]) (Rnn.IntArg 2) (Rnn.IntArg 0)
       (length [32; 64]) ->
   run = (inl (Rnn.ValueError
                 "The lengths of the parameter lists must be the same"),
          Some [32; 64]))
  /\ (Rnn.lengths_agree (Rnn.ListArg [8; 4; 3]) (Rnn.IntArg 2) (Rnn.IntArg 0)
        (length [32; 64]) ->
      run.2 = Some [4; 32; 64]
      /\ ("rnn" = "lstm" \/ "rnn" = "gru" -> exists net, run.1 = inr net)
      /\ ("rnn" <> "lstm" -> "rnn" <> "gru" ->
          run.1 = inl (Rnn.ValueError ("Invalid rnn type: " +:+ "rnn")))).
Proof.
  intros calculate_output_dim.
  apply (init_outcome calculate_output_dim [4; 84; 84] 4 [32; 64]).
  reflexivity.
Defined.

Lemma init_twice_same_channels_witness :
  let calculate_output_dim := fun (_ : Rnn.module) (in_dim : list Z) => in_dim in
  exists net net2,
    Rnn.init calculate_output_dim [4; 84; 84] (Some [32; 64]) None
      (Rnn.IntArg 3) (Rnn.IntArg 2) (Rnn.IntArg 0) 255 "gru" 128 1
      false (QArith_base.Qmake 1 2) = (inr net, Some [4; 32; 64])
    /\ Rnn.init calculate_output_dim [4; 84; 84] (Some [4; 32; 64]) None
         (Rnn.IntArg 3) (Rnn.IntArg 2) (Rnn.IntArg 0) 255 "gru" 128 1
         false (QArith_base.Qmake 1 2) = (inr net2, Some [4; 4; 32; 64])
    /\ exists layers,
         Rnn.conv net = Rnn.Sequential layers
         /\ Rnn.conv net2
            = Rnn.Sequential (Rnn.Conv2d 4 4 3 2 0 :: Rnn.ReLU :: layers)
         /\ Rnn.conv net2 <> Rnn.conv net.
Proof.
  intros calculate_output_dim.
  assert (exists net,
            Rnn.init calculate_output_dim [4; 84; 84] (Some [32; 64]) None
              (Rnn.IntArg 3) (Rnn.IntArg 2) (Rnn.IntArg 0) 255 "gru" 128 1
              false (QArith_base.Qmake 1 2) = (inr net, Some [4; 32; 64]))
    as (net & Hrun).
  { eexists. vm_compute. reflexivity. }
  assert (exists net2,
            Rnn.init calculate_output_dim [4; 84; 84] (Some [4; 32; 64]) None
              (Rnn.IntArg 3) (Rnn.IntArg 2) (Rnn.IntArg 0) 255 "gru" 128 1
              false (QArith_base.Qmake 1 2) = (inr net2, Some [4; 4; 32; 64]))
    as (net2 & Hagain).
  { eexists. vm_compute. reflexivity. }
  destruct (init_twice_same_channels _ _ _ _ _ _ _ _ _ _ _ _ _ _ _ Hrun)
    as [_ Hints].
  destruct (Hints 3 2 0 net2 _ eq_refl eq_refl eq_refl Hagain)
    as (c0 & layers & Hc0 & Hconv & _ & Hconv2 & Hdiff).
  injection Hc0 as <-.
  exists net, net2. split; [exact Hrun|]. split; [exact Hagain|].
  exists layers. split; [exact Hconv|]. split; [exact Hconv2|exact Hdiff].
Defined.

Lemma init_hidden_fits_witness :
  let calculate_output_dim := fun (_ : Rnn.module) (in_dim : list Z) => in_dim in
  exists net,
    Rnn.init calculate_output_dim [4; 84; 84] None (Some [64]) (Rnn.IntArg 1)
      (Rnn.IntArg 1) (Rnn.IntArg 0) 255 "gru" 128 2 false
      (QArith_base.Qmake 1 2) = (inr net, None)
    /\ Rnn.rnn net = Rnn.GRU (4 * 84 * 84) 128 2
    /\ Rnn.init_hidden net 32 = inr (Rnn.GRUState [2; 32; 128])
    /\ Rnn.init_hidden net (-1) = inl Rnn.RuntimeError.
Proof.
  intros calculate_output_dim.
  assert (exists net,
            Rnn.init calculate_output_dim [4; 84; 84] None (Some [64])
              (Rnn.IntArg 1) (Rnn.IntArg 1) (Rnn.IntArg 0) 255 "gru" 128 2
              false (QArith_base.Qmake 1 2) = (inr net, None)) as (net & Hrun).
  { eexists. vm_compute. reflexivity. }
  exists net. split; [exact Hrun|].
  destruct (init_hidden_fits _ _ _ _ _ _ _ _ _ _ _ _ _ _ _ 32 Hrun)
    as [[(Habs & _)|(_ & Hrnn & Hhidden)] _]; [done|].
  destruct (init_hidden_fits _ _ _ _ _ _ _ _ _ _ _ _ _ _ _ (-1) Hrun)
    as [_ Hneg].
  split; [rewrite Hrnn; reflexivity|].
  split; [apply Hhidden; lia|]. apply Hneg. lia.
Defined.

Lemma qnets_registration_witness :
  let MLPNetwork := PyFunc "MLPNetwork" [Param "in_dim" Ann_empty] in
  let ConvNetwork := PyFunc "ConvNetwork" [Param "in_dim" Ann_empty] in
  let Atari := PyFunc "NatureAtariDQNModel" [Param "in_dim" Ann_empty] in
  ((exists registry',
      qnets_register_all Sample.FunctionApproximator MLPNetwork ConvNetwork
        Sample.ConvRNNNetwork Atari Registry_init = Ok registry')
   <-> is_registrable Sample.FunctionApproximator = true
       /\ is_Some (cls_type_name Sample.FunctionApproximator))
  /\ forall registry',
       qnets_register_all Sample.FunctionApproximator MLPNetwork ConvNetwork
         Sample.ConvRNNNetwork Atari Registry_init = Ok registry' ->
       exists tn table g,
         cls_type_name Sample.FunctionApproximator = Some tn
         /\ _registry registry' !! tn = Some table
         /\ table !! "MLPNetwork"
            = Some (Wrapper Sample.FunctionApproximator (Fn MLPNetwork))
         /\ table !! "ConvNetwork"
            = Some (Wrapper Sample.FunctionApproximator (Fn ConvNetwork))
         /\ table !! "ConvRNNNetwork"
            = Some (Wrapper Sample.FunctionApproximator
                      (Fn Sample.ConvRNNNetwork))
         /\ table !! "NatureAtariDQNModel"
            = Some (Wrapper Sample.FunctionApproximator (Fn Atari))
         /\ get_qnet Sample.FunctionApproximator registry' = Ok g
         /\ (_registry Registry_init !! tn = None ->
             g = {| g_type := Sample.FunctionApproximator;
                    g_constructor :=
                      Wrapper Sample.FunctionApproximator (Fn MLPNetwork) |}).
Proof.
  intros MLPNetwork ConvNetwork Atari.
  apply qnets_registration. constructor.
Defined.

(** * The engine follows the first registered constructor *)

Section FirstRegistered.

Variable py_int : string -> option Z.
Variable py_float : string -> option QArith_base.Q.
Variable yaml_safe_load : string -> option data.
Variable invoke : pyfunc -> list value -> dict -> gmap loc dict -> result value.
Variable argv : list (string * string).
Variable registry : Registry.

(** X27: whether nested fragments are resolved is decided by the first
    constructor registered in the family, not by the selected variant.
    When the constructor that the getter captured declares no parameter of
    a [Registrable] class, resolving a fragment of any registered variant
    is just the call of that variant on the kwargs merged with the
    overrides: every entry of the kwargs without an override, a nested
    fragment included, reaches the variant as it stands, whatever the
    variant's own signature declares, and a plain variant is the only
    constructor invoked. *)
Theorem get_follows_first_registered fuel tn g table lf frag name lk kw
    object_class prefix st parsed_args st1 :
  populated registry ->
  _registry registry !! tn = Some table ->
  getters registry !! ("get_" +:+ tn) = Some g ->
  table !! name = Some object_class ->
  (forall p, p ∈ signature (g_constructor g) ->
             registrable_annotation (p_annotation p) = None) ->
  wf st ->
  heap st !! lf = Some frag ->
  Dict.get "name" frag = Some (VStr name) ->
  Dict.get "kwargs" frag = Some (VDict lk) ->
  heap st !! lk = Some kw ->
  get_callable_parsed_args py_int py_float yaml_safe_load argv object_class
    prefix st = (Ok parsed_args, st1) ->
  let merged := Dict.update kw parsed_args in
  let st2 := set_heap (<[lk := merged]> (heap st1)) st1 in
  let run :=
    get py_int py_float yaml_safe_load invoke argv registry (S fuel) tn
      (VDict lf) prefix st in
  run = call invoke object_class [] merged st2
  /\ (forall k v,
        Dict.get k parsed_args = None -> Dict.get k kw = Some v ->
        Dict.get k merged = Some v)
  /\ (forall f,
        object_class = Fn f ->
        run.1 = invoke f [] merged (heap st2)
        /\ calls run.2 = calls st ++ [Invocation f [] merged]).
Proof.
  intros Hpop Htable Hg Hoc Hflat Hwf Hfrag Hname Hkw Hd Hpa merged st2 run.
  destruct (populated_getters_installed _ Hpop _ _ Htable) as (g' & Hg' & Htn).
  assert (g' = g) as -> by congruence.
  assert (run = call invoke object_class [] merged st2) as Hrun.
  { unfold run. rewrite (get_unfold _ _ _ _ _ _ _ _ _ _ _ _ Hg).
    by apply (getter_flat py_int py_float yaml_safe_load invoke argv registry
                fuel g lf frag name lk kw object_class table tn prefix st
                parsed_args st1). }
  split; [exact Hrun|]. split.
  - intros k v Hnone Hv. unfold merged.
    rewrite dict_update_get by (by eapply get_callable_parsed_args_NoDup).
    by rewrite Hnone.
  - intros f ->. rewrite Hrun. cbn [call fst snd calls]. split; [done|].
    f_equal. unfold st2. cbn [set_heap calls].
    unfold get_callable_parsed_args in Hpa.
    apply (only_extends_get_parsed_args _ _ _ _ (fun _ => False)) in Hpa
      as ((new & Hcalls & Hnew) & _).
    destruct new as [|i new]; [by rewrite app_nil_r in Hcalls|].
    by apply Forall_cons in Hnew as [[] _].
Qed.

End FirstRegistered.

Lemma get_follows_first_registered_witness :
  let argv := [("--agent.gamma", "3.5")] in
  let kw := [("optimizer", VDict 2%nat); ("gamma", VInt 1)] in
  let merged := [("optimizer", VDict 2%nat); ("gamma", VFloat (QArith_base.Qmake 7 2))] in
  let run :=
    get Sample.py_int Sample.py_float Sample.yaml_safe_load Sample.invoke argv
      Sample.registry 1 "agent" (VDict 0%nat) (Some "agent")
      Sample.config_state in
  Dict.get "optimizer" merged = Some (VDict 2%nat)
  /\ run.1 = Sample.invoke Sample.DQNAgent [] merged
               (<[1%nat := merged]> Sample.config_heap)
  /\ calls run.2 = [Invocation Sample.DQNAgent [] merged].
Proof.
  intros argv kw merged run.
  destruct (get_follows_first_registered Sample.py_int Sample.py_float
              Sample.yaml_safe_load Sample.invoke argv Sample.registry 0
              "agent"
              {| g_type := Sample.Agent; g_constructor := Fn Sample.RandomAgent |}
              (<["RandomAgent" := Fn Sample.RandomAgent]>
                 (<["DQNAgent" := Fn Sample.DQNAgent]> ∅))
              0%nat [("name", VStr "DQNAgent"); ("kwargs", VDict 1%nat)]
              "DQNAgent" 1%nat kw (Fn Sample.DQNAgent) (Some "agent")
              Sample.config_state
              [("gamma", VFloat (QArith_base.Qmake 7 2))] Sample.config_state)
    as (_ & Hkeep & Hplain).
  - exact sample_registry_populated.
  - vm_compute. reflexivity.
  - vm_compute. reflexivity.
  - vm_compute. reflexivity.
  - intros p Hp. simpl in Hp. apply list_elem_of_singleton in Hp as ->. done.
  - exact (proj1 config_state_region).
  - vm_compute. reflexivity.
  - vm_compute. reflexivity.
  - vm_compute. reflexivity.
  - vm_compute. reflexivity.
  - vm_compute. reflexivity.
  - destruct (Hplain Sample.DQNAgent eq_refl) as [Hres Hcalls].
    split; [vm_compute; reflexivity|]. split; [exact Hres|exact Hcalls].
Defined.

(** * The overrides, in terms of the flags of the override set *)

Lemma flag_of_inj prefix a b : flag_of prefix a = flag_of prefix b -> a = b.
Proof.
  unfold flag_of. intros Heq. apply (append_inj_r "--") in Heq.
  by apply append_inj_r in Heq.
Qed.

Lemma dict_get_of_elem {V} k (v : V) d :
  NoDup (Dict.keys d) -> (k, v) ∈ d -> Dict.get k d = Some v.
Proof.
  induction d as [|[k0 v0] d IH]; simpl.
  - intros _ Hin. by apply elem_of_nil in Hin.
  - intros [Hk0 Hd]%NoDup_cons [[= -> ->]|Hin]%elem_of_cons.
    + by rewrite decide_True.
    + rewrite decide_False; [by apply IH|].
      intros ->. apply Hk0. apply list_elem_of_fmap. by exists (k, v).
Qed.

Lemma default_namespace_NoDup parser :
  NoDup (Dict.keys (default_namespace parser)).
Proof.
  unfold default_namespace.
  assert (forall acc : list (string * option string),
    NoDup (Dict.keys acc) ->
    NoDup (Dict.keys (fold_left
      (fun ns (oa : string * action) =>
         match oa.2 with
         | StoreAction dest =>
             if Dict.mem dest ns then ns else ns ++ [(dest, None)]
         | HelpAction => ns
         end) parser acc))) as Hgen.
  { induction parser as [|[o act] rest IH]; intros acc Hacc; simpl; [done|].
    apply IH. destruct act as [dest|]; [|done].
    destruct (Dict.mem dest acc) eqn:Hmem; [done|].
    unfold Dict.keys. rewrite fmap_app. apply NoDup_app. split; [done|].
    split; [|apply NoDup_singleton].
    intros k Hk Hk'. apply list_elem_of_singleton in Hk'. simpl in Hk'.
    subst k. apply dict_keys_get in Hk as [v Hv]. unfold Dict.mem in Hmem.
    by rewrite Hv in Hmem. }
  apply Hgen. apply NoDup_nil_2.
Qed.

Lemma parse_args_NoDup parser argv :
  forall ns ns',
    NoDup (Dict.keys ns) -> parse_args parser argv ns = Ok ns' ->
    NoDup (Dict.keys ns').
Proof.
  induction argv as [|[typed text] rest IH]; intros ns ns' Hnd; simpl.
  - by intros [= <-].
  - destruct (resolve_flag parser typed) as [[dest|]| |]; try done.
    + apply IH. by apply dict_set_NoDup.
    + by apply IH.
Qed.

Lemma last_supplied_app parser argv1 argv2 dest :
  last_supplied parser (argv1 ++ argv2) dest
  = match last_supplied parser argv2 dest with
    | Some t => Some t
    | None => last_supplied parser argv1 dest
    end.
Proof.
  induction argv1 as [|[typed text] rest IH]; simpl.
  - by destruct (last_supplied parser argv2 dest).
  - rewrite IH. by destruct (last_supplied parser argv2 dest).
Qed.

Lemma parse_args_no_exit parser argv ns ns' typed text :
  parse_args parser argv ns = Ok ns' ->
  (typed, text) ∈ argv ->
  resolve_flag parser typed <> Ambiguous
  /\ resolve_flag parser typed <> Resolved HelpAction.
Proof.
  intros Hparse Hin.
  split; intros Hres;
    destruct (parse_args_exits parser argv typed text Hin
                ltac:(rewrite Hres; eauto) ns) as [code Hexit];
    congruence.
Qed.

Lemma coerce_all_get py_int py_float yaml_safe_load arguments parsed_args :
  forall st result st' a text,
    coerce_all py_int py_float yaml_safe_load arguments parsed_args st
    = (Ok result, st') ->
    Dict.get a parsed_args = Some text ->
    exists e sa sb v,
      Dict.get a arguments = Some e
      /\ coerce py_int py_float yaml_safe_load e text sa = (Ok v, sb)
      /\ Dict.get a result = Some v.
Proof.
  induction parsed_args as [|[k t] rest IH]; intros st result st' a text;
    simpl; [done|].
  destruct (Dict.get k arguments) as [e|] eqn:He; [|done].
  intros (v0 & sa & Hv0 & Hrun)%bind_Ok_inv.
  apply bind_Ok_inv in Hrun as (r & sb & Hrest & Hret).
  injection Hret as <- <-. simpl.
  destruct (decide (k = a)) as [->|Hne].
  - intros [= ->]. exists e, st, sa, v0. done.
  - intros Hget. by eapply IH.
Qed.

Section Named.

Variable prefix : string.
Variable names : list string.
Variable parser : argument_parser.
Hypothesis prefix_no_dash : no_dash prefix = true.
Hypothesis names_no_dash : forall b, b ∈ names -> no_dash b = true.
Hypothesis schema_accepted_ : add_arguments prefix names ArgumentParser = Ok parser.

Lemma parser_store_entry o d :
  (o, StoreAction d) ∈ parser ->
  exists b, b ∈ names /\ o = flag_of prefix b /\ d = prefix +:+ b.
Proof.
  intros Hin. pose proof schema_accepted_ as Hp.
  apply add_arguments_entries in Hp. rewrite Hp in Hin.
  apply elem_of_app in Hin as [Hin|Hin].
  - unfold ArgumentParser in Hin.
    apply elem_of_cons in Hin as [[=]|Hin].
    apply elem_of_cons in Hin as [[=]|Hin].
    by apply elem_of_nil in Hin.
  - apply list_elem_of_fmap in Hin as (b & [= -> ->] & Hb).
    exists b. split; [done|]. split; [done|].
    exact (dest_of_flag prefix b prefix_no_dash (names_no_dash b Hb)).
Qed.

Lemma parser_help_entry o :
  (o, HelpAction) ∈ parser -> o = "-h" \/ o = "--help".
Proof.
  intros Hin. pose proof schema_accepted_ as Hp.
  apply add_arguments_entries in Hp. rewrite Hp in Hin.
  apply elem_of_app in Hin as [Hin|Hin].
  - unfold ArgumentParser in Hin.
    apply elem_of_cons in Hin as [[= ->]|Hin]; [by left|].
    apply elem_of_cons in Hin as [[= ->]|Hin]; [by right|].
    by apply elem_of_nil in Hin.
  - by apply list_elem_of_fmap in Hin as (b & [=] & _).
Qed.

Lemma parser_declares b :
  b ∈ names -> (flag_of prefix b, StoreAction (prefix +:+ b)) ∈ parser.
Proof.
  intros Hb. pose proof schema_accepted_ as Hp.
  apply add_arguments_entries in Hp. rewrite Hp.
  apply elem_of_app. right. apply list_elem_of_fmap. exists b.
  split; [|done]. cbv beta.
  by rewrite (dest_of_flag prefix b prefix_no_dash (names_no_dash b Hb)).
Qed.

(** What the parser stores a flag to, read off the flag itself, for an
    override set that the parser goes through without exiting. *)
Lemma resolve_flag_names_parameter argv ns0 ns typed text a :
  parse_args parser argv ns0 = Ok ns ->
  (typed, text) ∈ argv ->
  a ∈ names ->
  resolve_flag parser typed = Resolved (StoreAction (prefix +:+ a))
  <-> names_parameter prefix names typed a.
Proof.
  intros Hparse Hin Ha.
  destruct (parse_args_no_exit _ _ _ _ _ _ Hparse Hin) as [Hamb Hhelp].
  unfold resolve_flag in *. split.
  - destruct (Dict.get typed parser) as [act|] eqn:Hget.
    + intros [= ->]. apply dict_get_elem in Hget.
      apply parser_store_entry in Hget as (b & Hb & -> & Heq).
      apply append_inj_r in Heq. subst b. by left.
    + destruct (String.prefix "--" typed) eqn:Hdd; [|done].
      destruct (filter _ parser) as [|[o act] [|? ?]] eqn:Hf; try done.
      intros [= Hact]. simpl in Hact. subst act.
      assert ((o, StoreAction (prefix +:+ a))
              ∈ filter (fun oa : string * action =>
                          Is_true (String.prefix typed oa.1)) parser)
        as Hin' by (rewrite Hf; by left).
      apply list_elem_of_filter in Hin' as [Hpre Hin'].
      apply parser_store_entry in Hin' as (b & Hb & -> & Heq).
      apply append_inj_r in Heq. subst b.
      right. split; [done|]. split; [by apply Is_true_true|].
      intros b' Hb' ->.
      assert (is_Some (Dict.get (flag_of prefix b') parser)) as [? ?];
        [|congruence].
      apply dict_keys_get. apply list_elem_of_fmap.
      exists (flag_of prefix b', StoreAction (prefix +:+ b')).
      split; [done|]. by apply parser_declares.
  - intros Hnames.
    assert (forall act, Dict.get typed parser = Some act ->
              exists b, b ∈ names /\ typed = flag_of prefix b
                        /\ act = StoreAction (prefix +:+ b)) as Hexact.
    { intros act Hget. pose proof Hget as Hel%dict_get_elem.
      destruct act as [d|].
      - apply parser_store_entry in Hel as (b & Hb & -> & ->). eauto.
      - exfalso. apply Hhelp. by rewrite Hget. }
    destruct Hnames as [->|(Hdd & Hpre & Hother)].
    + destruct (Dict.get (flag_of prefix a) parser) as [act|] eqn:Hget.
      * destruct (Hexact act eq_refl) as (b & Hb & Heq & ->).
        apply flag_of_inj in Heq. by subst b.
      * assert (is_Some (Dict.get (flag_of prefix a) parser)) as [? ?];
          [|congruence].
        apply dict_keys_get. apply list_elem_of_fmap.
        exists (flag_of prefix a, StoreAction (prefix +:+ a)).
        split; [done|]. by apply parser_declares.
    + destruct (Dict.get typed parser) as [act|] eqn:Hget.
      * destruct (Hexact act eq_refl) as (b & Hb & Heq & ->).
        by destruct (Hother b Hb).
      * rewrite Hdd in *.
        assert ((flag_of prefix a, StoreAction (prefix +:+ a))
                ∈ filter (fun oa : string * action =>
                            Is_true (String.prefix typed oa.1)) parser)
          as Hin'.
        { apply list_elem_of_filter. split; [|by apply parser_declares].
          change (Is_true (String.prefix typed (flag_of prefix a))).
          by rewrite Hpre. }
        destruct (filter _ parser) as [|x [|y l]]; [|..].
        -- by apply elem_of_nil in Hin'.
        -- by apply list_elem_of_singleton in Hin' as <-.
        -- done.
Qed.


Lemma last_named_last_supplied argv ns0 ns a text :
  parse_args parser argv ns0 = Ok ns ->
  a ∈ names ->
  last_named argv prefix names a text ->
  last_supplied parser argv (prefix +:+ a) = Some text.
Proof.
  intros Hparse Ha (before & typed & after & Hargv & Hnames & Hlast).
  assert (last_supplied parser after (prefix +:+ a) = None) as Hafter.
  { assert (forall t v, (t, v) ∈ after -> (t, v) ∈ argv) as Hsub.
    { intros t v Hin. rewrite Hargv. apply elem_of_app. right. by right. }
    clear Hargv. induction after as [|[t v] rest IH]; [done|]. simpl.
    rewrite IH.
    - destruct (resolve_flag parser t) as [[d|]| |] eqn:Hres; try done.
      destruct (decide (d = prefix +:+ a)) as [->|Hne]; [|done].
      exfalso. apply (Hlast t v); [by left|].
      eapply resolve_flag_names_parameter; [exact Hparse| |done|done].
      apply Hsub. by left.
    - intros t' v' Hin. apply (Hlast t' v'). by right.
    - intros t' v' Hin. apply Hsub. by right. }
  rewrite Hargv, last_supplied_app. simpl. rewrite Hafter.
  assert (resolve_flag parser typed = Resolved (StoreAction (prefix +:+ a)))
    as ->.
  { eapply resolve_flag_names_parameter; [exact Hparse| |done|done].
    rewrite Hargv. apply elem_of_app. right. by left. }
  by rewrite decide_True.
Qed.

(** The text that the comprehension keeps for a parameter is the one that
    the parser stored for its flag. *)
Lemma strip_and_filter_get argv ns a text :
  parse_known_args parser argv = Ok ns ->
  a ∈ names ->
  Dict.get (prefix +:+ a) ns = Some (Some text) ->
  Dict.get a (strip_and_filter prefix ns) = Some text.
Proof.
  intros Hparse Ha Hget.
  pose proof (dict_get_elem _ _ _ Hget) as Hin.
  pose proof (strip_and_filter_keys prefix _ _ _ Hin) as Hkey.
  rewrite strip_prefix_app in Hkey.
  apply dict_keys_get in Hkey as [t' Ht']. rewrite Ht'. f_equal.
  pose proof (dict_get_elem _ _ _ Ht') as Hin'.
  apply strip_and_filter_entries in Hin' as (dest & Hdest & Hstrip).
  assert (dest = prefix +:+ a) as ->.
  { destruct (parse_args_entries _ _ _ _ _ _ Hparse Hdest)
      as [Hdef|(typed & Hty & Hres)].
    { by apply default_namespace_all_None in Hdef. }
    destruct (resolve_flag_in_parser _ _ _ Hres) as (o & Ho).
    apply parser_store_entry in Ho as (b & Hb & _ & ->).
    rewrite strip_prefix_app in Hstrip. by subst b. }
  assert (NoDup (Dict.keys ns)) as Hnd.
  { eapply parse_args_NoDup; [|exact Hparse]. apply default_namespace_NoDup. }
  rewrite (dict_get_of_elem _ _ _ Hnd Hdest) in Hget. congruence.
Qed.

End Named.

Section Link.

Variable py_int : string -> option Z.
Variable py_float : string -> option QArith_base.Q.
Variable yaml_safe_load : string -> option data.
Variable argv : list (string * string).

(** A successful derivation binds a parameter to what the text of the last
    pair that names it loads as. *)
Lemma override_entry callable prefix parsed_args st st1 a text :
  no_dash (prefix_dot prefix) = true ->
  Forall (fun p => no_dash (p_name p) = true) (signature callable) ->
  get_callable_parsed_args py_int py_float yaml_safe_load argv callable
    prefix st = (Ok parsed_args, st1) ->
  a ∈ Dict.keys (parameter_arguments (signature callable)) ->
  last_named argv (prefix_dot prefix)
    (Dict.keys (parameter_arguments (signature callable))) a text ->
  exists d sa sb cli,
    yaml_safe_load text = Some d
    /\ alloc_data d sa = (Ok cli, sb)
    /\ Dict.get a parsed_args = Some cli.
Proof.
  intros Hpre Hnames Hrun Ha Hlast.
  set (pre := prefix_dot prefix) in *.
  set (arguments := parameter_arguments (signature callable)) in *.
  assert (forall b, b ∈ Dict.keys arguments -> no_dash b = true) as Hnd.
  { intros b [_ Hb]%parameter_arguments_keys.
    apply list_elem_of_fmap in Hb as (p & -> & Hp).
    by apply (proj1 (Forall_forall _ _) Hnames). }
  unfold get_callable_parsed_args, get_parsed_args in Hrun.
  fold arguments in Hrun. fold pre in Hrun.
  apply bind_Ok_inv in Hrun as (parser & s1 & Hparser & Hrun).
  apply bind_Ok_inv in Hrun as (ns & s2 & Hns & Hrun).
  unfold lift in Hparser, Hns.
  injection Hparser as Hparser <-. injection Hns as Hns <-.
  pose proof (last_named_last_supplied pre _ parser Hpre Hnd Hparser
                argv _ ns a text Hns Ha Hlast) as Hsup.
  pose proof (parse_args_get _ _ _ _ (pre +:+ a) Hns) as Hget.
  rewrite Hsup in Hget.
  pose proof (strip_and_filter_get pre _ parser Hpre Hnd Hparser
                argv ns a text Hns Ha Hget) as Hkept.
  destruct (coerce_all_get _ _ _ _ _ _ _ _ _ _ Hrun Hkept)
    as (e & sa & sb & v & He & Hc & Hv).
  unfold coerce in Hc.
  rewrite (parameter_arguments_not_primitive _ _ _ He) in Hc.
  destruct (yaml_safe_load text) as [d|] eqn:Hd; [|done].
  exists d, sa, sb, v. done.
Qed.

End Link.

(** ** The derived mapping, in terms of the override set *)

Section Supplied.

Variable py_int : string -> option Z.
Variable py_float : string -> option QArith_base.Q.
Variable yaml_safe_load : string -> option data.
Variable argv : list (string * string).


End Supplied.



(** C5, as stated, fails: called with all the arguments of the wrapped
    constructor, the constructor returns an instance and is invoked once,
    while the wrapper around it returns the invocable that holds the
    arguments and invokes nothing. *)
Lemma wrapper_call_returns_no_instance :
  let kwargs := [("lr", VInt 1)] in
  let st := Sample.config_state in
  call Sample.invoke (Fn Sample.Adam) [] kwargs st
  = (Ok (VInstance (PyClass "Adam" ["Adam"; "object"] None) 1),
     {| heap := heap st; next_loc := next_loc st;
        calls := [Invocation Sample.Adam [] kwargs] |})
  /\ call Sample.invoke (Wrapper CallableType (Fn Sample.Adam)) [] kwargs st
     = (Ok (VCallable (Partial (Fn Sample.Adam) [] kwargs)), st)
  /\ calls st = [].
Proof. repeat split. Qed.

(** ** Precedence and mutation, in terms of the override set *)

Section Precedence.

Variable py_int : string -> option Z.
Variable py_float : string -> option QArith_base.Q.
Variable yaml_safe_load : string -> option data.
Variable invoke : pyfunc -> list value -> dict -> gmap loc dict -> result value.
Variable argv : list (string * string).
Variable registry : Registry.

(** C3: let a fragment select a registered variant, and let the last pair
    of the override set that names the parameter [x] of the variant's
    constructor (by the flag [--<prefix>.x] or an abbreviation of it) carry
    the text [text].  When the getter returns, it has invoked the
    constructor with the entries [K] of the fragment's kwargs dict, and
    whatever the kwargs held at [x], [K] holds at [x] the value [cli] that
    [text] loads as, when the engine does not resolve [x] through a family
    getter; when it does, [K] holds at [x] the object that this getter
    returned for [cli]. *)
Theorem cli_override_takes_precedence (R : loc -> Prop)
    fuel tn g table lf frag name lk kw object_class prefix st r st' x text :
  returns_its_arguments invoke ->
  constructors_hold_no_dict registry ->
  populated registry ->
  _registry registry !! tn = Some table ->
  getters registry !! ("get_" +:+ tn) = Some g ->
  table !! name = Some object_class ->
  NoDup (p_name <$> signature (g_constructor g)) ->
  region R st -> ~ R lk -> (forall l, l ∈ drefs kw -> R l) ->
  heap st !! lf = Some frag ->
  Dict.get "name" frag = Some (VStr name) ->
  Dict.get "kwargs" frag = Some (VDict lk) ->
  heap st !! lk = Some kw ->
  no_dash (prefix_dot prefix) = true ->
  Forall (fun p => no_dash (p_name p) = true) (signature object_class) ->
  x <> "self" -> x ∈ p_name <$> signature object_class ->
  last_named argv (prefix_dot prefix)
    (Dict.keys (parameter_arguments (signature object_class))) x text ->
  get py_int py_float yaml_safe_load invoke argv registry (S fuel) tn
    (VDict lf) prefix st = (Ok r, st') ->
  exists d cli K st3,
    yaml_safe_load text = Some d
    /\ (exists sa sb, alloc_data d sa = (Ok cli, sb))
    /\ call invoke object_class [] K st3 = (Ok r, st')
    /\ heap st' !! lk = Some K
    /\ (forall f, object_class = Fn f ->
                  calls st' = calls st3 ++ [Invocation f [] K])
    /\ (forall cls fn, object_class = Wrapper cls fn ->
                       r = VCallable (Partial fn [] K))
    /\ (~ resolved_by_engine (signature (g_constructor g)) x ->
        Dict.get x K = Some cli)
    /\ (forall p c,
          p ∈ signature (g_constructor g) -> p_name p = x ->
          registrable_annotation (p_annotation p) = Some c ->
          exists tn' g' s s' object,
            cls_type_name c = Some tn'
            /\ getters registry !! ("get_" +:+ tn') = Some g'
            /\ getter py_int py_float yaml_safe_load invoke argv registry
                 fuel g' cli (Some (prefix_dot prefix +:+ x)) s
               = (Ok object, s')
            /\ Dict.get x K = Some object).
Proof.
  intros Hinvoke Hnodict Hpop Htable Hg Hoc Hnd Hreg Hlk Hrkw
    Hfrag Hname Hkw Hd Hpre Hnames Hself Hx Hlast Hrun.
  destruct (getter_merges_overrides py_int py_float yaml_safe_load invoke
              argv registry R fuel tn g table lf frag name lk kw object_class
              prefix st r st' Hinvoke Hnodict Hpop Htable Hg Hoc Hnd Hreg Hlk
              Hrkw Hfrag Hname Hkw Hd Hrun)
    as (parsed_args & st1 & K & st3 & Hpa & Hcall & HK & Hfn & Hwr & Hall).
  destruct (override_entry py_int py_float yaml_safe_load argv object_class
              prefix parsed_args st st1 x text Hpre Hnames Hpa)
    as (d & sa & sb & cli & Hload & Halloc & Hget); [|done|].
  { by apply parameter_arguments_keys. }
  destruct (Hall x cli Hget) as (_ & Hplain & Hres).
  exists d, cli, K, st3. split; [done|]. split; [eauto|].
  split; [done|]. split; [done|]. split; [done|]. split; [done|].
  split; done.
Qed.


End Precedence.

Lemma gamma_not_resolved_by_engine :
  ~ resolved_by_engine (signature (Fn Sample.DQNAgent)) "gamma".
Proof.
  intros (p & Hp & Hname & Hsome). simpl in Hp.
  apply elem_of_cons in Hp as [->|Hp]; [done|].
  apply list_elem_of_singleton in Hp as ->. by destruct Hsome.
Defined.

Lemma gamma_named_last :
  last_named [("--agent.gamma", "3.5"); ("--agent.optimizer.lr", "12")]
    (prefix_dot (Some "agent"))
    (Dict.keys (parameter_arguments (signature (Fn Sample.DQNAgent))))
    "gamma" "3.5".
Proof.
  exists [], "--agent.gamma", [("--agent.optimizer.lr", "12")].
  split; [done|]. split; [by left|].
  intros t v Hin. apply list_elem_of_singleton in Hin as [= -> ->].
  intros [Heq|(_ & Hp & _)]; [by vm_compute in Heq|by vm_compute in Hp].
Defined.

Lemma cli_override_takes_precedence_witness :
  let argv := [("--agent.gamma", "3.5"); ("--agent.optimizer.lr", "12")] in
  let before := Sample.config_state in
  heap before !! 0%nat = Some [("name", VStr "DQNAgent"); ("kwargs", VDict 1%nat)]
  /\ heap before !! 1%nat = Some [("optimizer", VDict 2%nat); ("gamma", VInt 1)]
  /\ exists r st' K,
       get Sample.py_int Sample.py_float Sample.yaml_safe_load Sample.invoke
         argv Sample.dqn_registry 2 "agent" (VDict 0%nat) (Some "agent") before
       = (Ok r, st')
       /\ last (calls st') = Some (Invocation Sample.DQNAgent [] K)
       /\ Dict.get "gamma" K = Some (VFloat (QArith_base.Qmake 7 2)).
Proof.
  intros argv before. split; [reflexivity|]. split; [reflexivity|].
  assert (exists r st',
            get Sample.py_int Sample.py_float Sample.yaml_safe_load
              Sample.invoke argv Sample.dqn_registry 2 "agent" (VDict 0%nat)
              (Some "agent") before = (Ok r, st')) as (r & st' & Hrun).
  { eexists _, _. vm_compute. reflexivity. }
  destruct (cli_override_takes_precedence Sample.py_int Sample.py_float
              Sample.yaml_safe_load Sample.invoke argv Sample.dqn_registry
              (fun l => l = 2%nat \/ l = 3%nat \/ (4 <= l)%nat)
              1 "agent"
              {| g_type := Sample.Agent; g_constructor := Fn Sample.DQNAgent |}
              {[ "DQNAgent" := Fn Sample.DQNAgent;
                 "RandomAgent" := Fn Sample.RandomAgent ]}
              0%nat [("name", VStr "DQNAgent"); ("kwargs", VDict 1%nat)]
              "DQNAgent" 1%nat
              [("optimizer", VDict 2%nat); ("gamma", VInt 1)]
              (Fn Sample.DQNAgent) (Some "agent") before r st' "gamma" "3.5")
    as (d & cli & K & st3 & Hd & (sa & sb & Hcli) & _ & _ & Hcalls & _
        & Hgamma & _).
  - exact sample_invoke_returns_its_arguments.
  - exact dqn_registry_holds_no_dict.
  - exact dqn_registry_populated.
  - vm_compute. reflexivity.
  - vm_compute. reflexivity.
  - vm_compute. reflexivity.
  - apply (bool_decide_unpack _). vm_compute. exact I.
  - exact config_state_region.
  - lia.
  - intros l Hl. simpl in Hl. apply list_elem_of_singleton in Hl. auto.
  - vm_compute. reflexivity.
  - vm_compute. reflexivity.
  - vm_compute. reflexivity.
  - vm_compute. reflexivity.
  - vm_compute. reflexivity.
  - repeat constructor.
  - done.
  - right. by left.
  - exact gamma_named_last.
  - exact Hrun.
  - vm_compute in Hd. injection Hd as <-.
    simpl in Hcli. injection Hcli as <- _.
    exists r, st', K. split; [done|].
    split; [by rewrite (Hcalls Sample.DQNAgent eq_refl), last_snoc|].
    exact (Hgamma gamma_not_resolved_by_engine).
Defined.

